(** * injektor: the dependency-injection container and the lifecycle registry

    A shallow embedding of [src/core/container.ts] (class [Container]) and
    [src/core/life-cycle.ts] (the lifecycle registry), followed by the
    properties of the resolution engine and of ordered teardown.  Their
    callers are embedded after them: the route decorators and
    [registerHttpRoutes] with the handler it registers
    ([decorators/controller.ts], [decorators/http-methods.ts],
    [http/router.ts]) and the registration loops of [core/scanner.ts].

    Conventions of the embedding:
    - a JavaScript [Map] whose iteration order is never observed is a stdpp
      [gmap]; a [Map] or [Set] that the code iterates is an insertion-ordered
      list ([JsMap], [stack_add]);
    - mutation of [this] is explicit state passing; [throw] is the [Throw]
      outcome, and the state reached at the throw is kept, as in JavaScript;
    - object identity is a heap address: [new C(...)] allocates the next
      address of [heap];
    - recursion through [resolve] is bounded by a fuel argument; running out
      of it is the separate outcome [OutOfFuel], never confused with a
      JavaScript exception;
    - what the code reads from outside itself is a parameter: the decorator
      metadata and the request-id generator are the fields of [Env]; a
      constructor either throws or builds the object, and a lifecycle hook
      returns, throws, or returns a promise, without calling back into the
      container or the registry; the promises among the values are those
      that the container created, and an object that it built has no
      [then] method;
    - [setTimeout] adds to a list of timers that [runNextTimer] fires in the
      order of their due times; an [async] function runs to its end without
      interleaving;
    - the console output of the container is left out, that of the
      lifecycle registry, of the scanner and of the request handler is part
      of the trace of the registry;
    - the hooks and handler methods of a class are parameters
      ([Boot.Program]), and so is the id that the router generates for a
      request. *)

From Stdlib Require Import Ascii.
From stdpp Require Import gmap strings list fin_maps pretty.

(** ** Strings *)

Definition nl : string := String (Ascii.ascii_of_nat 10) EmptyString.

(** [s.includes(needle)] for a non-empty needle. *)
Definition includes (s needle : string) : bool :=
  match String.index 0 needle s with
  | Some _ => true
  | None => false
  end.

(** [parts.join(sep)] *)
Definition join (sep : string) (parts : list string) : string :=
  String.concat sep parts.

(** ** Insertion-ordered maps: the JavaScript [Map] where order is observed *)

Module JsMap.
Section Ops.
Context {K V : Type} `{EqDecision K}.

Fixpoint get (k : K) (m : list (K * V)) : option V :=
  match m with
  | [] => None
  | (k', v) :: m' => if decide (k = k') then Some v else get k m'
  end.

Definition has (k : K) (m : list (K * V)) : bool :=
  match get k m with Some _ => true | None => false end.

(** [set] keeps the position of an existing key and appends a new one. *)
Fixpoint set (k : K) (v : V) (m : list (K * V)) : list (K * V) :=
  match m with
  | [] => [(k, v)]
  | (k', v') :: m' =>
      if decide (k = k') then (k, v) :: m' else (k', v') :: set k v m'
  end.

Fixpoint delete (k : K) (m : list (K * V)) : list (K * V) :=
  match m with
  | [] => []
  | (k', v') :: m' =>
      if decide (k = k') then delete k m' else (k', v') :: delete k m'
  end.

Definition keys (m : list (K * V)) : list K := fst <$> m.
Definition values (m : list (K * V)) : list V := snd <$> m.
End Ops.
End JsMap.

(** ** Data model ([src/types], [container.ts]) *)

(** A token is a class reference, a string or a symbol.  Classes are named
    by an index into the class table of the environment; a symbol carries
    its identity and its description. *)
Inductive Token :=
| TClass (c : nat)
| TString (s : string)
| TSymbol (id : nat) (description : string).

#[global] Instance Token_eq_dec : EqDecision Token.
Proof. solve_decision. Defined.

#[global] Instance Token_countable : Countable Token.
Proof.
  refine (inj_countable'
    (λ t, match t with
          | TClass c => inl c
          | TString s => inr (inl s)
          | TSymbol i d => inr (inr (i, d))
          end)
    (λ x, match x with
          | inl c => TClass c
          | inr (inl s) => TString s
          | inr (inr (i, d)) => TSymbol i d
          end) _).
  by intros [].
Defined.

(** [LifeCycleOpt]; [unsupported] stands for any other string that reaches
    the [default] branch of the scope switch at run time. *)
Inductive LifeCycleOpt :=
| singleton
| transient
| request
| unsupported (s : string).

#[global] Instance LifeCycleOpt_eq_dec : EqDecision LifeCycleOpt.
Proof. solve_decision. Defined.

(** Run-time values handed out by the container. *)
Inductive Value :=
| VObj (address : nat)       (* an object created by [new] *)
| VPromise (p : nat)         (* a promise created by deferred resolution *)
| VData (s : string)         (* any primitive *)
| VUndefined.

#[global] Instance Value_eq_dec : EqDecision Value.
Proof. solve_decision. Defined.

Record Error := mkError { message : string }.

#[global] Instance Error_eq_dec : EqDecision Error.
Proof. solve_decision. Defined.

(** What a registered factory function does when it is called with no
    argument. *)
Inductive Factory :=
| FactoryNew (c : nat)          (* () => new C() *)
| FactoryConst (v : Value)      (* () => v, a captured value *)
| FactoryThrows (msg : string).

(** [Provider<T>]: a field is [Some] when the key is present in the object. *)
Record Provider := mkProvider {
  useClass : option nat;
  useValue : option Value;
  useFactory : option Factory;
  scope : option LifeCycleOpt;
}.

Definition classProvider (c : nat) (s : LifeCycleOpt) : Provider :=
  {| useClass := Some c; useValue := None; useFactory := None;
     scope := Some s |}.

Record PendingResolution := mkPending {
  token : Token;
  attempts : nat;
  lastError : Error;
  dependencies : list nat;
}.

(** What the container reads from outside itself: the decorator metadata
    ([Reflect.getMetadata], [metadataRegistry]) and the request-id
    generator of [runtime/uuid]. *)
Record ClassInfo := mkClass {
  cls_name : string;               (* [C.name] *)
  cls_source : string;             (* [String(C)] *)
  cls_paramtypes : list nat;       (* "design:paramtypes" *)
  cls_ctor_throws : option string; (* the constructor body throws *)
}.

Record Env := mkEnv {
  classes : nat -> ClassInfo;
  services : list nat;
  controllers : list nat;
  processors : list nat;
  configurations : list nat;
  application : option nat;
  getServiceScope : nat -> LifeCycleOpt;
  getControllerScope : nat -> option LifeCycleOpt;   (* "service:scope" *)
  getProcessorScope : nat -> LifeCycleOpt;
  generateRequestId : nat -> string;  (* the n-th generated id *)
}.

Record Obj := mkObj { obj_class : nat; obj_args : list Value }.

(** The state of a promise that the container created.  [PLocked q]: the
    promise was resolved with the promise [q], and is settled as [q] is when
    [q] is settled; its own [resolve] and [reject] have no effect any
    more. *)
Inductive PromiseState :=
| PPending
| PFulfilled (v : Value)
| PRejected (e : Error)
| PLocked (q : nat).

(** The two timer callbacks of [handleDeferredResolution], with what their
    closures capture. *)
Inductive Task :=
| RetryFirst (tok : Token) (requestId : option string)
             (pending : option PendingResolution) (p : nat)
| RetryFinal (tok : Token) (requestId : option string) (p : nat).

Record Timer := mkTimer { due : nat; task : Task }.

(** The fields of [Container], then the part of the JavaScript run time that
    its methods touch. *)
Record Container := mkContainer {
  providers : gmap Token Provider;
  singletons : gmap Token Value;
  requestInstances : gmap string (gmap Token Value);
  pendingResolutions : list (Token * PendingResolution);
  resolutionStack : list Token;
  enableDeferredResolution : bool;
  heap : list Obj;
  generatedIds : nat;
  promises : list PromiseState;
  timers : list Timer;
  now : nat;
}.

Definition newContainer : Container :=
  {| providers := ∅; singletons := ∅; requestInstances := ∅;
     pendingResolutions := []; resolutionStack := [];
     enableDeferredResolution := true;
     heap := []; generatedIds := 0; promises := []; timers := []; now := 0 |}.

Definition set_providers (f : gmap Token Provider -> gmap Token Provider)
    (c : Container) : Container :=
  {| providers := f (providers c); singletons := singletons c;
     requestInstances := requestInstances c;
     pendingResolutions := pendingResolutions c;
     resolutionStack := resolutionStack c;
     enableDeferredResolution := enableDeferredResolution c;
     heap := heap c; generatedIds := generatedIds c;
     promises := promises c; timers := timers c; now := now c |}.

Definition set_singletons (f : gmap Token Value -> gmap Token Value)
    (c : Container) : Container :=
  {| providers := providers c; singletons := f (singletons c);
     requestInstances := requestInstances c;
     pendingResolutions := pendingResolutions c;
     resolutionStack := resolutionStack c;
     enableDeferredResolution := enableDeferredResolution c;
     heap := heap c; generatedIds := generatedIds c;
     promises := promises c; timers := timers c; now := now c |}.

Definition set_requestInstances
    (f : gmap string (gmap Token Value) -> gmap string (gmap Token Value))
    (c : Container) : Container :=
  {| providers := providers c; singletons := singletons c;
     requestInstances := f (requestInstances c);
     pendingResolutions := pendingResolutions c;
     resolutionStack := resolutionStack c;
     enableDeferredResolution := enableDeferredResolution c;
     heap := heap c; generatedIds := generatedIds c;
     promises := promises c; timers := timers c; now := now c |}.

Definition set_pendingResolutions
    (f : list (Token * PendingResolution) -> list (Token * PendingResolution))
    (c : Container) : Container :=
  {| providers := providers c; singletons := singletons c;
     requestInstances := requestInstances c;
     pendingResolutions := f (pendingResolutions c);
     resolutionStack := resolutionStack c;
     enableDeferredResolution := enableDeferredResolution c;
     heap := heap c; generatedIds := generatedIds c;
     promises := promises c; timers := timers c; now := now c |}.

Definition set_resolutionStack (f : list Token -> list Token)
    (c : Container) : Container :=
  {| providers := providers c; singletons := singletons c;
     requestInstances := requestInstances c;
     pendingResolutions := pendingResolutions c;
     resolutionStack := f (resolutionStack c);
     enableDeferredResolution := enableDeferredResolution c;
     heap := heap c; generatedIds := generatedIds c;
     promises := promises c; timers := timers c; now := now c |}.

Definition set_enableDeferredResolution (b : bool) (c : Container)
    : Container :=
  {| providers := providers c; singletons := singletons c;
     requestInstances := requestInstances c;
     pendingResolutions := pendingResolutions c;
     resolutionStack := resolutionStack c;
     enableDeferredResolution := b;
     heap := heap c; generatedIds := generatedIds c;
     promises := promises c; timers := timers c; now := now c |}.

Definition set_heap (f : list Obj -> list Obj) (c : Container) : Container :=
  {| providers := providers c; singletons := singletons c;
     requestInstances := requestInstances c;
     pendingResolutions := pendingResolutions c;
     resolutionStack := resolutionStack c;
     enableDeferredResolution := enableDeferredResolution c;
     heap := f (heap c); generatedIds := generatedIds c;
     promises := promises c; timers := timers c; now := now c |}.

Definition set_generatedIds (f : nat -> nat) (c : Container) : Container :=
  {| providers := providers c; singletons := singletons c;
     requestInstances := requestInstances c;
     pendingResolutions := pendingResolutions c;
     resolutionStack := resolutionStack c;
     enableDeferredResolution := enableDeferredResolution c;
     heap := heap c; generatedIds := f (generatedIds c);
     promises := promises c; timers := timers c; now := now c |}.

Definition set_promises (f : list PromiseState -> list PromiseState)
    (c : Container) : Container :=
  {| providers := providers c; singletons := singletons c;
     requestInstances := requestInstances c;
     pendingResolutions := pendingResolutions c;
     resolutionStack := resolutionStack c;
     enableDeferredResolution := enableDeferredResolution c;
     heap := heap c; generatedIds := generatedIds c;
     promises := f (promises c); timers := timers c; now := now c |}.

Definition set_timers (f : list Timer -> list Timer) (c : Container)
    : Container :=
  {| providers := providers c; singletons := singletons c;
     requestInstances := requestInstances c;
     pendingResolutions := pendingResolutions c;
     resolutionStack := resolutionStack c;
     enableDeferredResolution := enableDeferredResolution c;
     heap := heap c; generatedIds := generatedIds c;
     promises := promises c; timers := f (timers c); now := now c |}.

Definition set_now (t : nat) (c : Container) : Container :=
  {| providers := providers c; singletons := singletons c;
     requestInstances := requestInstances c;
     pendingResolutions := pendingResolutions c;
     resolutionStack := resolutionStack c;
     enableDeferredResolution := enableDeferredResolution c;
     heap := heap c; generatedIds := generatedIds c;
     promises := promises c; timers := timers c; now := t |}.

(** ** Computations: state, exceptions, fuel *)

Inductive Outcome (A : Type) :=
| Return (a : A)
| Throw (e : Error)
| OutOfFuel.
Arguments Return {A} a.
Arguments Throw {A} e.
Arguments OutOfFuel {A}.

(** A method running on a state of type [St]. *)
Definition M (St A : Type) : Type := St -> Outcome A * St.

Section Monad.
Context {St : Type}.

Definition ret {A} (a : A) : M St A := λ c, (Return a, c).
Definition throw {A} (e : Error) : M St A := λ c, (Throw e, c).

Definition bind {A B} (m : M St A) (k : A -> M St B) : M St B :=
  λ c, match m c with
       | (Return a, c') => k a c'
       | (Throw e, c') => (Throw e, c')
       | (OutOfFuel, c') => (OutOfFuel, c')
       end.

Definition modify (f : St -> St) : M St unit := λ c, (Return tt, f c).
Definition gets {A} (f : St -> A) : M St A := λ c, (Return (f c), c).

(** [try { m } catch (e) { h e }] *)
Definition try_catch {A} (m : M St A) (h : Error -> M St A) : M St A :=
  λ c, match m c with
       | (Throw e, c') => h e c'
       | r => r
       end.

(** [try { m } finally { f }], for an [f] that cannot throw. *)
Definition try_finally {A} (m : M St A) (f : St -> St) : M St A :=
  λ c, let '(r, c') := m c in (r, f c').
End Monad.

#[global] Instance M_ret {St} : MRet (M St) := @ret St.
#[global] Instance M_bind {St} : MBind (M St) := λ A B k m, bind m k.

(** [xs.map(f)] for an effectful [f]: left to right, stopping at the first
    throw. *)
Fixpoint mapM {St A B} (f : A -> M St B) (xs : list A) : M St (list B) :=
  match xs with
  | [] => ret []
  | x :: xs' => y ← f x; ys ← mapM f xs'; ret (y :: ys)
  end.

(** [for (const x of xs) { f x }] *)
Fixpoint forM_ {St A} (f : A -> M St unit) (xs : list A) : M St unit :=
  match xs with
  | [] => ret tt
  | x :: xs' => _ ← f x; forM_ f xs'
  end.

(** ** The container ([container.ts]) *)

(** [resolutionStack] is a [Set]: [add] appends unless present, [delete]
    removes, and [Array.from] lists the members in insertion order. *)
Definition stack_add (t : Token) (st : list Token) : list Token :=
  if decide (t ∈ st) then st else st ++ [t].

Definition stack_delete (t : Token) (st : list Token) : list Token :=
  filter (λ t', t' ≠ t) st.

Definition register (tok : Token) (provider : Provider) (c : Container)
    : Container :=
  let c1 := set_providers (<[tok := provider]>) c in
  if JsMap.has tok (pendingResolutions c1)
  then set_pendingResolutions (JsMap.delete tok) c1
  else c1.

Definition clearRequestInstances (requestId : string) (c : Container)
    : Container :=
  set_requestInstances (delete requestId) c.

Definition setDeferredResolution (enabled : bool) (c : Container)
    : Container :=
  set_enableDeferredResolution enabled c.

Definition reset (c : Container) : Container :=
  set_requestInstances (λ _, ∅)
    (set_singletons (λ _, ∅) (set_providers (λ _, ∅) c)).

Record Stats := mkStats {
  stat_providers : nat;
  stat_singletons : nat;
  stat_activeRequests : nat;
  stat_pendingResolutions : nat;
}.

Definition getStats (c : Container) : Stats :=
  {| stat_providers := size (providers c);
     stat_singletons := size (singletons c);
     stat_activeRequests := size (requestInstances c);
     stat_pendingResolutions := length (pendingResolutions c) |}.

(** [new Promise(...)]: the next promise, pending. *)
Definition newPromise (c : Container) : nat * Container :=
  (length (promises c), set_promises (λ ps, ps ++ [PPending]) c).

(** The [resolve] and [reject] functions of a promise: only the first call
    has an effect. *)
Definition settle (p : nat) (st : PromiseState) (c : Container) : Container :=
  match promises c !! p with
  | Some PPending => set_promises (<[p := st]>) c
  | _ => c
  end.

(** The [TypeError] that rejects a promise resolved with itself, with the
    message of V8. *)
Definition selfResolutionError : Error :=
  mkError "Chaining cycle detected for promise #<Promise>".

(** [resolve(result)], the resolve function of the promise [p]: a result
    that is not a promise fulfils [p]; a promise is adopted, [p] follows
    it; [p] itself is refused with a [TypeError]. *)
Definition resolvePromise (p : nat) (result : Value) (c : Container)
    : Container :=
  match result with
  | VPromise q =>
      if decide (q = p)
      then settle p (PRejected selfResolutionError) c
      else settle p (PLocked q) c
  | _ => settle p (PFulfilled result) c
  end.

Definition setTimeout (t : Task) (delay : nat) (c : Container) : Container :=
  set_timers (λ ts, ts ++ [mkTimer (now c + delay) t]) c.

(** The timer that fires next: the least due time, the oldest among equals. *)
Fixpoint pop_earliest (ts : list Timer) : option (Timer * list Timer) :=
  match ts with
  | [] => None
  | t :: ts' =>
      match pop_earliest ts' with
      | Some (t', rest) =>
          if due t' <? due t then Some (t', t :: rest) else Some (t, ts')
      | None => Some (t, [])
      end
  end.

Section Resolution.
Variable env : Env.

Definition getTokenName (tok : Token) : string :=
  match tok with
  | TClass c => cls_name (classes env c)
  | TString s => s
  | TSymbol _ d => "Symbol(" +:+ d +:+ ")"
  end.

(** [String(token)] *)
Definition tokenToString (tok : Token) : string :=
  match tok with
  | TClass c => cls_source (classes env c)
  | TString s => s
  | TSymbol _ d => "Symbol(" +:+ d +:+ ")"
  end.

Definition extractDependencies (tok : Token) : list nat :=
  match tok with
  | TClass c => cls_paramtypes (classes env c)
  | _ => []
  end.

Definition isInitializationError (error : Error) : bool :=
  let message := message error in
  includes message "before initialization"
  || includes message "is not defined"
  || includes message "Cannot access"
  || includes message "ReferenceError".

Record PendingReport := mkReport {
  rep_token : string;
  rep_attempts : nat;
  rep_lastError : string;
  rep_dependencies : list string;
}.

Definition reportPending (pending : PendingResolution) : PendingReport :=
  {| rep_token := getTokenName (token pending);
     rep_attempts := attempts pending;
     rep_lastError := message (lastError pending);
     rep_dependencies :=
       (λ dep, getTokenName (TClass dep)) <$> dependencies pending |}.

Definition getPendingResolutions (c : Container) : list PendingReport :=
  reportPending <$> JsMap.values (pendingResolutions c).

Definition tryAutoRegister (cl : nat) (c : Container) : bool * Container :=
  let tok := TClass cl in
  if bool_decide (cl ∈ services env) then
    (true, register tok (classProvider cl (getServiceScope env cl)) c)
  else if bool_decide (cl ∈ controllers env) then
    (true, register tok
       (classProvider cl (default singleton (getControllerScope env cl))) c)
  else if bool_decide (cl ∈ processors env) then
    (true, register tok (classProvider cl (getProcessorScope env cl)) c)
  else if bool_decide (cl ∈ configurations env) then
    (true, register tok (classProvider cl singleton) c)
  else if bool_decide (application env = Some cl) then
    (true, register tok (classProvider cl singleton) c)
  else (false, c).

Definition generateDependencyErrorDetails (tok : Token) (c : Container)
    : string :=
  match tok with
  | TClass cl =>
      let name := cls_name (classes env cl) in
      let decorator :=
        if bool_decide (cl ∈ services env) then
          "- Classe " +:+ name +:+
          " tem decorator @Service mas não foi registrada"
        else if bool_decide (cl ∈ controllers env) then
          "- Classe " +:+ name +:+
          " tem decorator @Controller mas não foi registrada"
        else if bool_decide (cl ∈ processors env) then
          "- Classe " +:+ name +:+
          " tem decorator @Processor mas não foi registrada"
        else if bool_decide (cl ∈ configurations env) then
          "- Classe " +:+ name +:+
          " tem decorator @Configuration mas não foi registrada"
        else if bool_decide (application env = Some cl) then
          "- Classe " +:+ name +:+
          " tem decorator @Application mas não foi registrada"
        else
          "- Classe " +:+ name +:+
          " não possui decorators reconhecidos (@Service, @Controller, @Processor, @Configuration)" in
      let paramTypes := cls_paramtypes (classes env cl) in
      let params :=
        match paramTypes with
        | [] => ["- Classe não possui dependências no construtor"]
        | _ =>
            ("- Classe possui " +:+ pretty (length paramTypes) +:+
             " dependência(s) no construtor:")
            :: imap (λ index paramType,
                 let paramName :=
                   let n := cls_name (classes env paramType) in
                   if decide (n = "") then "Unknown" else n in
                 "  " +:+ pretty (index + 1) +:+ ". " +:+ paramName +:+ " "
                 +:+ (if bool_decide
                           (is_Some (providers c !! TClass paramType))
                      then "✅ (registrada)" else "❌ (não registrada)"))
                 paramTypes
        end in
      join nl (decorator :: params)
  | _ => "- Token '" +:+ tokenToString tok +:+
         "' não é uma classe construtora"
  end.

Definition unresolvedProviderError (tok : Token) (c : Container) : Error :=
  let tokenName := getTokenName tok in
  mkError
    ("Não foi possível resolver a dependência: " +:+ tokenName +:+ nl +:+ nl
     +:+ "Possíveis soluções:" +:+ nl
     +:+ "1. Registre a dependência manualmente no container:" +:+ nl
     +:+ "   container.register(" +:+ tokenName +:+ ", { useClass: "
     +:+ tokenName +:+ ", scope: 'singleton' })" +:+ nl +:+ nl
     +:+ "2. Para classes, adicione um decorator apropriado:" +:+ nl
     +:+ "   @Service() // para serviços de negócio" +:+ nl
     +:+ "   @Controller() // para controladores HTTP" +:+ nl
     +:+ "   @Processor() // para processadores" +:+ nl
     +:+ "   @Configuration // para configurações" +:+ nl +:+ nl
     +:+ "3. Execute o scanner para registrar automaticamente os componentes:"
     +:+ nl
     +:+ "   await scanAndRegister()" +:+ nl +:+ nl
     +:+ "Detalhes:" +:+ nl +:+ generateDependencyErrorDetails tok c).

Definition circularDependencyError (tok : Token) (c : Container) : Error :=
  mkError
    ("Dependência circular detectada: "
     +:+ join " -> " (getTokenName <$> resolutionStack c)
     +:+ " -> " +:+ getTokenName tok).

Definition deferredExhaustedError (tok : Token) (pending : PendingResolution)
    : Error :=
  mkError
    ("Não foi possível resolver " +:+ getTokenName tok
     +:+ " após múltiplas tentativas." +:+ nl
     +:+ "Erro original: " +:+ message (lastError pending) +:+ nl +:+ nl
     +:+ "Isso geralmente indica:" +:+ nl
     +:+ "1. Dependência circular não detectada" +:+ nl
     +:+ "2. Classe não está sendo exportada corretamente" +:+ nl
     +:+ "3. Problema na ordem de importação dos módulos" +:+ nl +:+ nl
     +:+ "Soluções:" +:+ nl
     +:+ "- Verifique se todas as classes estão sendo exportadas" +:+ nl
     +:+ "- Considere usar injeção de dependência baseada em tokens/strings"
     +:+ nl
     +:+ "- Reorganize a ordem das declarações de classe no arquivo").

(** [new target(...args)]: the constructor throws, or the object gets the
    next heap address. *)
Definition construct (target : nat) (args : list Value) : M Container Value :=
  λ c, match cls_ctor_throws (classes env target) with
       | Some msg => (Throw (mkError msg), c)
       | None => (Return (VObj (length (heap c))),
                  set_heap (λ h, h ++ [mkObj target args]) c)
       end.

Definition callFactory (f : Factory) : M Container Value :=
  match f with
  | FactoryNew cl => construct cl []
  | FactoryConst v => ret v
  | FactoryThrows msg => throw (mkError msg)
  end.

(** The methods below are open in [resolve], which is tied by the fuel
    recursion after them. *)
Section Open.
Variable resolve : Token -> option string -> M Container Value.

Definition createInstance (target : nat) (requestId : option string)
    : M Container Value :=
  resolvedDeps ← mapM (λ dep, resolve (TClass dep) requestId)
                    (cls_paramtypes (classes env target));
  construct target resolvedDeps.

Definition resolveSingleton (tok : Token) (target : nat) : M Container Value :=
  λ c, match singletons c !! tok with
       | Some v => (Return v, c)
       | None =>
           (instance ← createInstance target None;
            _ ← modify (set_singletons (<[tok := instance]>));
            ret instance) c
       end.

Definition resolveTransient (target : nat) (requestId : option string)
    : M Container Value :=
  createInstance target requestId.

(** [requestMap] aliases the sub-map stored under [requestId]: the final
    [requestMap.set] writes into the sub-map of the state reached after
    construction. *)
Definition resolveRequest (tok : Token) (target : nat) (requestId : string)
    : M Container Value :=
  λ c,
    let c1 :=
      match requestInstances c !! requestId with
      | Some _ => c
      | None => set_requestInstances (<[requestId := ∅]>) c
      end in
    match requestInstances c1 !! requestId ≫= (λ m, m !! tok) with
    | Some v => (Return v, c1)
    | None =>
        (instance ← createInstance target (Some requestId);
         _ ← modify (set_requestInstances (λ ri,
               <[requestId :=
                   <[tok := instance]> (default ∅ (ri !! requestId))]> ri));
         ret instance) c1
    end.
End Open.

Definition handleDeferredResolution (tok : Token)
    (requestId : option string) (error : Error) : M Container Value :=
  λ c,
    let pending := JsMap.get tok (pendingResolutions c) in
    let deferred :=
      let c1 := set_pendingResolutions (JsMap.set tok
                  {| token := tok;
                     attempts := default 0 (attempts <$> pending) + 1;
                     lastError := error;
                     dependencies := extractDependencies tok |}) c in
      let '(p, c2) := newPromise c1 in
      (Return (VPromise p),
       setTimeout (RetryFirst tok requestId pending p) 50 c2) in
    match pending with
    | Some pd =>
        if 3 <=? attempts pd
        then (Throw (deferredExhaustedError tok pd), c)
        else deferred
    | None => deferred
    end.

Fixpoint resolve (fuel : nat) (tok : Token) (requestId : option string)
    {struct fuel} : M Container Value :=
  match fuel with
  | 0 => λ c, (OutOfFuel, c)
  | S fuel' => λ c,
      if bool_decide (tok ∈ resolutionStack c)
      then (Throw (circularDependencyError tok c), c)
      else
        try_finally
          (try_catch
             (_ ← modify (set_resolutionStack (stack_add tok));
              resolveInternal fuel' tok requestId)
             (λ error c',
                if enableDeferredResolution c' && isInitializationError error
                then handleDeferredResolution tok requestId error c'
                else (Throw error, c')))
          (set_resolutionStack (stack_delete tok)) c
  end
with resolveInternal (fuel : nat) (tok : Token) (requestId : option string)
    {struct fuel} : M Container Value :=
  match fuel with
  | 0 => λ c, (OutOfFuel, c)
  | S fuel' => λ c,
      match providers c !! tok with
      | None =>
          match tok with
          | TClass cl =>
              let '(autoRegistered, c1) := tryAutoRegister cl c in
              if autoRegistered
              then resolveInternal fuel' tok requestId c1
              else (Throw (unresolvedProviderError tok c1), c1)
          | _ => (Throw (unresolvedProviderError tok c), c)
          end
      | Some provider =>
          match useValue provider with
          | Some v => (Return v, c)
          | None =>
          match useFactory provider with
          | Some f => callFactory f c
          | None =>
          match useClass provider with
          | None =>
              (Throw (mkError ("Provider for token " +:+ tokenToString tok
                        +:+ " does not specify a class or factory.")), c)
          | Some target =>
              match default singleton (scope provider) with
              | singleton =>
                  resolveSingleton (resolve fuel') tok target c
              | transient =>
                  resolveTransient (resolve fuel') target requestId c
              | request =>
                  match requestId with
                  | Some rid =>
                      resolveRequest (resolve fuel') tok target rid c
                  | None =>
                      resolveRequest (resolve fuel') tok target
                        (generateRequestId env (generatedIds c))
                        (set_generatedIds S c)
                  end
              | unsupported s =>
                  (Throw (mkError ("Unsupported scope: " +:+ s)), c)
              end
          end end end
      end
  end.

(** A timer callback of [handleDeferredResolution]. *)
Definition runTask (fuel : nat) (t : Task) : M Container unit :=
  λ c,
    match t with
    | RetryFirst tok requestId pending p =>
        match resolveInternal fuel tok requestId c with
        | (Return result, c') =>
            (Return tt,
             resolvePromise p result
               (set_pendingResolutions (JsMap.delete tok) c'))
        | (Throw retryError, c') =>
            if match pending with
               | Some pd => 2 <=? attempts pd
               | None => false
               end
            then (Return tt, settle p (PRejected retryError) c')
            else (Return tt, setTimeout (RetryFinal tok requestId p) 100 c')
        | (OutOfFuel, c') => (OutOfFuel, c')
        end
    | RetryFinal tok requestId p =>
        match resolveInternal fuel tok requestId c with
        | (Return finalResult, c') =>
            (Return tt,
             resolvePromise p finalResult
               (set_pendingResolutions (JsMap.delete tok) c'))
        | (Throw finalError, c') =>
            (Return tt, settle p (PRejected finalError) c')
        | (OutOfFuel, c') => (OutOfFuel, c')
        end
    end.

(** One turn of the event loop: the clock advances to the next timer and
    its callback runs. *)
Definition runNextTimer (fuel : nat) : M Container unit :=
  λ c,
    match pop_earliest (timers c) with
    | None => (Return tt, c)
    | Some (t, rest) =>
        runTask fuel (task t)
          (set_now (Nat.max (now c) (due t)) (set_timers (λ _, rest) c))
    end.
End Resolution.

(** ** The lifecycle registry ([life-cycle.ts]) *)

Module LifeCycle.

Inductive HookName := HInit | HDestroy | HRequestStart | HRequestEnd.

(** What a hook does when it is called: return, throw, or return a promise
    that is fulfilled or rejected.  Hooks are opaque to the registry: they
    do not call back into it. *)
Inductive Behaviour :=
| Returns
| ThrowsSync (msg : string)
| Resolves
| Rejects (msg : string).

(** [LifeCycleAware] / [RequestLifeCycleAware]: a hook is [Some] when
    [typeof instance.hook === "function"]; [inst_id] is the identity of
    the object, [inst_class] its [constructor.name]. *)
Record Instance := mkInstance {
  inst_id : nat;
  inst_class : string;
  onInit : option Behaviour;
  onDestroy : option Behaviour;
  onRequestStart : option Behaviour;
  onRequestEnd : option Behaviour;
}.

(** An entry of the [singleton] and [transient] arrays. *)
Record CleanupRef := mkRef {
  ref_instance : Instance;
  ref_onDestroy : Behaviour;
}.

(** The [onRequestEnd] field of a request entry: the bound hook, or the
    empty arrow function. *)
Inductive RequestEndCallback :=
| BoundRequestEnd (b : Behaviour)
| EmptyFunction.

Record RequestCleanupRef := mkRequestRef {
  rref_instance : Instance;
  rref_onDestroy : Behaviour;
  rref_onRequestEnd : RequestEndCallback;
}.

Record LifeCycleRegistry := mkRegistry {
  reg_singleton : list CleanupRef;
  reg_transient : list CleanupRef;
  reg_request : list (string * list RequestCleanupRef);
}.

(** What the registry does that can be seen from outside. *)
Inductive Event :=
| Called (h : HookName) (instance : nat)
| ConsoleLog (text : string)
| ConsoleError (text : string) (error : Error).

Record World := mkWorld {
  lifecycleRegistry : LifeCycleRegistry;
  trace : list Event;
}.

Definition emptyRegistry : LifeCycleRegistry :=
  {| reg_singleton := []; reg_transient := []; reg_request := [] |}.

Definition emit (e : Event) : M World unit :=
  modify (λ w, {| lifecycleRegistry := lifecycleRegistry w;
                  trace := trace w ++ [e] |}).

Definition update (f : LifeCycleRegistry -> LifeCycleRegistry)
    : M World unit :=
  modify (λ w, {| lifecycleRegistry := f (lifecycleRegistry w);
                  trace := trace w |}).

Definition set_singleton (f : list CleanupRef -> list CleanupRef)
    (r : LifeCycleRegistry) : LifeCycleRegistry :=
  {| reg_singleton := f (reg_singleton r); reg_transient := reg_transient r;
     reg_request := reg_request r |}.

Definition set_transient (f : list CleanupRef -> list CleanupRef)
    (r : LifeCycleRegistry) : LifeCycleRegistry :=
  {| reg_singleton := reg_singleton r; reg_transient := f (reg_transient r);
     reg_request := reg_request r |}.

Definition set_request
    (f : list (string * list RequestCleanupRef) ->
         list (string * list RequestCleanupRef))
    (r : LifeCycleRegistry) : LifeCycleRegistry :=
  {| reg_singleton := reg_singleton r; reg_transient := reg_transient r;
     reg_request := f (reg_request r) |}.

(** The value of a hook call. *)
Inductive HookResult :=
| Void
| PromiseFulfilled
| PromiseRejected (reason : Error).

(** [instance.hook()] *)
Definition invoke (h : HookName) (instance : Instance) (b : Behaviour)
    : M World HookResult :=
  _ ← emit (Called h (inst_id instance));
  match b with
  | Returns => ret Void
  | ThrowsSync msg => throw (mkError msg)
  | Resolves => ret PromiseFulfilled
  | Rejects msg => ret (PromiseRejected (mkError msg))
  end.

(** [await result] *)
Definition await (result : HookResult) : M World unit :=
  match result with
  | PromiseRejected reason => throw reason
  | _ => ret tt
  end.

(** [if (result instanceof Promise) result.catch(error => console.error(text, error))].
    In the code the handler of a rejected promise runs in a later
    microtask, after [applyLifecycle] has returned; the trace records its
    output at the place of the call.  The events of [applyLifecycle] are
    those of the code; the place of this one among them is not. *)
Definition catchAndLog (text : string) (result : HookResult)
    : M World unit :=
  match result with
  | PromiseRejected error => emit (ConsoleError text error)
  | _ => ret tt
  end.

(** [requestId] as the condition of an [if]. *)
Definition truthy (requestId : option string) : option string :=
  match requestId with
  | Some "" => None
  | Some r => Some r
  | None => None
  end.

Definition boundRequestEnd (instance : Instance) : RequestEndCallback :=
  match onRequestEnd instance with
  | Some b => BoundRequestEnd b
  | None => EmptyFunction
  end.

Definition pushRequestRef (requestId : string) (ref : RequestCleanupRef)
    (m : list (string * list RequestCleanupRef))
    : list (string * list RequestCleanupRef) :=
  let m1 := if JsMap.has requestId m then m else JsMap.set requestId [] m in
  JsMap.set requestId (default [] (JsMap.get requestId m1) ++ [ref]) m1.

(** Called with an [instance] whose [onDestroy] is the function [destroy]. *)
Definition registerForCleanup (instance : Instance) (destroy : Behaviour)
    (scope : LifeCycleOpt) (requestId : option string) : M World unit :=
  let cleanupRef := {| ref_instance := instance; ref_onDestroy := destroy |} in
  match scope with
  | singleton => update (set_singleton (λ l, l ++ [cleanupRef]))
  | transient => update (set_transient (λ l, l ++ [cleanupRef]))
  | request =>
      match truthy requestId with
      | Some rid =>
          update (set_request (pushRequestRef rid
            {| rref_instance := instance; rref_onDestroy := destroy;
               rref_onRequestEnd := boundRequestEnd instance |}))
      | None => ret tt
      end
  | unsupported _ => ret tt
  end.

(** [existingRefs.find(ref => ref.instance === instance)], then the
    assignment to the entry found. *)
Fixpoint updateFirst (instance : Instance) (refs : list RequestCleanupRef)
    : list RequestCleanupRef :=
  match refs with
  | [] => []
  | ref :: refs' =>
      if decide (inst_id (rref_instance ref) = inst_id instance)
      then {| rref_instance := rref_instance ref;
              rref_onDestroy := rref_onDestroy ref;
              rref_onRequestEnd := boundRequestEnd instance |} :: refs'
      else ref :: updateFirst instance refs'
  end.

Definition registerForRequestCleanup (instance : Instance)
    (requestId : string) : M World unit :=
  update (set_request (λ m,
    let m1 := if JsMap.has requestId m then m else JsMap.set requestId [] m in
    JsMap.set requestId
      (updateFirst instance (default [] (JsMap.get requestId m1))) m1)).

Definition applyLifecycle (instance : Instance)
    (scope : option LifeCycleOpt) (requestId : option string)
    : M World unit :=
  let scope := default singleton scope in
  _ ← match onInit instance with
      | Some b =>
          result ← invoke HInit instance b;
          catchAndLog ("Erro no onInit de " +:+ inst_class instance +:+ ":")
            result
      | None => ret tt
      end;
  _ ← match scope, truthy requestId, onRequestStart instance with
      | request, Some _, Some b =>
          result ← invoke HRequestStart instance b;
          catchAndLog
            ("Erro no onRequestStart de " +:+ inst_class instance +:+ ":")
            result
      | _, _, _ => ret tt
      end;
  _ ← match onDestroy instance with
      | Some destroy => registerForCleanup instance destroy scope requestId
      | None => ret tt
      end;
  match scope, truthy requestId, onRequestEnd instance with
  | request, Some rid, Some _ => registerForRequestCleanup instance rid
  | _, _, _ => ret tt
  end.

(** The body of the loop of [cleanupRequest]. *)
Definition cleanupRequestRef (requestId : string) (ref : RequestCleanupRef)
    : M World unit :=
  try_catch
    (_ ← match rref_onRequestEnd ref with
         | BoundRequestEnd b =>
             result ← invoke HRequestEnd (rref_instance ref) b;
             await result
         | EmptyFunction => ret tt
         end;
     result ← invoke HDestroy (rref_instance ref) (rref_onDestroy ref);
     await result)
    (λ error,
       emit (ConsoleError
               ("Erro no cleanup da requisição " +:+ requestId +:+ ":")
               error)).

Definition cleanupRequest (requestId : string) : M World unit :=
  λ w,
    match JsMap.get requestId (reg_request (lifecycleRegistry w)) with
    | None => (Return tt, w)
    | Some requestRefs =>
        (_ ← emit (ConsoleLog
               ("🧹 Limpando " +:+ pretty (length requestRefs)
                +:+ " instâncias da requisição " +:+ requestId));
         _ ← forM_ (cleanupRequestRef requestId) requestRefs;
         update (set_request (JsMap.delete requestId))) w
    end.

(** The body of the loops over the [transient] and [singleton] arrays. *)
Definition destroyRef (text : string) (ref : CleanupRef) : M World unit :=
  try_catch
    (result ← invoke HDestroy (ref_instance ref) (ref_onDestroy ref);
     await result)
    (λ error, emit (ConsoleError text error)).

Definition cleanupTransient : M World unit :=
  refs ← gets (λ w, reg_transient (lifecycleRegistry w));
  _ ← emit (ConsoleLog ("🧹 Limpando " +:+ pretty (length refs)
                         +:+ " instâncias transient"));
  _ ← forM_ (destroyRef "Erro no cleanup transient:") refs;
  update (set_transient (λ _, [])).

(** The three steps of [shutdown], in the order of its body. *)
Definition cleanupActiveRequests : M World unit :=
  activeRequests ← gets (λ w, JsMap.keys (reg_request (lifecycleRegistry w)));
  forM_ cleanupRequest activeRequests.

Definition cleanupSingletons : M World unit :=
  refs ← gets (λ w, reg_singleton (lifecycleRegistry w));
  _ ← emit (ConsoleLog ("🧹 Limpando " +:+ pretty (length refs)
                         +:+ " instâncias singleton"));
  _ ← forM_ (destroyRef "Erro no cleanup singleton:") refs;
  update (set_singleton (λ _, [])).

Definition shutdown : M World unit :=
  _ ← emit (ConsoleLog "[INFO] [LIFECYCLE] Iniciando shutdown da aplicação...");
  _ ← cleanupActiveRequests;
  _ ← cleanupTransient;
  _ ← cleanupSingletons;
  emit (ConsoleLog "✅ Shutdown completo").

Record LifecycleStats := mkLifecycleStats {
  stat_singletons : nat;
  stat_transients : nat;
  stat_activeRequests : nat;
  stat_requestInstances : nat;
}.

Definition getLifecycleStats (r : LifeCycleRegistry) : LifecycleStats :=
  {| stat_singletons := length (reg_singleton r);
     stat_transients := length (reg_transient r);
     stat_activeRequests := length (reg_request r);
     stat_requestInstances :=
       foldl (λ total entry, total + length entry.2) 0 (reg_request r) |}.

End LifeCycle.

(** ** Scenarios used as concrete inputs *)

Module Scenario.

(** The classes of the scenarios: two services that depend on each other,
    a logger, a greeter that takes the logger, a request-scoped context, a
    singleton that takes the context and a request-scoped handler that
    takes that singleton. *)
Definition classTable (c : nat) : ClassInfo :=
  match c with
  | 0 => mkClass "ServiceA" "class ServiceA {}" [1] None
  | 1 => mkClass "ServiceB" "class ServiceB {}" [0] None
  | 2 => mkClass "Logger" "class Logger {}" [] None
  | 3 => mkClass "Greeter" "class Greeter {}" [2] None
  | 4 => mkClass "RequestContext" "class RequestContext {}" [] None
  | 5 => mkClass "Auditor" "class Auditor {}" [4] None
  | 6 => mkClass "Handler" "class Handler {}" [5] None
| 10 => mkClass "ReferenceErrorHandler" "class ReferenceErrorHandler {}"
          [11] None
| 11 => mkClass "ReferenceErrorReporter" "class ReferenceErrorReporter {}"
          [10] None
  | _ => mkClass "" "" [] None
  end.

Definition requestIdOf (n : nat) : string := "req_" +:+ pretty n.

Definition env : Env :=
  {| classes := classTable;
     services := []; controllers := []; processors := [];
     configurations := []; application := None;
     getServiceScope := λ _, singleton;
     getControllerScope := λ _, None;
     getProcessorScope := λ _, singleton;
     generateRequestId := requestIdOf |}.

Definition ServiceA := TClass 0.
Definition ServiceB := TClass 1.
Definition Logger := TClass 2.
Definition RequestContext := TClass 4.
Definition Auditor := TClass 5.
Definition Handler := TClass 6.

(** [ServiceA] and [ServiceB] registered as singletons, with an unrelated
    value. *)
Definition circular : Container :=
  register (TString "API_KEY")
    {| useClass := None; useValue := Some (VData "secret-key");
       useFactory := None; scope := None |}
    (register ServiceB (classProvider 1 singleton)
       (register ServiceA (classProvider 0 singleton) newContainer)).

(** Two services that depend on each other and whose names contain
    [ReferenceError]. *)
Definition ReferenceErrorHandler := TClass 10.
Definition ReferenceErrorReporter := TClass 11.

Definition circularMatching : Container :=
  register ReferenceErrorReporter (classProvider 11 singleton)
    (register ReferenceErrorHandler (classProvider 10 singleton) newContainer).

(** A [Logger] factory registered with singleton scope. *)
Definition withFactory : Container :=
  register Logger
    {| useClass := None; useValue := None;
       useFactory := Some (FactoryNew 2); scope := Some singleton |}
    newContainer.

(** [Logger] as a singleton class, [RequestContext] request-scoped. *)
Definition withClasses : Container :=
  register RequestContext (classProvider 4 request)
    (register Logger (classProvider 2 singleton) newContainer).

(** A request-scoped [Handler] that takes the singleton [Auditor], which
    takes the request-scoped [RequestContext]. *)
Definition nested : Container :=
  register Handler (classProvider 6 request)
    (register Auditor (classProvider 5 singleton)
       (register RequestContext (classProvider 4 request) newContainer)).

(** A token whose name matches the initialization-order heuristic. *)
Definition lateToken : Token := TString "ReferenceError".

(** A singleton whose [onInit] throws, and a request-scoped instance with
    both request hooks. *)
Definition brokenCache : LifeCycle.Instance :=
  {| LifeCycle.inst_id := 7; LifeCycle.inst_class := "CacheService";
     LifeCycle.onInit := Some (LifeCycle.ThrowsSync "connection refused");
     LifeCycle.onDestroy := Some LifeCycle.Returns;
     LifeCycle.onRequestStart := None; LifeCycle.onRequestEnd := None |}.

Definition userContext : LifeCycle.Instance :=
  {| LifeCycle.inst_id := 8; LifeCycle.inst_class := "UserContext";
     LifeCycle.onInit := Some LifeCycle.Returns;
     LifeCycle.onDestroy := Some LifeCycle.Resolves;
     LifeCycle.onRequestStart := Some LifeCycle.Returns;
     LifeCycle.onRequestEnd := Some LifeCycle.Resolves |}.

(** A request-scoped instance with [onRequestEnd] and no [onDestroy]. *)
Definition auditTrail : LifeCycle.Instance :=
  {| LifeCycle.inst_id := 12; LifeCycle.inst_class := "AuditTrail";
     LifeCycle.onInit := None; LifeCycle.onDestroy := None;
     LifeCycle.onRequestStart := None;
     LifeCycle.onRequestEnd := Some LifeCycle.Returns |}.

(** A request-scoped instance with the four hooks, whose [onRequestEnd]
    throws. *)
Definition uploadSession : LifeCycle.Instance :=
  {| LifeCycle.inst_id := 13; LifeCycle.inst_class := "UploadSession";
     LifeCycle.onInit := Some LifeCycle.Returns;
     LifeCycle.onDestroy := Some LifeCycle.Returns;
     LifeCycle.onRequestStart := Some LifeCycle.Returns;
     LifeCycle.onRequestEnd := Some (LifeCycle.ThrowsSync "upload aborted") |}.

(** A registry that already holds, under the same request, an entry whose
    [onRequestEnd] fails. *)
Definition busyWorld : LifeCycle.World :=
  LifeCycle.mkWorld
    (LifeCycle.mkRegistry [] []
       [("req-1",
         [LifeCycle.mkRequestRef
            {| LifeCycle.inst_id := 9; LifeCycle.inst_class := "Session";
               LifeCycle.onInit := None;
               LifeCycle.onDestroy := Some LifeCycle.Returns;
               LifeCycle.onRequestStart := None;
               LifeCycle.onRequestEnd := Some (LifeCycle.Rejects "closed") |}
            LifeCycle.Returns
            (LifeCycle.BoundRequestEnd (LifeCycle.Rejects "closed"))])])
    [].
End Scenario.

(** ** Vocabulary of the statements *)

(** Every step of the computation [m] stays inside the relation [R]. *)
Definition preserves {St A} (R : St → St → Prop) (m : M St A) : Prop :=
  ∀ c r c', m c = (r, c') → R c c'.

(** The instance cached for a token under a request id. *)
Definition stored (c : Container) (rid : string) (tok : Token) : option Value :=
  requestInstances c !! rid ≫= (λ m, m !! tok).

(** The request cache of a container built by its own methods: every cached
    instance is an object of the heap, cached in one place only. *)
Record request_cache_ok (c : Container) : Prop := {
  stored_bounded : ∀ rid tok v,
    stored c rid tok = Some v → ∃ a, v = VObj a ∧ a < length (heap c);
  stored_inj : ∀ rid tok rid' tok' v,
    stored c rid tok = Some v → stored c rid' tok' = Some v →
    rid = rid' ∧ tok = tok';
}.

(** What a resolution may do to a container: add providers (by
    auto-registration), allocate objects, draw request ids, open request
    buckets; it keeps the request cache well formed. *)
Definition grows (c c' : Container) : Prop :=
  providers c ⊆ providers c'
  ∧ length (heap c) ≤ length (heap c')
  ∧ generatedIds c ≤ generatedIds c'
  ∧ dom (requestInstances c) ⊆ dom (requestInstances c')
  ∧ (request_cache_ok c → request_cache_ok c').

(** A class provider of the given scope: no [useValue] and no [useFactory]
    key, and the scope given or, for [singleton], left out. *)
Definition class_provider_of (p : Provider) (target : nat) (s : LifeCycleOpt)
    : Prop :=
  useValue p = None ∧ useFactory p = None ∧ useClass p = Some target
  ∧ default singleton (scope p) = s.

(** A token that no decorator registered: [tryAutoRegister] finds it in no
    category of the metadata registry. *)
Definition undecorated (env : Env) (tok : Token) : Prop :=
  ∀ cl, tok = TClass cl →
    (cl ∉ services env) ∧ (cl ∉ controllers env) ∧ (cl ∉ processors env)
    ∧ (cl ∉ configurations env) ∧ application env ≠ Some cl.

(** The error with which a hook fails, thrown or as the reason of the
    rejected promise, seen by the [await] of the cleanup loops. *)
Definition failure (b : LifeCycle.Behaviour) : option Error :=
  match b with
  | LifeCycle.ThrowsSync msg | LifeCycle.Rejects msg => Some (mkError msg)
  | LifeCycle.Returns | LifeCycle.Resolves => None
  end.

(** The events of one [await ref.onDestroy()] under [try]/[catch]. *)
Definition destroy_trace (text : string) (instance : LifeCycle.Instance)
    (b : LifeCycle.Behaviour) : list LifeCycle.Event :=
  LifeCycle.Called LifeCycle.HDestroy (LifeCycle.inst_id instance)
  :: match failure b with
     | Some e => [LifeCycle.ConsoleError text e]
     | None => []
     end.

(** The events of one turn of the loop of [cleanupRequest]. *)
Definition request_ref_trace (requestId : string)
    (ref : LifeCycle.RequestCleanupRef) : list LifeCycle.Event :=
  let text := "Erro no cleanup da requisição " +:+ requestId +:+ ":" in
  let instance := LifeCycle.rref_instance ref in
  match LifeCycle.rref_onRequestEnd ref with
  | LifeCycle.BoundRequestEnd b =>
      LifeCycle.Called LifeCycle.HRequestEnd (LifeCycle.inst_id instance)
      :: match failure b with
         | Some e => [LifeCycle.ConsoleError text e]
         | None => destroy_trace text instance (LifeCycle.rref_onDestroy ref)
         end
  | LifeCycle.EmptyFunction =>
      destroy_trace text instance (LifeCycle.rref_onDestroy ref)
  end.

(** The first hook that the loop of [cleanupRequest] calls on an entry. *)
Definition first_hook (ref : LifeCycle.RequestCleanupRef)
    : LifeCycle.HookName :=
  match LifeCycle.rref_onRequestEnd ref with
  | LifeCycle.BoundRequestEnd _ => LifeCycle.HRequestEnd
  | LifeCycle.EmptyFunction => LifeCycle.HDestroy
  end.

(** [e1] occurs in the trace, and [e2] occurs after it. *)
Definition before {A} (e1 e2 : A) (tr : list A) : Prop :=
  ∃ l1 l2 l3, tr = l1 ++ e1 :: l2 ++ e2 :: l3.

(** ** Route paths ([decorators/controller.ts], [decorators/http-methods.ts],
    [http/router.ts]) *)

Module Routes.

(** [path.startsWith("/")] *)
Definition startsWithSlash (path : string) : bool :=
  match path with
  | String a _ => Ascii.eqb a "/"%char
  | EmptyString => false
  end.

(** [path.replace(/\/+$/, "")]: the first match of one or more slashes
    followed by the end of the string is the whole run of slashes that ends
    the string, and it is removed. *)
Fixpoint removeTrailingSlashes (path : string) : string :=
  match path with
  | EmptyString => EmptyString
  | String a rest =>
      match removeTrailingSlashes rest with
      | EmptyString =>
          if Ascii.eqb a "/"%char then EmptyString else String a EmptyString
      | kept => String a kept
      end
  end.

(** [normalizePath], defined alike in [controller.ts] and
    [http-methods.ts]. *)
Definition normalizePath (path : string) : string :=
  let path := if startsWithSlash path then path else "/" +:+ path in
  removeTrailingSlashes path.

(** [HttpRouteMetadata] *)
Record HttpRouteMetadata := mkRoute {
  route_method : string;
  route_path : string;
  route_handlerName : string;
}.

(** The part of [metadataRegistry] and of the [Reflect] metadata that the
    route decorators write: the set of controllers in insertion order, the
    routes of each class, and the "controller:path" entry of each class. *)
Record Metadata := mkMetadata {
  md_controllers : list nat;
  md_httpRoutes : list (nat * list HttpRouteMetadata);
  md_controllerPath : list (nat * string);
}.




(** The decorator made by [createHttpMethodDecorator(method)], applied with
    [path] to the method [propertyKey] of the class [controller]. *)
Definition httpMethodDecorator (method : string) (path : option string)
    (controller : nat) (propertyKey : string) (md : Metadata) : Metadata :=
  let normalizedPath := normalizePath (default "/" path) in
  let routes := default [] (JsMap.get controller (md_httpRoutes md)) in
  {| md_controllers := md_controllers md;
     md_httpRoutes :=
       JsMap.set controller
         (routes ++ [mkRoute method normalizedPath propertyKey])
         (md_httpRoutes md);
     md_controllerPath := md_controllerPath md |}.

Definition Post := httpMethodDecorator "POST".
Definition Put := httpMethodDecorator "PUT".
Definition Delete := httpMethodDecorator "DELETE".
Definition Patch := httpMethodDecorator "PATCH".


(** [basePath + route.path], where [basePath] is [undefined] for a class
    without "controller:path" metadata. *)
Definition fullPath (basePath : option string) (route : HttpRouteMetadata)
    : string :=
  default "undefined" basePath +:+ route_path route.




End Routes.

(** The string is made of slashes only. *)
Fixpoint only_slashes (path : string) : bool :=
  match path with
  | EmptyString => true
  | String a rest => Ascii.eqb a "/"%char && only_slashes rest
  end.

(** A route path as the decorators store it: empty, or with a slash at the
    start; and with no slash at the end. *)
Definition well_formed_path (path : string) : Prop :=
  (path = "" ∨ Routes.startsWithSlash path = true)
  ∧ ∀ t, path ≠ t +:+ "/".


(** ** The scanner and the request handler ([scanner.ts], [http/router.ts]) *)

Module Boot.

(** The lifecycle hooks that the instances of a class have. *)
Record ClassHooks := mkHooks {
  hook_onInit : option LifeCycle.Behaviour;
  hook_onDestroy : option LifeCycle.Behaviour;
  hook_onRequestStart : option LifeCycle.Behaviour;
  hook_onRequestEnd : option LifeCycle.Behaviour;
}.

(** What a handler method of a controller does when a route calls it. *)
Inductive HandlerBehaviour :=
| HandlerReturns (result : Value)
| HandlerThrows (msg : string).

(** The application code and the engine under the framework: the hooks of
    each class, the handler methods of each class by name, and the message
    of the [TypeError] that the engine throws when a property is read from
    [undefined]. *)
Record Program := mkProgram {
  hooks : nat -> ClassHooks;
  handlers : nat -> string -> option HandlerBehaviour;
  typeErrorMessage : string -> string;
}.

(** [GlobalContainer] and the registry of [life-cycle.ts] with the
    console. *)
Record State := mkState {
  container : Container;
  world : LifeCycle.World;
}.

Definition inContainer {A} (m : M Container A) : M State A :=
  λ s, let '(r, c) := m (container s) in (r, mkState c (world s)).

Definition inWorld {A} (m : M LifeCycle.World A) : M State A :=
  λ s, let '(r, w) := m (world s) in (r, mkState (container s) w).


Definition consoleError (text : string) (error : Error) : M State unit :=
  inWorld (LifeCycle.emit (LifeCycle.ConsoleError text error)).

(** [try { m } finally { cleanup }] *)
Definition try_finally_with {St A} (m : M St A) (cleanup : M St unit)
    : M St A :=
  λ s, let '(r, s1) := m s in
       match cleanup s1 with
       | (Return _, s2) => (r, s2)
       | (Throw e, s2) => (Throw e, s2)
       | (OutOfFuel, s2) => (OutOfFuel, s2)
       end.

Section Runtime.
Variable env : Env.
Variable program : Program.

(** A value of the container as [applyLifecycle] sees it: an object has
    the hooks of its class, a promise or a primitive has none, and
    [undefined] has no property at all.  Every object that the container
    hands out is on the heap. *)
Definition instanceOf (c : Container) (v : Value)
    : option LifeCycle.Instance :=
  match v with
  | VObj a =>
      o ← heap c !! a;
      Some {| LifeCycle.inst_id := a;
              LifeCycle.inst_class := cls_name (classes env (obj_class o));
              LifeCycle.onInit := hook_onInit (hooks program (obj_class o));
              LifeCycle.onDestroy :=
                hook_onDestroy (hooks program (obj_class o));
              LifeCycle.onRequestStart :=
                hook_onRequestStart (hooks program (obj_class o));
              LifeCycle.onRequestEnd :=
                hook_onRequestEnd (hooks program (obj_class o)) |}
  | VPromise p =>
      Some {| LifeCycle.inst_id := p; LifeCycle.inst_class := "Promise";
              LifeCycle.onInit := None; LifeCycle.onDestroy := None;
              LifeCycle.onRequestStart := None;
              LifeCycle.onRequestEnd := None |}
  | VData _ =>
      Some {| LifeCycle.inst_id := 0; LifeCycle.inst_class := "String";
              LifeCycle.onInit := None; LifeCycle.onDestroy := None;
              LifeCycle.onRequestStart := None;
              LifeCycle.onRequestEnd := None |}
  | VUndefined => None
  end.

(** [applyLifecycle(instance, scope, requestId)] on a value of the
    container. *)
Definition applyLifecycle (instance : Value) (scope : option LifeCycleOpt)
    (requestId : option string) : M State unit :=
  λ s, match instanceOf (container s) instance with
       | Some i => inWorld (LifeCycle.applyLifecycle i scope requestId) s
       | None => (Throw (mkError (typeErrorMessage program "onInit")), s)
       end.





(** [resolveControllerWithLifecycle(controllerClass, requestId)] *)
Definition resolveControllerWithLifecycle (fuel : nat)
    (controllerClass : nat) (requestId : string) : M State Value :=
  match default singleton (getControllerScope env controllerClass) with
  | singleton =>
      inContainer (resolve env fuel (TClass controllerClass) None)
  | transient =>
      controllerInstance ←
        inContainer (resolve env fuel (TClass controllerClass)
                       (Some requestId));
      _ ← applyLifecycle controllerInstance (Some transient) None;
      ret controllerInstance
  | request =>
      controllerInstance ←
        inContainer (resolve env fuel (TClass controllerClass)
                       (Some requestId));
      _ ← applyLifecycle controllerInstance (Some request) (Some requestId);
      ret controllerInstance
  | unsupported scope =>
      throw (mkError ("Escopo não suportado para controlador: " +:+ scope))
  end.

(** [controllerInstance[handlerName].bind(controllerInstance)], then the
    call of the bound handler, awaited. *)
Definition callHandler (controllerInstance : Value) (handlerName : string)
    : M State Value :=
  λ s,
    let method :=
      match controllerInstance with
      | VObj a =>
          o ← heap (container s) !! a;
          handlers program (obj_class o) handlerName
      | _ => None
      end in
    match controllerInstance, method with
    | VUndefined, _ =>
        (Throw (mkError (typeErrorMessage program handlerName)), s)
    | _, None => (Throw (mkError (typeErrorMessage program "bind")), s)
    | _, Some (HandlerReturns result) => (Return result, s)
    | _, Some (HandlerThrows msg) => (Throw (mkError msg), s)
    end.

(** The response object of the adapter: which of [send], [json] and
    [status] it has. *)
Record Res := mkRes {
  res_send : bool;
  res_json : bool;
  res_status : bool;
}.

(** What the handler of a route does with the response. *)
Inductive Reply :=
| Sent (result : Value)                        (* [res.send(result)] *)
| SentJson (result : Value)                    (* [res.json(result)] *)
| Returned (result : Value)                    (* [return result] *)
| SentError (error : string) (requestId : string).
    (* [res.status(500).send({ error, requestId })] *)

(** The [finally] block of the handler. *)
Definition cleanupAfterRequest (requestId : string) : M State unit :=
  try_catch
    (_ ← inWorld (LifeCycle.cleanupRequest requestId);
     inContainer (modify (clearRequestInstances requestId)))
    (λ cleanupError,
       consoleError ("❌ Erro no cleanup da requisição " +:+ requestId +:+ ":")
         cleanupError).

(** The handler that [registerHttpRoutes] registers for a route of
    [controllerClass], called with a response [res]; [requestId] is the id
    that [generateRequestId()] returns for this request. *)
Definition routeHandler (fuel : nat) (controllerClass : nat)
    (method fullPath handlerName : string) (res : Res) (requestId : string)
    : M State Reply :=
  try_finally_with
    (try_catch
       (controllerInstance ←
          resolveControllerWithLifecycle fuel controllerClass requestId;
        result ← callHandler controllerInstance handlerName;
        if res_send res then ret (Sent result)
        else if res_json res then ret (SentJson result)
        else ret (Returned result))
       (λ err,
          _ ← consoleError ("❌ Erro na rota " +:+ method +:+ " " +:+ fullPath
                            +:+ ":") err;
          if res_status res
          then ret (SentError (message err) requestId)
          else throw err))
    (cleanupAfterRequest requestId).
End Runtime.
End Boot.

(** ** A decorated application, used as concrete input *)

Module Decorated.

(** A transient [Mailer] and a singleton [Clock] marked [@Service], a
    [Billing] controller that takes both, a [Worker] processor, a
    [Settings] configuration, the application [App] that takes the
    controller, a class [Plain] without decorator, a service [Ledger]
    whose constructor throws, and a controller [Reports] of transient
    scope. *)
Definition classTable (c : nat) : ClassInfo :=
  match c with
  | 0 => mkClass "Mailer" "class Mailer {}" [] None
  | 1 => mkClass "Clock" "class Clock {}" [] None
  | 2 => mkClass "Billing" "class Billing {}" [0; 1] None
  | 3 => mkClass "Worker" "class Worker {}" [] None
  | 4 => mkClass "Settings" "class Settings {}" [] None
  | 5 => mkClass "App" "class App {}" [2] None
  | 6 => mkClass "Plain" "class Plain {}" [] None
  | 7 => mkClass "Ledger" "class Ledger {}" [1] (Some "disk full")
  | 8 => mkClass "Reports" "class Reports {}" [1] None
  | _ => mkClass "" "" [] None
  end.

Definition env : Env :=
  {| classes := classTable;
     services := [0; 1; 7]; controllers := [2; 8]; processors := [3];
     configurations := [4]; application := Some 5;
     getServiceScope := λ cl, match cl with 0 => transient | _ => singleton end;
     getControllerScope :=
       λ cl, match cl with 8 => Some transient | _ => None end;
     getProcessorScope := λ _, singleton;
     generateRequestId := Scenario.requestIdOf |}.

Definition Mailer := TClass 0.
Definition Clock := TClass 1.
Definition Billing := TClass 2.
Definition Ledger := TClass 7.
Definition Reports := TClass 8.

(** The classes of the application. *)
Definition universe : list nat := [0; 1; 2; 3; 4; 5; 6; 7; 8].

(** [Clock] has an [onInit] that throws, [Reports] an [onDestroy] and a
    handler [list]. *)
Definition program : Boot.Program :=
  {| Boot.hooks := λ cl,
       match cl with
       | 1 => Boot.mkHooks (Some (LifeCycle.ThrowsSync "no time source"))
                (Some LifeCycle.Returns) None None
       | 8 => Boot.mkHooks None (Some LifeCycle.Resolves) None None
       | _ => Boot.mkHooks None None None None
       end;
     Boot.handlers := λ cl name,
       match cl with
       | 8 => if decide (name = "list")
              then Some (Boot.HandlerReturns (VData "[]")) else None
       | _ => None
       end;
     Boot.typeErrorMessage := λ property,
       "Cannot read properties of undefined (reading '" +:+ property +:+ "')" |}.

(** The application before the scanner runs. *)
Definition start : Boot.State :=
  Boot.mkState newContainer (LifeCycle.mkWorld LifeCycle.emptyRegistry []).
End Decorated.

(** ** A controller of request scope, used as concrete input *)

Module Checkout.

(** A [Cart] controller of request scope that has the four hooks and a
    handler [show]. *)
Definition classTable (c : nat) : ClassInfo :=
  match c with
  | 0 => mkClass "Cart" "class Cart {}" [] None
  | _ => mkClass "" "" [] None
  end.

Definition env : Env :=
  {| classes := classTable;
     services := []; controllers := [0]; processors := [];
     configurations := []; application := None;
     getServiceScope := λ _, singleton;
     getControllerScope :=
       λ cl, match cl with 0 => Some request | _ => None end;
     getProcessorScope := λ _, singleton;
     generateRequestId := Scenario.requestIdOf |}.

Definition Cart := TClass 0.

Definition program : Boot.Program :=
  {| Boot.hooks := λ cl,
       match cl with
       | 0 => Boot.mkHooks (Some LifeCycle.Returns) (Some LifeCycle.Resolves)
                (Some LifeCycle.Returns) (Some LifeCycle.Resolves)
       | _ => Boot.mkHooks None None None None
       end;
     Boot.handlers := λ cl name,
       match cl with
       | 0 => if decide (name = "show")
              then Some (Boot.HandlerReturns (VData "{}")) else None
       | _ => None
       end;
     Boot.typeErrorMessage := λ property,
       "Cannot read properties of undefined (reading '" +:+ property +:+ "')" |}.

(** The application before the first request. *)
Definition start : Boot.State :=
  Boot.mkState newContainer (LifeCycle.mkWorld LifeCycle.emptyRegistry []).
End Checkout.

(** ** Vocabulary of the further properties *)

(** The resolution stack is the same in both containers. *)
Definition same_stack (c c' : Container) : Prop :=
  resolutionStack c' = resolutionStack c.

(** What a resolution leaves alone: the deferred-resolution flag, the
    clock, the timers and promises that exist, the objects that exist. *)
Definition undisturbed (c c' : Container) : Prop :=
  enableDeferredResolution c' = enableDeferredResolution c
  ∧ now c' = now c
  ∧ timers c `prefix_of` timers c'
  ∧ promises c `prefix_of` promises c'
  ∧ heap c `prefix_of` heap c'.

(** Every provider and every cached instance of [c] is the same in [c']. *)
Definition keeps_caches (c c' : Container) : Prop :=
  providers c ⊆ providers c'
  ∧ singletons c ⊆ singletons c'
  ∧ ∀ rid tok v, stored c rid tok = Some v → stored c' rid tok = Some v.

(** The cache entries of one token are the same. *)
Definition same_cached (tok : Token) (c c' : Container) : Prop :=
  singletons c' !! tok = singletons c !! tok
  ∧ ∀ rid, stored c' rid tok = stored c rid tok.

(** The provider and the cache entries of one token are the same. *)
Definition same_entries (tok : Token) (c c' : Container) : Prop :=
  providers c' !! tok = providers c !! tok ∧ same_cached tok c c'.

(** While [tok] is being resolved, its entries stay as they are. *)
Definition guards (tok : Token) (c c' : Container) : Prop :=
  tok ∈ resolutionStack c →
  tok ∈ resolutionStack c' ∧ same_entries tok c c'.

(** With deferred resolution off, it stays off and no promise or timer is
    created. *)
Definition nothing_deferred (c c' : Container) : Prop :=
  enableDeferredResolution c = false →
  enableDeferredResolution c' = false
  ∧ promises c' = promises c ∧ timers c' = timers c
  ∧ JsMap.keys (pendingResolutions c') ⊆ JsMap.keys (pendingResolutions c).

(** ** Vocabulary of termination *)

(** The classes [U] contain the constructor dependencies of their
    members. *)
Definition closed_classes (env : Env) (U : list nat) : Prop :=
  Forall (λ cl, Forall (λ dep, dep ∈ U) (cls_paramtypes (classes env cl))) U.

(** Every class that a provider of [c] names is one of [U]. *)
Definition targets_in (U : list nat) (c : Container) : Prop :=
  map_Forall (λ _ p, ∀ target, useClass p = Some target → target ∈ U)
    (providers c).

(** The classes of [U] that are not being resolved. *)
Definition free_classes (U : list nat) (st : list Token) : list nat :=
  filter (λ d, TClass d ∉ st) U.

(** The call returned or threw, and its providers name classes of [U]. *)
Definition finished {A} (U : list nat) (x : Outcome A * Container) : Prop :=
  x.1 ≠ OutOfFuel ∧ targets_in U x.2.

(** ** Vocabulary of the lifecycle properties *)

(** The hooks called in a trace, in the order of the calls. *)
Definition calls (tr : list LifeCycle.Event)
    : list (LifeCycle.HookName * nat) :=
  omap (λ e, match e with
             | LifeCycle.Called h i => Some (h, i)
             | _ => None
             end) tr.

(** The events of the call of [onInit] in [applyLifecycle], when it does
    not throw. *)
Definition init_trace (instance : LifeCycle.Instance)
    : list LifeCycle.Event :=
  match LifeCycle.onInit instance with
  | Some b =>
      LifeCycle.Called LifeCycle.HInit (LifeCycle.inst_id instance)
      :: match b with
         | LifeCycle.Rejects msg =>
             [LifeCycle.ConsoleError
                ("Erro no onInit de " +:+ LifeCycle.inst_class instance
                 +:+ ":") (mkError msg)]
         | _ => []
         end
  | None => []
  end.

(** * Properties *)

(** ** Insertion-ordered maps *)

Section JsMapFacts.
Context {K V : Type} `{EqDecision K}.
Implicit Types (k : K) (v : V) (m : list (K * V)).

Lemma jsmap_get_delete_eq k m : JsMap.get k (JsMap.delete k m) = None.
Proof.
  induction m as [|[k' v'] m IH]; simpl; [done|].
  destruct (decide (k = k')) as [->|Hne]; [done|].
  simpl. by rewrite decide_False.
Qed.

Lemma jsmap_get_delete_ne k k' m :
  k ≠ k' → JsMap.get k' (JsMap.delete k m) = JsMap.get k' m.
Proof.
  intros Hne. induction m as [|[k0 v0] m IH]; simpl; [done|].
  destruct (decide (k = k0)) as [->|Hk].
  - rewrite IH. by rewrite decide_False by congruence.
  - simpl. by rewrite IH.
Qed.

Lemma jsmap_get_set_eq k v m : JsMap.get k (JsMap.set k v m) = Some v.
Proof.
  induction m as [|[k' v'] m IH]; simpl.
  - by rewrite decide_True.
  - destruct (decide (k = k')) as [->|Hne]; simpl.
    + by rewrite decide_True.
    + by rewrite decide_False.
Qed.


Lemma jsmap_keys_delete k m : k ∉ JsMap.keys (JsMap.delete k m).
Proof.
  induction m as [|[k' v'] m IH]; simpl.
  - apply not_elem_of_nil.
  - destruct (decide (k = k')) as [->|Hne]; [done|].
    unfold JsMap.keys in *. simpl. rewrite elem_of_cons.
    intros [Hk|Hk]; [by apply Hne | by apply IH].
Qed.

Lemma jsmap_get_None_keys k m : JsMap.get k m = None ↔ k ∉ JsMap.keys m.
Proof.
  unfold JsMap.keys.
  induction m as [|[k' v'] m IH]; simpl.
  - split; [intros _; apply not_elem_of_nil | done].
  - rewrite elem_of_cons. destruct (decide (k = k')) as [->|Hne].
    + split; [done | intros Hk; destruct Hk; by left].
    + rewrite IH. split.
      * intros Hk [Hk'|Hk']; [by apply Hne | by apply Hk].
      * intros Hk Hk'. apply Hk. by right.
Qed.

Lemma jsmap_delete_absent k m : JsMap.get k m = None → JsMap.delete k m = m.
Proof.
  induction m as [|[k' v'] m IH]; simpl; [done|].
  destruct (decide (k = k')) as [->|Hne]; [done|].
  intros Hm. by rewrite IH.
Qed.

Lemma jsmap_has_get k m : JsMap.has k m = true ↔ is_Some (JsMap.get k m).
Proof.
  unfold JsMap.has. destruct (JsMap.get k m); split; intros Hx;
    first [done | eauto | by destruct Hx].
Qed.
End JsMapFacts.

(** ** The container: registration and reset *)

Section ContainerFacts.
Variable env : Env.

Lemma register_pending tok provider c :
  pendingResolutions (register tok provider c)
  = JsMap.delete tok (pendingResolutions c).
Proof.
  unfold register. simpl.
  destruct (JsMap.has tok (pendingResolutions c)) eqn:Hhas; simpl; [done|].
  symmetry. apply jsmap_delete_absent.
  unfold JsMap.has in Hhas. by destruct (JsMap.get _ _).
Qed.

Lemma register_providers tok provider c :
  providers (register tok provider c) = <[tok := provider]> (providers c).
Proof. unfold register. simpl. by destruct (JsMap.has _ _). Qed.

(** C8. [register(token, provider)] inserts or overwrites the provider of
    [token] and leaves the other providers alone; a pending record of
    [token] is removed and the other records are kept in their order, so
    [getPendingResolutions()] is the former report without the record of
    [token]; no cache is touched. *)
Theorem register_rescues_pending tok provider c :
  let c' := register tok provider c in
  providers c' !! tok = Some provider
  ∧ (∀ t, t ≠ tok → providers c' !! t = providers c !! t)
  ∧ JsMap.has tok (pendingResolutions c') = false
  ∧ (tok ∉ JsMap.keys (pendingResolutions c'))
  ∧ (∀ t, t ≠ tok →
       JsMap.get t (pendingResolutions c') = JsMap.get t (pendingResolutions c))
  ∧ getPendingResolutions env c'
    = (reportPending env
         <$> JsMap.values (JsMap.delete tok (pendingResolutions c)))
  ∧ singletons c' = singletons c
  ∧ requestInstances c' = requestInstances c.
Proof.
  intros c'. subst c'.
  rewrite register_providers.
  unfold getPendingResolutions. rewrite register_pending.
  split_and!.
  - apply lookup_insert_eq.
  - intros t Ht. by apply lookup_insert_ne.
  - unfold JsMap.has. by rewrite jsmap_get_delete_eq.
  - apply jsmap_keys_delete.
  - intros t Ht. by apply jsmap_get_delete_ne.
  - done.
  - unfold register. by destruct (JsMap.has _ _).
  - unfold register. by destruct (JsMap.has _ _).
Qed.

(** C9. [reset()] empties the provider table, the singleton cache and the
    request-instance cache and changes nothing else: the pending table and
    the deferred-resolution flag are as before, so
    [getPendingResolutions()] reports what it reported before. *)
Theorem reset_keeps_pending c :
  providers (reset c) = ∅
  ∧ singletons (reset c) = ∅
  ∧ requestInstances (reset c) = ∅
  ∧ pendingResolutions (reset c) = pendingResolutions c
  ∧ enableDeferredResolution (reset c) = enableDeferredResolution c
  ∧ resolutionStack (reset c) = resolutionStack c
  ∧ getPendingResolutions env (reset c) = getPendingResolutions env c
  ∧ (∀ tok, JsMap.has tok (pendingResolutions c) = true →
       JsMap.has tok (pendingResolutions (reset c)) = true)
  ∧ stat_pendingResolutions (getStats (reset c))
    = stat_pendingResolutions (getStats c).
Proof. by split_and!. Qed.
End ContainerFacts.

(** ** Relations kept by every step of a computation *)

Section Preservation.
Context {St : Type} (R : St → St → Prop) `{!PreOrder R}.

Lemma preserves_ret {A} (a : A) : preserves R (ret a).
Proof. intros c r c' [= <- <-]. reflexivity. Qed.

Lemma preserves_throw {A} e : preserves R (@throw St A e).
Proof. intros c r c' [= <- <-]. reflexivity. Qed.

Lemma preserves_modify f : (∀ c, R c (f c)) → preserves R (modify f).
Proof. intros Hf c r c' [= <- <-]. apply Hf. Qed.

Lemma preserves_bind {A B} (m : M St A) (k : A → M St B) :
  preserves R m → (∀ a, preserves R (k a)) → preserves R (m ≫= k).
Proof.
  intros Hm Hk c r c'. unfold mbind, M_bind, bind.
  destruct (m c) as [[a|e|] c1] eqn:Em; intros Hr.
  - transitivity c1; [by eapply Hm | by eapply Hk].
  - injection Hr as <- <-. by eapply Hm.
  - injection Hr as <- <-. by eapply Hm.
Qed.

Lemma preserves_try_catch {A} (m : M St A) h :
  preserves R m → (∀ e, preserves R (h e)) → preserves R (try_catch m h).
Proof.
  intros Hm Hh c r c'. unfold try_catch.
  destruct (m c) as [[a|e|] c1] eqn:Em; intros Hr.
  - injection Hr as <- <-. by eapply Hm.
  - transitivity c1; [by eapply Hm | by eapply Hh].
  - injection Hr as <- <-. by eapply Hm.
Qed.

Lemma preserves_try_finally {A} (m : M St A) f :
  preserves R m → (∀ c, R c (f c)) → preserves R (try_finally m f).
Proof.
  intros Hm Hf c r c'. unfold try_finally.
  destruct (m c) as [r1 c1] eqn:Em. intros [= <- <-].
  transitivity c1; [by eapply Hm | apply Hf].
Qed.

Lemma preserves_mapM {A B} (f : A → M St B) xs :
  (∀ x, preserves R (f x)) → preserves R (mapM f xs).
Proof.
  intros Hf. induction xs as [|x xs IH]; simpl.
  - apply preserves_ret.
  - apply preserves_bind; [apply Hf|]. intros y.
    apply preserves_bind; [apply IH|]. intros ys. apply preserves_ret.
Qed.
End Preservation.

(** ** What a resolution can change *)

#[global] Instance grows_preorder : PreOrder grows.
Proof.
  split.
  - intros c. by split_and!.
  - intros c1 c2 c3 (Hp & Hh & Hg & Hd & Hok) (Hp' & Hh' & Hg' & Hd' & Hok').
    split_and!; [by etrans | lia | lia | by etrans | auto].
Qed.

Lemma request_cache_ok_same c c' :
  heap c = heap c' → requestInstances c = requestInstances c' →
  request_cache_ok c → request_cache_ok c'.
Proof.
  intros Hh Hr [Hb Hi]. split; unfold stored in *; rewrite <-?Hh, <-?Hr; auto.
Qed.

Lemma grows_same c c' :
  providers c = providers c' → heap c = heap c' →
  generatedIds c ≤ generatedIds c' →
  requestInstances c = requestInstances c' → grows c c'.
Proof.
  intros Hp Hh Hg Hr. split_and!; rewrite ?Hp, ?Hh, ?Hr; try done.
  by apply request_cache_ok_same.
Qed.

Lemma stored_insert c rid tok v r t :
  stored (set_requestInstances (λ ri,
            <[rid := <[tok := v]> (default ∅ (ri !! rid))]> ri) c) r t
  = if decide (r = rid ∧ t = tok) then Some v else stored c r t.
Proof.
  unfold stored. simpl.
  destruct (decide (r = rid)) as [->|Hr].
  - rewrite lookup_insert_eq. simpl.
    destruct (decide (t = tok)) as [->|Ht].
    + rewrite lookup_insert_eq. by rewrite decide_True.
    + rewrite lookup_insert_ne by done. rewrite decide_False by tauto.
      destruct (requestInstances c !! rid); simpl; [done | apply lookup_empty].
  - rewrite lookup_insert_ne by done. by rewrite decide_False by tauto.
Qed.

Lemma stored_new_bucket c rid r t :
  requestInstances c !! rid = None →
  stored (set_requestInstances (<[rid := ∅]>) c) r t = stored c r t.
Proof.
  intros Hnone. unfold stored. simpl.
  destruct (decide (r = rid)) as [->|Hr].
  - rewrite lookup_insert_eq, Hnone. simpl. apply lookup_empty.
  - by rewrite lookup_insert_ne.
Qed.

Section ResolutionGrows.
Variable env : Env.

Lemma construct_grows target args : preserves grows (construct env target args).
Proof.
  intros c r c'. unfold construct.
  destruct (cls_ctor_throws _); simpl; intros [= <- <-]; [reflexivity|].
  split_and!; simpl; try done.
  - rewrite length_app. lia.
  - intros [Hb Hi]. split; [|exact Hi].
    intros rid tok v Hs. destruct (Hb rid tok v Hs) as (a & -> & Ha).
    exists a. split; [done|]. simpl. rewrite length_app. lia.
Qed.

Lemma callFactory_grows f : preserves grows (callFactory env f).
Proof.
  destruct f; simpl;
    [apply construct_grows | apply preserves_ret, _ | apply preserves_throw, _].
Qed.

Lemma handleDeferredResolution_grows tok rid error :
  preserves grows (handleDeferredResolution env tok rid error).
Proof.
  intros c r c'. unfold handleDeferredResolution, newPromise.
  destruct (JsMap.get tok (pendingResolutions c)) as [pd|];
    [destruct (3 <=? attempts pd)|]; intros [= <- <-];
    first [reflexivity | by apply grows_same].
Qed.

Lemma register_absent_grows tok provider c :
  providers c !! tok = None → grows c (register tok provider c).
Proof.
  intros Hnone. split_and!.
  - rewrite register_providers. by apply insert_subseteq.
  - unfold register. by destruct (JsMap.has _ _).
  - unfold register. by destruct (JsMap.has _ _).
  - unfold register. by destruct (JsMap.has _ _).
  - apply request_cache_ok_same; unfold register; by destruct (JsMap.has _ _).
Qed.

Lemma tryAutoRegister_grows cl c ok c' :
  providers c !! TClass cl = None →
  tryAutoRegister env cl c = (ok, c') → grows c c'.
Proof.
  intros Hnone. unfold tryAutoRegister.
  repeat case_bool_decide; intros [= <- <-];
    first [by apply register_absent_grows | reflexivity].
Qed.

Section Open.
Variable rec : Token → option string → M Container Value.
Hypothesis rec_grows : ∀ tok rid, preserves grows (rec tok rid).

Lemma createInstance_grows target rid :
  preserves grows (createInstance env rec target rid).
Proof.
  unfold createInstance. apply preserves_bind; [apply _| |].
  - apply preserves_mapM; [apply _|]. intros dep. apply rec_grows.
  - intros args. apply construct_grows.
Qed.

Lemma resolveSingleton_grows tok target :
  preserves grows (resolveSingleton env rec tok target).
Proof.
  intros c r c'. unfold resolveSingleton.
  destruct (singletons c !! tok) as [v|].
  { intros [= <- <-]. reflexivity. }
  revert c r c'. apply preserves_bind; [apply _| |].
  - apply createInstance_grows.
  - intros inst. apply preserves_bind; [apply _| |].
    + apply preserves_modify. intros c. by apply grows_same.
    + intros _. apply preserves_ret, _.
Qed.

Lemma cache_instance_grows target args tok rid c v c' :
  construct env target args c = (Return v, c') →
  grows c (set_requestInstances (λ ri,
             <[rid := <[tok := v]> (default ∅ (ri !! rid))]> ri) c').
Proof.
  unfold construct. destruct (cls_ctor_throws _); [done|].
  intros [= <- <-]. split_and!; simpl.
  - done.
  - rewrite length_app. lia.
  - done.
  - rewrite dom_insert. set_solver.
  - intros [Hb Hi]. split.
    + intros r t v. rewrite stored_insert. case_decide.
      * intros [= <-]. eexists. split; [done|].
        simpl. rewrite length_app. simpl. lia.
      * intros Hs. destruct (Hb r t v Hs) as (a & -> & Ha).
        exists a. split; [done|]. simpl. rewrite length_app. lia.
    + intros r t r' t' v. rewrite !stored_insert.
      repeat case_decide.
      * intros _ _. destruct_and!. by subst.
      * intros [= <-] Hs. destruct (Hb _ _ _ Hs) as (a & [= <-] & Ha). lia.
      * intros Hs [= <-]. destruct (Hb _ _ _ Hs) as (a & [= <-] & Ha). lia.
      * apply Hi.
Qed.

Lemma resolveRequest_grows tok target rid :
  preserves grows (resolveRequest env rec tok target rid).
Proof.
  intros c r c'. unfold resolveRequest.
  set (c1 := match requestInstances c !! rid with
             | Some _ => c
             | None => set_requestInstances (<[rid := ∅]>) c
             end).
  assert (grows c c1) as Hc1.
  { subst c1. destruct (requestInstances c !! rid) eqn:Hb; [reflexivity|].
    split_and!; simpl; try done.
    - rewrite dom_insert. set_solver.
    - intros [Hbd Hi]. split.
      + intros r0 t v. rewrite stored_new_bucket by done. apply Hbd.
      + intros r0 t r' t' v. rewrite !stored_new_bucket by done. apply Hi. }
  destruct (requestInstances c1 !! rid ≫= _) as [v|].
  { intros [= <- <-]. done. }
  unfold createInstance, mbind, M_bind, bind.
  destruct (mapM (λ dep, rec (TClass dep) (Some rid))
              (cls_paramtypes (classes env target)) c1)
    as [[args|e|] c2] eqn:Hargs.
  - assert (grows c1 c2) as Hc2.
    { eapply preserves_mapM; [apply _| |exact Hargs].
      intros dep. apply rec_grows. }
    destruct (construct env target args c2) as [[v|e|] c3] eqn:Hnew.
    + unfold modify, ret. intros [= <- <-].
      etrans; [exact Hc1|]. etrans; [exact Hc2|].
      by eapply cache_instance_grows.
    + intros [= <- <-]. etrans; [exact Hc1|]. etrans; [exact Hc2|].
      by eapply construct_grows.
    + intros [= <- <-]. etrans; [exact Hc1|]. etrans; [exact Hc2|].
      by eapply construct_grows.
  - intros [= <- <-]. etrans; [exact Hc1|].
    eapply preserves_mapM; [apply _| |exact Hargs].
    intros dep. apply rec_grows.
  - intros [= <- <-]. etrans; [exact Hc1|].
    eapply preserves_mapM; [apply _| |exact Hargs].
    intros dep. apply rec_grows.
Qed.
End Open.

Lemma resolve_grows_both fuel :
  (∀ tok rid, preserves grows (resolve env fuel tok rid))
  ∧ (∀ tok rid, preserves grows (resolveInternal env fuel tok rid)).
Proof.
  induction fuel as [|fuel [IHr IHi]].
  { split; intros tok rid c r c' [= <- <-]; reflexivity. }
  split; intros tok rid c r c'; simpl.
  - case_bool_decide as Hstack.
    { intros [= <- <-]. reflexivity. }
    clear Hstack. revert c r c'. apply preserves_try_finally; [apply _| |].
    + apply preserves_try_catch; [apply _| |].
      * apply preserves_bind; [apply _| |].
        -- apply preserves_modify. intros c. by apply grows_same.
        -- intros _. apply IHi.
      * intros error c r c'.
        destruct (_ && _); [apply handleDeferredResolution_grows|].
        intros [= <- <-]. reflexivity.
    + intros c. by apply grows_same.
  - destruct (providers c !! tok) as [provider|] eqn:Hp.
    + destruct (useValue provider). { intros [= <- <-]. reflexivity. }
      destruct (useFactory provider). { apply callFactory_grows. }
      destruct (useClass provider) as [target|];
        [|intros [= <- <-]; reflexivity].
      destruct (default singleton (scope provider)).
      * by apply resolveSingleton_grows.
      * by apply createInstance_grows.
      * destruct rid as [rid|].
        -- by apply resolveRequest_grows.
        -- intros Hr. etrans; [|by eapply (resolveRequest_grows _ IHr)].
           apply grows_same; simpl; first [done | lia].
      * intros [= <- <-]. reflexivity.
    + destruct tok as [cl| |]; try (intros [= <- <-]; reflexivity).
      destruct (tryAutoRegister env cl c) as [[] c1] eqn:Hauto.
      * intros Hr. etrans; [by eapply tryAutoRegister_grows|]. by eapply IHi.
      * intros [= <- <-]. by eapply tryAutoRegister_grows.
Qed.

Lemma resolve_grows fuel tok rid c r c' :
  resolve env fuel tok rid c = (r, c') → grows c c'.
Proof. apply resolve_grows_both. Qed.

Lemma resolveInternal_grows fuel tok rid c r c' :
  resolveInternal env fuel tok rid c = (r, c') → grows c c'.
Proof. apply resolve_grows_both. Qed.
End ResolutionGrows.

(** ** The resolution stack *)

Lemma stack_delete_add t st : t ∉ st → stack_delete t (stack_add t st) = st.
Proof.
  intros Hnot. unfold stack_add, stack_delete. rewrite decide_False by done.
  rewrite filter_app. simpl. rewrite filter_cons_False by (intros ?; done).
  rewrite filter_nil, app_nil_r.
  induction st as [|x st IH]; [done|].
  rewrite not_elem_of_cons in Hnot. destruct Hnot as [Hx Hst].
  rewrite filter_cons_True by done. by rewrite IH.
Qed.

Lemma stack_delete_not_elem t st : t ∉ stack_delete t st.
Proof. unfold stack_delete. rewrite list_elem_of_filter. tauto. Qed.

Lemma set_resolutionStack_id f c :
  f (resolutionStack c) = resolutionStack c → set_resolutionStack f c = c.
Proof. destruct c. unfold set_resolutionStack. simpl. by intros ->. Qed.

Lemma leave_enter_stack tok c :
  tok ∉ resolutionStack c →
  set_resolutionStack (stack_delete tok)
    (set_resolutionStack (stack_add tok) c) = c.
Proof.
  intros Hnot. transitivity (set_resolutionStack (λ st, stack_delete tok (stack_add tok st)) c); [done|].
  apply set_resolutionStack_id. by apply stack_delete_add.
Qed.

Section ResolutionFacts.
Variable env : Env.

(** A call of [resolve] that returns an object returned it from
    [resolveInternal]: the deferred path returns a promise. *)
Lemma resolve_returns_object fuel tok rid c a c' :
  resolve env fuel tok rid c = (Return (VObj a), c') →
  ∃ fuel' c1,
    fuel = S fuel' ∧ (tok ∉ resolutionStack c)
    ∧ resolveInternal env fuel' tok rid
        (set_resolutionStack (stack_add tok) c) = (Return (VObj a), c1)
    ∧ c' = set_resolutionStack (stack_delete tok) c1.
Proof.
  destruct fuel as [|fuel]; simpl; [done|].
  case_bool_decide as Hstack; [done|].
  unfold try_finally, try_catch, mbind, M_bind, bind, modify.
  destruct (resolveInternal env fuel tok rid _) as [[v|e|] c1] eqn:Hi.
  - intros [= -> <-]. by exists fuel, c1.
  - destruct (_ && _).
    + unfold handleDeferredResolution, newPromise.
      destruct (JsMap.get tok (pendingResolutions c1)) as [pd|];
        [destruct (3 <=? attempts pd)|]; done.
    + done.
  - done.
Qed.

Lemma resolveInternal_singleton fuel tok rid c p target v c' :
  providers c !! tok = Some p → class_provider_of p target singleton →
  resolveInternal env fuel tok rid c = (Return v, c') →
  singletons c' !! tok = Some v.
Proof.
  intros Hp (Hv & Hf & Hc & Hs).
  destruct fuel as [|fuel]; simpl; [done|].
  rewrite Hp, Hv, Hf, Hc, Hs. unfold resolveSingleton.
  destruct (singletons c !! tok) as [v0|] eqn:Hcache.
  { by intros [= <- <-]. }
  unfold mbind, M_bind, bind, modify, ret.
  destruct (createInstance env _ target None c) as [[inst|e|] c1]; [|done..].
  intros [= <- <-]. simpl. apply lookup_insert_eq.
Qed.

Lemma resolve_cached_singleton fuel tok rid c p target v :
  providers c !! tok = Some p → class_provider_of p target singleton →
  singletons c !! tok = Some v → tok ∉ resolutionStack c →
  resolve env (S (S fuel)) tok rid c = (Return v, c).
Proof.
  intros Hp (Hv & Hf & Hc & Hs) Hcache Hstack.
  simpl. rewrite bool_decide_eq_false_2 by done.
  unfold try_finally, try_catch, mbind, M_bind, bind, modify. simpl.
  rewrite Hp, Hv, Hf, Hc, Hs. unfold resolveSingleton. simpl.
  rewrite Hcache. f_equal. by apply leave_enter_stack.
Qed.

Lemma resolve_value_provider fuel tok rid c p v :
  providers c !! tok = Some p → useValue p = Some v →
  tok ∉ resolutionStack c →
  resolve env (S (S fuel)) tok rid c = (Return v, c).
Proof.
  intros Hp Hv Hstack.
  simpl. rewrite bool_decide_eq_false_2 by done.
  unfold try_finally, try_catch, mbind, M_bind, bind, modify. simpl.
  rewrite Hp, Hv. f_equal. by apply leave_enter_stack.
Qed.
Lemma resolve_enter fuel tok rid c :
  tok ∉ resolutionStack c →
  resolve env (S fuel) tok rid c
  = try_finally
      (try_catch
         (_ ← modify (set_resolutionStack (stack_add tok));
          resolveInternal env fuel tok rid)
         (λ error c',
            if enableDeferredResolution c' && isInitializationError error
            then handleDeferredResolution env tok rid error c'
            else (Throw error, c')))
      (set_resolutionStack (stack_delete tok)) c.
Proof. intros Hstack. simpl. by rewrite bool_decide_eq_false_2. Qed.

Lemma resolveInternal_new_singleton fuel tok rid c p target :
  providers c !! tok = Some p → class_provider_of p target singleton →
  singletons c !! tok = None →
  resolveInternal env (S fuel) tok rid c
  = (instance ← createInstance env (resolve env fuel) target None;
     _ ← modify (set_singletons (<[tok := instance]>));
     ret instance) c.
Proof.
  intros Hp (Hv & Hf & Hc & Hs) Hcache. simpl.
  rewrite Hp, Hv, Hf, Hc, Hs. unfold resolveSingleton. by rewrite Hcache.
Qed.

Lemma mapM_one {St A B} (f : A → M St B) x c :
  mapM f [x] c
  = match f x c with
    | (Return y, c') => (Return [y], c')
    | (Throw e, c') => (Throw e, c')
    | (OutOfFuel, c') => (OutOfFuel, c')
    end.
Proof.
  simpl. unfold mbind, M_bind, bind, ret. by destruct (f x c) as [[y|e|] c'].
Qed.

End ResolutionFacts.

Section RequestFacts.
Variable env : Env.

Lemma stored_stack f c rid tok :
  stored (set_resolutionStack f c) rid tok = stored c rid tok.
Proof. done. Qed.

(** [resolveRequest] returns what is cached for the token under the id, or
    a new object, which it caches there. *)
Lemma resolveRequest_result rec tok target rid c v c' :
  (∀ t r, preserves grows (rec t r)) →
  resolveRequest env rec tok target rid c = (Return v, c') →
  stored c' rid tok = Some v
  ∧ (stored c rid tok = Some v
     ∨ ∃ a, v = VObj a ∧ length (heap c) ≤ a < length (heap c')).
Proof.
  intros Hrec. unfold resolveRequest.
  set (c1 := match requestInstances c !! rid with
             | Some _ => c
             | None => set_requestInstances (<[rid := ∅]>) c
             end).
  assert (∀ t, stored c1 rid t = stored c rid t) as Hsame.
  { intros t. subst c1. destruct (requestInstances c !! rid) eqn:Hb; [done|].
    by apply stored_new_bucket. }
  assert (heap c1 = heap c) as Hheap.
  { subst c1. by destruct (requestInstances c !! rid). }
  fold (stored c1 rid tok).
  destruct (stored c1 rid tok) as [v0|] eqn:Hcache.
  { intros [= <- <-]. rewrite <-Hsame. auto. }
  unfold createInstance, mbind, M_bind, bind.
  destruct (mapM (λ dep, rec (TClass dep) (Some rid))
              (cls_paramtypes (classes env target)) c1)
    as [[args|e|] c2] eqn:Hargs; [|done..].
  assert (grows c1 c2) as (_ & Hlen & _).
  { eapply preserves_mapM; [apply _| |exact Hargs]. intros dep. apply Hrec. }
  unfold construct, modify, ret.
  destruct (cls_ctor_throws (classes env target)); [done|].
  intros [= <- <-]. split.
  - rewrite stored_insert. by rewrite decide_True.
  - right. eexists. split; [done|]. simpl. rewrite length_app. simpl.
    rewrite Hheap in Hlen. lia.
Qed.

Lemma resolveInternal_request fuel tok rid c p target v c' :
  providers c !! tok = Some p → class_provider_of p target request →
  resolveInternal env fuel tok (Some rid) c = (Return v, c') →
  stored c' rid tok = Some v
  ∧ (stored c rid tok = Some v
     ∨ ∃ a, v = VObj a ∧ length (heap c) ≤ a < length (heap c')).
Proof.
  intros Hp (Hv & Hf & Hc & Hs).
  destruct fuel as [|fuel]; simpl; [done|].
  rewrite Hp, Hv, Hf, Hc, Hs.
  apply resolveRequest_result. intros t r c0 r0 c0'. apply resolve_grows.
Qed.

(** Without a request id, [resolveInternal] draws the next generated id and
    resolves under it. *)
Lemma resolveInternal_request_no_id fuel tok c p target v c' :
  providers c !! tok = Some p → class_provider_of p target request →
  resolveInternal env fuel tok None c = (Return v, c') →
  let rid := generateRequestId env (generatedIds c) in
  stored c' rid tok = Some v
  ∧ (stored c rid tok = Some v
     ∨ ∃ a, v = VObj a ∧ length (heap c) ≤ a < length (heap c')).
Proof.
  intros Hp (Hv & Hf & Hc & Hs).
  destruct fuel as [|fuel]; simpl; [done|].
  rewrite Hp, Hv, Hf, Hc, Hs. intros Hr.
  eapply resolveRequest_result in Hr; [exact Hr|].
  intros t r c0 r0 c0'. apply resolve_grows.
Qed.

Lemma resolve_cached_request fuel tok rid c p target v :
  providers c !! tok = Some p → class_provider_of p target request →
  stored c rid tok = Some v → tok ∉ resolutionStack c →
  resolve env (S (S fuel)) tok (Some rid) c = (Return v, c).
Proof.
  intros Hp (Hv & Hf & Hc & Hs) Hcache Hstack.
  simpl. rewrite bool_decide_eq_false_2 by done.
  unfold try_finally, try_catch, mbind, M_bind, bind, modify. simpl.
  rewrite Hp, Hv, Hf, Hc, Hs. unfold resolveRequest. simpl.
  unfold stored in Hcache.
  destruct (requestInstances c !! rid) as [m|] eqn:Hm; [|done].
  simpl in *. rewrite Hm. simpl. rewrite Hcache.
  f_equal. by apply leave_enter_stack.
Qed.

Lemma stored_None_fresh c rid tok :
  rid ∉ dom (requestInstances c) → stored c rid tok = None.
Proof.
  intros Hdom. unfold stored.
  apply not_elem_of_dom in Hdom. by rewrite Hdom.
Qed.
End RequestFacts.

(** ** Caching by scope *)

Lemma request_cache_ok_empty c : requestInstances c = ∅ → request_cache_ok c.
Proof.
  intros Hempty.
  assert (∀ rid tok, stored c rid tok = None) as Hnone.
  { intros rid tok. unfold stored. by rewrite Hempty, lookup_empty. }
  split.
  - intros rid tok v. by rewrite Hnone.
  - intros rid tok rid' tok' v. by rewrite Hnone.
Qed.

Section Caching.
Variable env : Env.

Lemma resolve_value_provider_inv fuel tok rid c p v0 v c1 :
  providers c !! tok = Some p → useValue p = Some v0 →
  resolve env fuel tok rid c = (Return v, c1) →
  v = v0 ∧ c1 = c ∧ tok ∉ resolutionStack c.
Proof.
  intros Hp Hv. destruct fuel as [|[|fuel]]; simpl; [done| |].
  - case_bool_decide; done.
  - case_bool_decide as Hstack; [done|].
    unfold try_finally, try_catch, mbind, M_bind, bind, modify. simpl.
    rewrite Hp, Hv. intros [= <- <-].
    split_and!; [done | by apply leave_enter_stack | done].
Qed.

(** C1 (amended). For a token registered as a value provider, or as a
    class provider of singleton scope, a resolve that returned an instance
    is followed by resolves that return the identical instance and leave
    the container as it is.  Scope-based caching is for class providers
    only: for a factory provider every resolution calls the factory,
    whatever the scope. *)
Theorem singleton_resolved_once tok c p :
  providers c !! tok = Some p →
  (∀ fuel rid v c1,
     is_Some (useValue p)
     ∨ (∃ target a, class_provider_of p target singleton ∧ v = VObj a) →
     resolve env fuel tok rid c = (Return v, c1) →
     ∀ fuel' rid', resolve env (S (S fuel')) tok rid' c1 = (Return v, c1))
  ∧ (∀ f, useValue p = None → useFactory p = Some f →
       ∀ fuel' rid',
         resolveInternal env (S fuel') tok rid' c = callFactory env f c).
Proof.
  intros Hp. split.
  - intros fuel rid v c1 [[v0 Hv]|(target & a & Hclass & ->)] Hfirst fuel' rid'.
    + destruct (resolve_value_provider_inv _ _ _ _ _ _ _ _ Hp Hv Hfirst)
        as (-> & -> & Hstack).
      by eapply resolve_value_provider.
    + destruct (resolve_returns_object _ _ _ _ _ _ _ Hfirst)
        as (fuel0 & c0 & -> & Hstack & Hinternal & ->).
      pose proof (resolveInternal_grows _ _ _ _ _ _ _ Hinternal)
        as (Hproviders & _).
      eapply resolve_cached_singleton; [|exact Hclass| |].
      * simpl. eapply lookup_weaken; [exact Hp | exact Hproviders].
      * simpl.
        eapply (resolveInternal_singleton env fuel0 tok rid _ p target);
          [|exact Hclass|exact Hinternal]; exact Hp.
      * simpl. apply stack_delete_not_elem.
  - intros f Hv Hf fuel' rid'. simpl. by rewrite Hp, Hv, Hf.
Qed.

(** A request-scoped class without constructor dependency, whose
    constructor does not throw, always resolves to an object. *)
Lemma resolve_request_leaf fuel tok rid c p target :
  request_cache_ok c →
  providers c !! tok = Some p → class_provider_of p target request →
  cls_paramtypes (classes env target) = [] →
  cls_ctor_throws (classes env target) = None →
  tok ∉ resolutionStack c →
  ∃ a c1, resolve env (2 + fuel) tok rid c = (Return (VObj a), c1).
Proof.
  intros Hok Hp (Hv & Hf & Hc & Hs) Hdeps Hctor Hstack.
  change (2 + fuel) with (S (S fuel)). rewrite resolve_enter by done.
  unfold try_finally, try_catch, mbind, M_bind, bind, modify.
  cbn [resolveInternal]. cbn [providers set_resolutionStack].
  rewrite Hp, Hv, Hf, Hc, Hs.
  set (c0 := set_resolutionStack (stack_add tok) c).
  assert (∀ r (c2 : Container),
            (∀ t, stored c2 r t = stored c r t) →
            ∃ a c3, resolveRequest env (resolve env fuel) tok target r c2
                    = (Return (VObj a), c3)) as Hrequest.
  { intros r c2 Hsame. unfold resolveRequest.
    set (c3 := match requestInstances c2 !! r with
               | Some _ => c2
               | None => set_requestInstances (<[r := ∅]>) c2
               end).
    assert (stored c3 r tok = stored c r tok) as Hsame3.
    { rewrite <-Hsame. subst c3.
      destruct (requestInstances c2 !! r) eqn:Hb; [done|].
      by apply stored_new_bucket. }
    fold (stored c3 r tok). rewrite Hsame3.
    destruct (stored c r tok) as [v|] eqn:Hcached.
    - destruct (stored_bounded _ Hok _ _ _ Hcached) as (a & -> & _). eauto.
    - unfold createInstance, construct, mbind, M_bind, bind, modify, ret.
      rewrite Hdeps, Hctor. simpl. eauto. }
  destruct rid as [r|].
  - destruct (Hrequest r c0) as (a & c3 & ->); [done|]. eauto.
  - destruct (Hrequest (generateRequestId env (generatedIds c0))
                (set_generatedIds S c0)) as (a & c3 & ->); [done|]. eauto.
Qed.

(** C4. For a token registered as a request-scoped class provider, in a
    container whose request cache is well formed: a resolve under a
    request id that returned an instance is followed by resolves under
    that id that return the identical instance; resolves under two
    different ids return distinct instances; and two resolves without an
    id, each drawing an id that is not in use, return distinct
    instances.  Such resolves do return: a class without constructor
    dependency whose constructor does not throw always resolves to an
    object. *)
Theorem request_scope_instances tok c p target :
  request_cache_ok c →
  providers c !! tok = Some p → class_provider_of p target request →
  (∀ fuel rid a c1,
     resolve env fuel tok (Some rid) c = (Return (VObj a), c1) →
     ∀ fuel', resolve env (S (S fuel')) tok (Some rid) c1
              = (Return (VObj a), c1))
  ∧ (∀ fuel1 fuel2 rid1 rid2 a1 a2 c1 c2,
       rid1 ≠ rid2 →
       resolve env fuel1 tok (Some rid1) c = (Return (VObj a1), c1) →
       resolve env fuel2 tok (Some rid2) c1 = (Return (VObj a2), c2) →
       a1 ≠ a2)
  ∧ (∀ fuel1 fuel2 a1 a2 c1 c2,
       generateRequestId env (generatedIds c) ∉ dom (requestInstances c) →
       resolve env fuel1 tok None c = (Return (VObj a1), c1) →
       generateRequestId env (generatedIds c1) ∉ dom (requestInstances c1) →
       resolve env fuel2 tok None c1 = (Return (VObj a2), c2) →
       generatedIds c < generatedIds c1 ∧ a1 ≠ a2)
  ∧ (cls_paramtypes (classes env target) = [] →
     cls_ctor_throws (classes env target) = None →
     tok ∉ resolutionStack c →
     ∀ fuel rid, ∃ a c1,
       resolve env (2 + fuel) tok rid c = (Return (VObj a), c1)).
Proof.
  intros Hok Hp Hclass.
  assert (∀ fuel rid a c1,
            resolve env fuel tok rid c = (Return (VObj a), c1) →
            providers c1 !! tok = Some p ∧ request_cache_ok c1
            ∧ tok ∉ resolutionStack c1) as Hafter.
  { intros fuel rid a c1 Hfirst.
    pose proof (resolve_grows _ _ _ _ _ _ _ Hfirst) as (Hprov & _ & _ & _ & Hok1).
    destruct (resolve_returns_object _ _ _ _ _ _ _ Hfirst)
      as (fuel0 & c0 & -> & _ & _ & ->).
    split_and!; [by eapply lookup_weaken | by auto |].
    simpl. apply stack_delete_not_elem. }
  split_and!.
  - intros fuel rid a c1 Hfirst fuel'.
    destruct (Hafter _ _ _ _ Hfirst) as (Hp1 & _ & Hstack1).
    destruct (resolve_returns_object _ _ _ _ _ _ _ Hfirst)
      as (fuel0 & c0 & -> & Hstack & Hinternal & ->).
    eapply resolve_cached_request; [exact Hp1 | exact Hclass | | exact Hstack1].
    rewrite stored_stack.
    eapply (resolveInternal_request env fuel0 tok rid _ p target);
      [|exact Hclass|exact Hinternal]; exact Hp.
  - intros fuel1 fuel2 rid1 rid2 a1 a2 c1 c2 Hne Hfirst Hsecond.
    destruct (Hafter _ _ _ _ Hfirst) as (Hp1 & Hok1 & _).
    assert (stored c1 rid1 tok = Some (VObj a1)) as Hstored1.
    { destruct (resolve_returns_object _ _ _ _ _ _ _ Hfirst)
        as (fuel0 & c0 & -> & Hstack & Hinternal & ->).
      rewrite stored_stack.
      eapply (resolveInternal_request env fuel0 tok rid1 _ p target);
        [|exact Hclass|exact Hinternal]; exact Hp. }
    destruct (resolve_returns_object _ _ _ _ _ _ _ Hsecond)
      as (fuel0 & c0 & -> & Hstack & Hinternal & ->).
    eapply (resolveInternal_request env fuel0 tok rid2 _ p target)
      in Hinternal as [_ [Hcached|(a & [= <-] & Hfresh & _)]];
      [| | exact Hp1 | exact Hclass].
    + rewrite stored_stack in Hcached. intros ->.
      destruct (stored_inj _ Hok1 _ _ _ _ _ Hstored1 Hcached) as [? _]. done.
    + destruct (stored_bounded _ Hok1 _ _ _ Hstored1) as (a & [= <-] & Ha).
      simpl in Hfresh. lia.
  - intros fuel1 fuel2 a1 a2 c1 c2 Hfresh1 Hfirst Hfresh2 Hsecond.
    destruct (Hafter _ _ _ _ Hfirst) as (Hp1 & _ & _).
    destruct (resolve_returns_object _ _ _ _ _ _ _ Hfirst)
      as (fuel0 & c0 & -> & Hstack & Hinternal & ->).
    destruct (resolve_returns_object _ _ _ _ _ _ _ Hsecond)
      as (fuel3 & c3 & -> & Hstack' & Hinternal' & ->).
    simpl in *.
    assert (generatedIds c < generatedIds c0) as Hdrawn.
    { destruct Hclass as (Hv & Hf & Hc & Hs).
      destruct fuel0 as [|fuel0]; simpl in Hinternal; [done|].
      rewrite Hp, Hv, Hf, Hc, Hs in Hinternal.
      eapply (resolveRequest_grows env) in Hinternal
        as (_ & _ & Hids & _); [simpl in Hids; lia|].
      intros t r c4 r4 c4'. apply resolve_grows. }
    split; [exact Hdrawn|].
    eapply (resolveInternal_request_no_id env fuel0 tok _ p target)
      in Hinternal as [_ [Hcached|(a & [= <-] & _ & Hlt)]];
      [| | exact Hp | exact Hclass].
    { simpl in Hcached. rewrite stored_stack in Hcached.
      by rewrite stored_None_fresh in Hcached. }
    eapply (resolveInternal_request_no_id env fuel3 tok _ p target)
      in Hinternal' as [_ [Hcached|(a & [= <-] & Hge & _)]];
      [| | exact Hp1 | exact Hclass].
    { simpl in Hcached. rewrite stored_stack in Hcached.
      by rewrite stored_None_fresh in Hcached. }
    simpl in Hge. lia.
  - intros Hdeps Hctor Hstack fuel rid. by eapply resolve_request_leaf.
Qed.
End Caching.

(** The request cache is well formed in every container reached from
    [newContainer] by the methods of the class and by the timer callbacks. *)
Lemma request_cache_ok_newContainer : request_cache_ok newContainer.
Proof. by apply request_cache_ok_empty. Qed.

Lemma request_cache_ok_resolve env fuel tok rid c r c' :
  resolve env fuel tok rid c = (r, c') →
  request_cache_ok c → request_cache_ok c'.
Proof.
  intros Hresolve. by destruct (resolve_grows _ _ _ _ _ _ _ Hresolve)
    as (_ & _ & _ & _ & Hkeep).
Qed.

Lemma request_cache_ok_register tok provider c :
  request_cache_ok c → request_cache_ok (register tok provider c).
Proof.
  apply request_cache_ok_same; unfold register; by destruct (JsMap.has _ _).
Qed.

Lemma request_cache_ok_reset c : request_cache_ok (reset c).
Proof. by apply request_cache_ok_empty. Qed.

Lemma request_cache_ok_setDeferredResolution enabled c :
  request_cache_ok c → request_cache_ok (setDeferredResolution enabled c).
Proof. by apply request_cache_ok_same. Qed.

Lemma request_cache_ok_clearRequestInstances rid c :
  request_cache_ok c → request_cache_ok (clearRequestInstances rid c).
Proof.
  intros [Hb Hi].
  assert (∀ r t v, stored (clearRequestInstances rid c) r t = Some v →
                   stored c r t = Some v) as Hsub.
  { intros r t v. unfold stored. simpl.
    destruct (decide (rid = r)) as [->|Hne].
    - by rewrite lookup_delete_eq.
    - by rewrite lookup_delete_ne. }
  split.
  - intros r t v Hs. apply (Hb r t v). by apply Hsub.
  - intros r t r' t' v Hs Hs'. apply (Hi r t r' t' v); by apply Hsub.
Qed.

Lemma request_cache_ok_runNextTimer env fuel c r c' :
  runNextTimer env fuel c = (r, c') →
  request_cache_ok c → request_cache_ok c'.
Proof.
  unfold runNextTimer. destruct (pop_earliest (timers c)) as [[t rest]|].
  - unfold runTask. intros Hrun Hok.
    assert (request_cache_ok
              (set_now (now c `max` due t) (set_timers (λ _, rest) c))) as Hok0
      by (by eapply request_cache_ok_same; [| |exact Hok]).
    destruct (task t) as [tok rid pending p|tok rid p];
      destruct (resolveInternal env fuel tok rid _) as [[v|e|] c1] eqn:Hint;
      pose proof (resolveInternal_grows _ _ _ _ _ _ _ Hint)
        as (_ & _ & _ & _ & Hkeep);
      specialize (Hkeep Hok0);
      try (destruct (match pending with Some _ => _ | None => _ end));
      injection Hrun as <- <-; try done;
      unfold resolvePromise, settle;
      repeat case_match;
      (eapply request_cache_ok_same; [| |exact Hkeep]); done.
  - by intros [= <- <-].
Qed.

(** ** Resolving a request-scoped token without a request id *)

Section NoRequestId.
Variable env : Env.

Lemma stored_clear_other c r rid tok :
  r ≠ rid → stored (clearRequestInstances r c) rid tok = stored c rid tok.
Proof. intros Hne. unfold stored. simpl. by rewrite lookup_delete_ne. Qed.

Lemma stored_clear_same c rid tok :
  stored (clearRequestInstances rid c) rid tok = None.
Proof. unfold stored. simpl. by rewrite lookup_delete_eq. Qed.

Lemma stored_clear_others c rs rid tok :
  rid ∉ rs →
  stored (foldr clearRequestInstances c rs) rid tok = stored c rid tok.
Proof.
  induction rs as [|r rs IH]; simpl; [done|].
  rewrite not_elem_of_cons. intros [Hr Hrs].
  rewrite stored_clear_other by done. by apply IH.
Qed.

(** C10 (amended). A resolve of a request-scoped class provider without a
    request id, drawing an id that is not in use, caches the new instance
    under that id: the cache gains the bucket of that id, so
    [activeRequests] grows by at least 1, and by exactly 1 when the class
    has no constructor dependency; [clearRequestInstances] with any other
    ids leaves the entry in place, and only the generated id removes it. *)
Theorem request_without_id_is_cached fuel tok c p target a c' :
  providers c !! tok = Some p → class_provider_of p target request →
  generateRequestId env (generatedIds c) ∉ dom (requestInstances c) →
  resolve env fuel tok None c = (Return (VObj a), c') →
  let rid := generateRequestId env (generatedIds c) in
  stored c' rid tok = Some (VObj a)
  ∧ stat_activeRequests (getStats c) + 1 ≤ stat_activeRequests (getStats c')
  ∧ (cls_paramtypes (classes env target) = [] →
       stat_activeRequests (getStats c')
       = stat_activeRequests (getStats c) + 1)
  ∧ (∀ rs, rid ∉ rs →
       stored (foldr clearRequestInstances c' rs) rid tok = Some (VObj a))
  ∧ stored (clearRequestInstances rid c') rid tok = None.
Proof.
  intros Hp Hclass Hfresh Hresolve rid.
  destruct (resolve_returns_object _ _ _ _ _ _ _ Hresolve)
    as (fuel0 & c0 & -> & Hstack & Hinternal & ->).
  assert (stored c0 rid tok = Some (VObj a)) as Hstored.
  { eapply (resolveInternal_request_no_id env fuel0 tok
              (set_resolutionStack (stack_add tok) c) p target);
      [exact Hp|exact Hclass|exact Hinternal]. }
  pose proof (resolveInternal_grows _ _ _ _ _ _ _ Hinternal)
    as (_ & _ & _ & Hdom & _).
  simpl in Hdom.
  split_and!.
  - by rewrite stored_stack.
  - simpl. rewrite <-!size_dom.
    assert (rid ∈ dom (requestInstances c0)) as Hin.
    { apply elem_of_dom. unfold stored in Hstored.
      destruct (requestInstances c0 !! rid); [by eexists | done]. }
    transitivity (size (dom (requestInstances c) ∪ {[rid]})).
    + rewrite size_union by (by apply disjoint_singleton_r).
      by rewrite size_singleton.
    + apply subseteq_size, union_subseteq. split; [exact Hdom|].
      by apply singleton_subseteq_l.
  - intros Hnodeps. simpl.
    destruct Hclass as (Hv & Hf & Hc & Hs).
    destruct fuel0 as [|fuel0]; simpl in Hinternal; [done|].
    rewrite Hp, Hv, Hf, Hc, Hs in Hinternal.
    unfold resolveRequest, createInstance in Hinternal. simpl in Hinternal.
    apply not_elem_of_dom in Hfresh. fold rid in Hfresh, Hinternal.
    rewrite Hfresh in Hinternal. simpl in Hinternal.
    rewrite lookup_insert_eq in Hinternal. simpl in Hinternal.
    rewrite lookup_empty, Hnodeps in Hinternal.
    unfold mbind, M_bind, bind, construct in Hinternal. simpl in Hinternal.
    destruct (cls_ctor_throws (classes env target)); [done|].
    injection Hinternal as <- <-. simpl.
    rewrite lookup_insert_eq. simpl. rewrite insert_insert_eq.
    rewrite map_size_insert_None by done. lia.
  - intros rs Hrs. rewrite stored_clear_others by done.
    by rewrite stored_stack.
  - apply stored_clear_same.
Qed.
End NoRequestId.

(** ** The caching properties on the scenarios *)

Section CachingScenarios.
Import Scenario.

Lemma singleton_resolved_once_witness :
  let c1 := (resolve env 3 Logger None withClasses).2 in
  resolve env 2 Logger (Some "r") c1 = (Return (VObj 0), c1).
Proof.
  intros c1.
  apply (proj1 (singleton_resolved_once env Logger withClasses
                  (classProvider 2 singleton) eq_refl) 3 None (VObj 0) c1).
  - right. exists 2, 0. by repeat split.
  - vm_compute. reflexivity.
Defined.

(** C1 as stated fails for a factory provider: [Logger] is registered with
    singleton scope, and two resolves in sequence return two objects. *)
Lemma factory_singleton_resolved_twice :
  let first := resolve env 3 Logger None withFactory in
  let second := resolve env 3 Logger None first.2 in
  (scope <$> providers withFactory !! Logger) = Some (Some singleton)
  ∧ first.1 = Return (VObj 0)
  ∧ second.1 = Return (VObj 1)
  ∧ first.1 ≠ second.1.
Proof. vm_compute. by split_and!. Qed.

Lemma request_scope_instances_witness :
  let first := resolve env 3 RequestContext (Some "r1") withClasses in
  let again := resolve env 2 RequestContext (Some "r1") first.2 in
  let other := resolve env 3 RequestContext (Some "r2") first.2 in
  let anonymous1 := resolve env 3 RequestContext None withClasses in
  let anonymous2 := resolve env 3 RequestContext None anonymous1.2 in
  (first.1 = Return (VObj 0) ∧ again = (Return (VObj 0), first.2))
  ∧ (other.1 = Return (VObj 1) ∧ 0 ≠ 1)
  ∧ (anonymous1.1 = Return (VObj 0) ∧ anonymous2.1 = Return (VObj 1)
     ∧ generatedIds withClasses < generatedIds anonymous1.2 ∧ 0 ≠ 1)
  ∧ (∃ a c1, resolve env (2 + 0) RequestContext None withClasses
             = (Return (VObj a), c1)).
Proof.
  intros first again other anonymous1 anonymous2.
  assert (request_cache_ok withClasses) as Hok
    by (by apply request_cache_ok_empty).
  assert (class_provider_of (classProvider 4 request) 4 request) as Hclass
    by (by repeat split).
  destruct (request_scope_instances env RequestContext withClasses
              (classProvider 4 request) 4 Hok eq_refl Hclass)
    as (Hsame & Hother & Hanonymous & Hreturns).
  split_and!.
  - vm_compute. reflexivity.
  - apply (Hsame 3). vm_compute. reflexivity.
  - vm_compute. reflexivity.
  - apply (Hother 3 3 "r1" "r2" 0 1 first.2 other.2).
    + done.
    + vm_compute. reflexivity.
    + vm_compute. reflexivity.
  - vm_compute. reflexivity.
  - vm_compute. reflexivity.
  - apply (Hanonymous 3 3 0 1 anonymous1.2 anonymous2.2).
    + apply not_elem_of_dom. reflexivity.
    + vm_compute. reflexivity.
    + apply not_elem_of_dom. vm_compute. reflexivity.
    + vm_compute. reflexivity.
  - apply (Hanonymous 3 3 0 1 anonymous1.2 anonymous2.2).
    + apply not_elem_of_dom. reflexivity.
    + vm_compute. reflexivity.
    + apply not_elem_of_dom. vm_compute. reflexivity.
    + vm_compute. reflexivity.
  - apply Hreturns; [reflexivity | reflexivity | apply not_elem_of_nil].
Defined.

Lemma request_without_id_is_cached_witness :
  let c' := (resolve env 3 RequestContext None withClasses).2 in
  stored c' "req_0" RequestContext = Some (VObj 0)
  ∧ stat_activeRequests (getStats withClasses) + 1
    ≤ stat_activeRequests (getStats c')
  ∧ (cls_paramtypes (classes env 4) = [] →
       stat_activeRequests (getStats c')
       = stat_activeRequests (getStats withClasses) + 1)
  ∧ (∀ rs, "req_0" ∉ rs →
       stored (foldr clearRequestInstances c' rs) "req_0" RequestContext
       = Some (VObj 0))
  ∧ stored (clearRequestInstances "req_0" c') "req_0" RequestContext = None.
Proof.
  intros c'.
  apply (request_without_id_is_cached env 3 RequestContext withClasses
           (classProvider 4 request) 4 0 c').
  - reflexivity.
  - by repeat split.
  - apply not_elem_of_dom. reflexivity.
  - vm_compute. reflexivity.
Defined.

(** C10 as stated fails when a dependency draws an id of its own: the
    request-scoped [Handler] takes the singleton [Auditor], whose
    constructor takes the request-scoped [RequestContext]; one resolve of
    [Handler] without an id opens two buckets. *)
Lemma request_without_id_opens_two_buckets :
  let result := resolve env 6 Handler None nested in
  result.1 = Return (VObj 2)
  ∧ stat_activeRequests (getStats nested) = 0
  ∧ stat_activeRequests (getStats result.2) = 2
  ∧ stat_activeRequests (getStats result.2)
    ≠ stat_activeRequests (getStats nested) + 1.
Proof. vm_compute. by split_and!. Qed.
End CachingScenarios.

(** ** Circular dependencies *)

Section CircularDependency.
Variable env : Env.

Lemma circular_dependency_throws a b na nb pa pb c fuel rid :
  a ≠ b →
  cls_name (classes env a) = na → cls_paramtypes (classes env a) = [b] →
  cls_name (classes env b) = nb → cls_paramtypes (classes env b) = [a] →
  providers c !! TClass a = Some pa → class_provider_of pa a singleton →
  providers c !! TClass b = Some pb → class_provider_of pb b singleton →
  singletons c !! TClass a = None → singletons c !! TClass b = None →
  resolutionStack c = [] →
  let error :=
    mkError ("Dependência circular detectada: " +:+ join " -> " [na; nb]
             +:+ " -> " +:+ na) in
  isInitializationError error = false →
  resolve env (5 + fuel) (TClass a) rid c = (Throw error, c).
Proof.
  intros Hab Hna Hpa Hnb Hpb Hproa Hca Hprob Hcb Hsa Hsb Hstack error Hplain.
  assert (TClass a ∉ resolutionStack c) as Hout
    by (rewrite Hstack; apply not_elem_of_nil).
  assert (resolutionStack (set_resolutionStack (stack_add (TClass a)) c)
          = [TClass a]) as Hin1.
  { cbn [resolutionStack set_resolutionStack]. rewrite Hstack.
    unfold stack_add. by rewrite decide_False by apply not_elem_of_nil. }
  assert (TClass b ∉ resolutionStack
            (set_resolutionStack (stack_add (TClass a)) c)) as Hout2.
  { rewrite Hin1, not_elem_of_cons.
    split; [congruence | apply not_elem_of_nil]. }
  assert (resolutionStack
            (set_resolutionStack (stack_add (TClass b))
               (set_resolutionStack (stack_add (TClass a)) c))
          = [TClass a; TClass b]) as Hin2.
  { change (stack_add (TClass b)
              (resolutionStack (set_resolutionStack (stack_add (TClass a)) c))
            = [TClass a; TClass b]).
    unfold stack_add at 1. rewrite decide_False by done. by rewrite Hin1. }
  change (5 + fuel) with (S (S (S (S (S fuel))))).
  rewrite resolve_enter by done.
  unfold try_finally, try_catch, mbind, M_bind, bind, modify.
  rewrite (resolveInternal_new_singleton _ _ _ _ _ pa a) by done.
  unfold createInstance, mbind, M_bind, bind. rewrite Hpa, mapM_one.
  rewrite resolve_enter by done.
  unfold try_finally, try_catch, mbind, M_bind, bind, modify.
  rewrite (resolveInternal_new_singleton _ _ _ _ _ pb b) by done.
  unfold createInstance, mbind, M_bind, bind. rewrite Hpb, mapM_one.
  cbn [resolve].
  rewrite bool_decide_eq_true_2 by (rewrite Hin2; apply elem_of_cons; by left).
  assert (circularDependencyError env (TClass a)
            (set_resolutionStack (stack_add (TClass b))
               (set_resolutionStack (stack_add (TClass a)) c))
          = error) as ->.
  { subst error. unfold circularDependencyError. rewrite Hin2.
    cbn [fmap list_fmap getTokenName]. by rewrite Hna, Hnb. }
  rewrite Hplain, andb_false_r. cbv beta iota.
  rewrite Hplain, andb_false_r.
  f_equal. rewrite leave_enter_stack by done. by apply leave_enter_stack.
Qed.

(** C2. When class [a] takes [b] and [b] takes [a], both registered as
    singleton classes and neither built yet, a top-level [resolve] of [a]
    throws the circular-dependency error whose message lists the chain
    [a -> b -> a] by name; for [ServiceA] and [ServiceB] it reads
    [ServiceA -> ServiceB -> ServiceA].  As long as that message does not
    match the initialization-order heuristic, which it does not for these
    names, deferred resolution, enabled or not, leaves the error alone: the
    container is exactly as before the call, with an empty resolution
    stack, no pending record, no timer and no promise added; a following
    resolve of a value provider returns its value. *)
Theorem circular_dependency_detected a b na nb pa pb c fuel rid :
  a ≠ b →
  cls_name (classes env a) = na → cls_paramtypes (classes env a) = [b] →
  cls_name (classes env b) = nb → cls_paramtypes (classes env b) = [a] →
  providers c !! TClass a = Some pa → class_provider_of pa a singleton →
  providers c !! TClass b = Some pb → class_provider_of pb b singleton →
  singletons c !! TClass a = None → singletons c !! TClass b = None →
  resolutionStack c = [] →
  let error :=
    mkError ("Dependência circular detectada: " +:+ join " -> " [na; nb]
             +:+ " -> " +:+ na) in
  isInitializationError error = false →
  let result := resolve env (5 + fuel) (TClass a) rid c in
  result.1 = Throw error
  ∧ resolutionStack result.2 = []
  ∧ pendingResolutions result.2 = pendingResolutions c
  ∧ timers result.2 = timers c
  ∧ promises result.2 = promises c
  ∧ result.2 = c
  ∧ (∀ tok p v fuel' rid',
       providers c !! tok = Some p → useValue p = Some v →
       resolve env (2 + fuel') tok rid' result.2 = (Return v, result.2)).
Proof.
  intros Hab Hna Hpa Hnb Hpb Hproa Hca Hprob Hcb Hsa Hsb Hstack error Hplain
    result.
  subst result.
  rewrite (circular_dependency_throws a b na nb pa pb c fuel rid) by done.
  split_and!; try done.
  intros tok p v fuel' rid' Hp Hv.
  apply (resolve_value_provider env fuel' tok rid' c p v); [done..|].
  rewrite Hstack. apply not_elem_of_nil.
Qed.
End CircularDependency.

Lemma circular_dependency_detected_witness :
  let result :=
    resolve Scenario.env (5 + 0) Scenario.ServiceA None Scenario.circular in
  result.1 = Throw (mkError
    "Dependência circular detectada: ServiceA -> ServiceB -> ServiceA")
  ∧ resolutionStack result.2 = []
  ∧ pendingResolutions result.2 = pendingResolutions Scenario.circular
  ∧ timers result.2 = timers Scenario.circular
  ∧ promises result.2 = promises Scenario.circular
  ∧ result.2 = Scenario.circular
  ∧ (∀ tok p v fuel' rid',
       providers Scenario.circular !! tok = Some p → useValue p = Some v →
       resolve Scenario.env (2 + fuel') tok rid' result.2
       = (Return v, result.2)).
Proof.
  apply (circular_dependency_detected Scenario.env 0 1 "ServiceA" "ServiceB"
           (classProvider 0 singleton) (classProvider 1 singleton)
           Scenario.circular 0 None); try reflexivity.
  - done.
  - by repeat split.
  - by repeat split.
Defined.

(** The heuristic reads the message of any error that reaches a [catch]:
    when the class names of a cycle match it, the frame of the dependency
    defers the circular error, and the outer [resolve] returns an object
    built on the pending promise. *)
Lemma circular_error_with_matching_names_is_deferred :
  let result :=
    resolve Scenario.env 6 Scenario.ReferenceErrorHandler None
      Scenario.circularMatching in
  result.1 = Return (VObj 0)
  ∧ heap result.2 = [mkObj 10 [VPromise 0]]
  ∧ JsMap.keys (pendingResolutions result.2) = [Scenario.ReferenceErrorReporter].
Proof. vm_compute. by split_and!. Qed.

(** ** Deferred resolution *)

Section DeferredResolution.
Variable env : Env.

Lemma tryAutoRegister_undecorated cl c :
  undecorated env (TClass cl) → tryAutoRegister env cl c = (false, c).
Proof.
  intros Hun. destruct (Hun cl eq_refl) as (Hs & Hc & Hp & Hg & Ha).
  unfold tryAutoRegister. by rewrite !bool_decide_eq_false_2.
Qed.

Lemma resolveInternal_unresolved fuel tok rid c :
  providers c !! tok = None → undecorated env tok →
  resolveInternal env (S fuel) tok rid c
  = (Throw (unresolvedProviderError env tok c), c).
Proof.
  intros Hp Hun. simpl. rewrite Hp. destruct tok as [cl| |]; try done.
  by rewrite tryAutoRegister_undecorated.
Qed.

Lemma unresolvedProviderError_providers tok c c' :
  providers c = providers c' →
  unresolvedProviderError env tok c = unresolvedProviderError env tok c'.
Proof.
  intros Hp. unfold unresolvedProviderError, generateDependencyErrorDetails.
  by rewrite Hp.
Qed.

(** An unresolved token at top level: the error is thrown, or handed to the
    deferred path, from the container as it was at the call. *)
Lemma resolve_unresolved fuel tok rid c :
  providers c !! tok = None → undecorated env tok →
  tok ∉ resolutionStack c →
  resolve env (S (S fuel)) tok rid c
  = if enableDeferredResolution c
       && isInitializationError (unresolvedProviderError env tok c)
    then handleDeferredResolution env tok rid
           (unresolvedProviderError env tok c) c
    else (Throw (unresolvedProviderError env tok c), c).
Proof.
  intros Hp Hun Hstack. rewrite resolve_enter by done.
  unfold try_finally, try_catch, mbind, M_bind, bind, modify.
  rewrite resolveInternal_unresolved by done.
  change (unresolvedProviderError env tok
            (set_resolutionStack (stack_add tok) c))
    with (unresolvedProviderError env tok c).
  cbn [enableDeferredResolution set_resolutionStack].
  destruct (enableDeferredResolution c && _).
  - unfold handleDeferredResolution, newPromise, setTimeout.
    cbn [pendingResolutions set_resolutionStack].
    destruct (JsMap.get tok (pendingResolutions c)) as [pd|];
      [destruct (3 <=? attempts pd)|].
    + f_equal. by apply leave_enter_stack.
    + f_equal. destruct c. unfold set_resolutionStack, set_timers,
        set_promises, set_pendingResolutions. simpl. f_equal.
      by apply stack_delete_add.
    + f_equal. destruct c. unfold set_resolutionStack, set_timers,
        set_promises, set_pendingResolutions. simpl. f_equal.
      by apply stack_delete_add.
  - f_equal. by apply leave_enter_stack.
Qed.

Lemma runTask_first_fails fuel tok rid pending p c :
  providers c !! tok = None → undecorated env tok →
  runTask env (S fuel) (RetryFirst tok rid pending p) c
  = (Return tt,
     if match pending with
        | Some pd => 2 <=? attempts pd
        | None => false
        end
     then settle p (PRejected (unresolvedProviderError env tok c)) c
     else setTimeout (RetryFinal tok rid p) 100 c).
Proof.
  intros Hp Hun. unfold runTask. rewrite resolveInternal_unresolved by done.
  by destruct pending as [pd|]; [destruct (2 <=? attempts pd)|].
Qed.

Lemma runTask_final_fails fuel tok rid p c :
  providers c !! tok = None → undecorated env tok →
  runTask env (S fuel) (RetryFinal tok rid p) c
  = (Return tt, settle p (PRejected (unresolvedProviderError env tok c)) c).
Proof.
  intros Hp Hun. unfold runTask. by rewrite resolveInternal_unresolved.
Qed.

(** C3 (amended). A token without provider, which no decorator
    registered and whose failure message matches the initialization-order
    heuristic, is resolved with deferred resolution enabled: a first
    [resolve] records [attempts = 1] and returns a pending promise; a retry
    runs 50 ms later and, as it fails, a second one 100 ms after that; when
    that fails too the promise is rejected with the unresolved-provider error
    of the retry, the record staying at [attempts = 1].  A later failing
    [resolve] adds 1 to the recorded attempts; once 3 are recorded, [resolve]
    throws the fatal error that carries the recorded cause.  With deferred
    resolution disabled, [resolve] throws the unresolved-provider error at
    once and the container is unchanged. *)
Theorem deferred_resolution_retries fuel tok rid c :
  providers c !! tok = None → undecorated env tok →
  isInitializationError (unresolvedProviderError env tok c) = true →
  tok ∉ resolutionStack c →
  let e := unresolvedProviderError env tok c in
  let p := length (promises c) in
  let record n :=
    {| token := tok; attempts := n; lastError := e;
       dependencies := extractDependencies env tok |} in
  (enableDeferredResolution c = true →
   JsMap.get tok (pendingResolutions c) = None → timers c = [] →
   let r1 := resolve env (2 + fuel) tok rid c in
   let r2 := runNextTimer env (1 + fuel) r1.2 in
   let r3 := runNextTimer env (1 + fuel) r2.2 in
   (r1.1 = Return (VPromise p)
    ∧ JsMap.get tok (pendingResolutions r1.2) = Some (record 1)
    ∧ timers r1.2 = [mkTimer (now c + 50) (RetryFirst tok rid None p)]
    ∧ promises r1.2 !! p = Some PPending)
   ∧ (r2.1 = Return tt
      ∧ timers r2.2 = [mkTimer (now c + 50 + 100) (RetryFinal tok rid p)]
      ∧ promises r2.2 !! p = Some PPending)
   ∧ (r3.1 = Return tt
      ∧ timers r3.2 = []
      ∧ promises r3.2 !! p = Some (PRejected e)
      ∧ JsMap.get tok (pendingResolutions r3.2) = Some (record 1)))
  ∧ (enableDeferredResolution c = true →
     ∀ pd, JsMap.get tok (pendingResolutions c) = Some pd →
       let r := resolve env (2 + fuel) tok rid c in
       if 3 <=? attempts pd
       then r = (Throw (deferredExhaustedError env tok pd), c)
       else r.1 = Return (VPromise p)
            ∧ JsMap.get tok (pendingResolutions r.2)
              = Some (record (attempts pd + 1)))
  ∧ (enableDeferredResolution c = false →
     resolve env (2 + fuel) tok rid c = (Throw e, c)).
Proof.
  intros Hp Hun Hinit Hstack e p record.
  change (2 + fuel) with (S (S fuel)). change (1 + fuel) with (S fuel).
  rewrite resolve_unresolved by done. rewrite Hinit, andb_true_r. fold e.
  split_and!.
  - intros Henabled Hpending Htimers r1 r2 r3.
    set (c1 := setTimeout (RetryFirst tok rid None p) 50
                 (set_promises (λ ps, ps ++ [PPending])
                    (set_pendingResolutions (JsMap.set tok (record 1)) c))).
    assert (r1 = (Return (VPromise p), c1)) as Hr1.
    { subst r1. rewrite Henabled.
      unfold handleDeferredResolution, newPromise. by rewrite Hpending. }
    assert (timers c1 = [mkTimer (now c + 50) (RetryFirst tok rid None p)])
      as Htimers1.
    { subst c1. unfold setTimeout. cbn. by rewrite Htimers. }
    set (c2 := setTimeout (RetryFinal tok rid p) 100
                 (set_now (now c + 50) (set_timers (λ _, []) c1))).
    assert (r2 = (Return tt, c2)) as Hr2.
    { subst r2. rewrite Hr1. cbn [snd]. unfold runNextTimer.
      rewrite Htimers1. cbn [pop_earliest task due].
      rewrite runTask_first_fails by done.
      replace (now c1 `max` (now c + 50)) with (now c + 50)
        by (subst c1; cbn; lia).
      done. }
    assert (timers c2 = [mkTimer (now c + 50 + 100) (RetryFinal tok rid p)])
      as Htimers2 by done.
    set (c3 := settle p (PRejected e)
                 (set_now (now c + 50 + 100) (set_timers (λ _, []) c2))).
    assert (r3 = (Return tt, c3)) as Hr3.
    { subst r3. rewrite Hr2. cbn [snd]. unfold runNextTimer.
      rewrite Htimers2. cbn [pop_earliest task due].
      rewrite runTask_final_fails by done.
      replace (now c2 `max` (now c + 50 + 100)) with (now c + 50 + 100)
        by (subst c2 c1; cbn; lia).
      done. }
    assert ((promises c ++ [PPending]) !! p = Some PPending) as Hp1
      by (by apply list_lookup_middle).
    rewrite Hr1, Hr2, Hr3. cbn [fst snd].
    split_and!; try done.
    + subst c1. cbn. by rewrite jsmap_get_set_eq.
    + subst c3 c2 c1. unfold settle. cbn. by rewrite Hp1.
    + subst c3 c2 c1. unfold settle. cbn. rewrite Hp1. cbn.
      rewrite list_lookup_insert_eq; [done|].
      rewrite length_app. subst p. simpl. lia.
    + subst c3 c2 c1. unfold settle. cbn. rewrite Hp1. cbn.
      by rewrite jsmap_get_set_eq.
  - intros Henabled pd Hpending r. subst r. rewrite Henabled.
    unfold handleDeferredResolution, newPromise. rewrite Hpending.
    destruct (3 <=? attempts pd); [done|].
    cbn. by rewrite jsmap_get_set_eq.
  - by intros ->.
Qed.
End DeferredResolution.

Lemma deferred_resolution_retries_witness :
  let r1 := resolve Scenario.env (2 + 0) Scenario.lateToken None newContainer in
  let r2 := runNextTimer Scenario.env (1 + 0) r1.2 in
  let r3 := runNextTimer Scenario.env (1 + 0) r2.2 in
  r1.1 = Return (VPromise 0)
  ∧ timers r3.2 = []
  ∧ promises r3.2 !! 0
    = Some (PRejected
              (unresolvedProviderError Scenario.env Scenario.lateToken
                 newContainer))
  ∧ resolve Scenario.env (2 + 0) Scenario.lateToken None
      (setDeferredResolution false newContainer)
    = (Throw (unresolvedProviderError Scenario.env Scenario.lateToken
                (setDeferredResolution false newContainer)),
       setDeferredResolution false newContainer).
Proof.
  intros r1 r2 r3.
  assert (undecorated Scenario.env Scenario.lateToken) as Hun by (by intros cl).
  destruct (deferred_resolution_retries Scenario.env 0 Scenario.lateToken None
              newContainer eq_refl Hun eq_refl (not_elem_of_nil _))
    as (Hretry & _ & _).
  destruct (Hretry eq_refl eq_refl eq_refl)
    as ((H1 & _) & _ & (_ & H3 & H4 & _)).
  destruct (deferred_resolution_retries Scenario.env 0 Scenario.lateToken None
              (setDeferredResolution false newContainer)
              eq_refl Hun eq_refl (not_elem_of_nil _))
    as (_ & _ & Hdisabled).
  split_and!; [exact H1 | exact H3 | exact H4 | exact (Hdisabled eq_refl)].
Defined.

(** C3 as stated fails at the third failure: after the first [resolve] and
    the two retries the promise is rejected with the unresolved-provider
    error itself, which is not the fatal error and does not carry its text;
    no retry is left and the record still counts one attempt. *)
Lemma third_failure_is_not_escalated :
  let r1 := resolve Scenario.env 2 Scenario.lateToken None newContainer in
  let r2 := runNextTimer Scenario.env 1 r1.2 in
  let r3 := runNextTimer Scenario.env 1 r2.2 in
  let e := unresolvedProviderError Scenario.env Scenario.lateToken newContainer in
  r1.1 = Return (VPromise 0)
  ∧ promises r3.2 !! 0 = Some (PRejected e)
  ∧ timers r3.2 = []
  ∧ (attempts <$> JsMap.get Scenario.lateToken (pendingResolutions r3.2))
    = Some 1
  ∧ includes (message e) "após múltiplas tentativas" = false
  ∧ (∀ pd, promises r3.2 !! 0
           ≠ Some (PRejected
                     (deferredExhaustedError Scenario.env Scenario.lateToken pd))).
Proof.
  vm_compute. split_and!; try reflexivity.
  intros pd. discriminate.
Qed.

(** ** The lifecycle registry: cleanup *)

Section LifeCycleFacts.
Import LifeCycle.

Lemma world_eta w : mkWorld (lifecycleRegistry w) (trace w) = w.
Proof. by destruct w. Qed.

Lemma destroyRef_run text ref w :
  destroyRef text ref w
  = (Return tt,
     mkWorld (lifecycleRegistry w)
       (trace w ++ destroy_trace text (ref_instance ref) (ref_onDestroy ref))).
Proof.
  unfold destroyRef, destroy_trace, try_catch, invoke, await, emit, modify,
    mbind, M_bind, bind.
  destruct (ref_onDestroy ref); simpl; by rewrite <-?app_assoc.
Qed.

Lemma cleanupRequestRef_run rid ref w :
  cleanupRequestRef rid ref w
  = (Return tt,
     mkWorld (lifecycleRegistry w) (trace w ++ request_ref_trace rid ref)).
Proof.
  unfold cleanupRequestRef, request_ref_trace, destroy_trace, try_catch,
    invoke, await, emit, modify, mbind, M_bind, bind.
  destruct (rref_onRequestEnd ref) as [b|]; [destruct b|];
    destruct (rref_onDestroy ref); simpl; by rewrite <-?app_assoc.
Qed.

(** A loop whose body only appends events appends the events of its turns,
    in order, whatever the hooks do. *)
Lemma forM_trace {A} (f : A → M World unit) (tr : A → list Event) xs w :
  (∀ x w, f x w = (Return tt, mkWorld (lifecycleRegistry w) (trace w ++ tr x))) →
  forM_ f xs w
  = (Return tt, mkWorld (lifecycleRegistry w) (trace w ++ (xs ≫= tr))).
Proof.
  intros Hf. revert w. induction xs as [|x xs IH]; intros w; simpl.
  - by rewrite app_nil_r, world_eta.
  - unfold mbind at 1, M_bind, bind. rewrite Hf, IH. simpl.
    by rewrite <-app_assoc.
Qed.

Lemma cleanupRequest_run rid w :
  cleanupRequest rid w
  = match JsMap.get rid (reg_request (lifecycleRegistry w)) with
    | None => (Return tt, w)
    | Some refs =>
        (Return tt,
         mkWorld (set_request (JsMap.delete rid) (lifecycleRegistry w))
           (trace w
            ++ ConsoleLog ("🧹 Limpando " +:+ pretty (length refs)
                           +:+ " instâncias da requisição " +:+ rid)
            :: (refs ≫= request_ref_trace rid)))
    end.
Proof.
  unfold cleanupRequest.
  destruct (JsMap.get rid (reg_request (lifecycleRegistry w))) as [refs|];
    [|done].
  unfold mbind at 1 2, M_bind, bind, emit, update, modify.
  rewrite (forM_trace _ (request_ref_trace rid))
    by apply cleanupRequestRef_run.
  simpl. by rewrite <-app_assoc.
Qed.

Lemma truthy_nonempty rid : rid ≠ "" → truthy (Some rid) = Some rid.
Proof. by destruct rid. Qed.

Lemma updateFirst_keeps instance ref refs :
  ref ∈ refs →
  inst_id (rref_instance ref) = inst_id instance →
  rref_onRequestEnd ref = boundRequestEnd instance →
  ref ∈ updateFirst instance refs.
Proof.
  intros Hin Hid Hend. induction refs as [|ref0 refs IH]; simpl.
  - by apply elem_of_nil in Hin.
  - apply elem_of_cons in Hin as [<-|Hin].
    + rewrite decide_True by done. rewrite <-Hend.
      destruct ref. apply elem_of_cons. by left.
    + destruct (decide _).
      * apply elem_of_cons. by right.
      * apply elem_of_cons. right. by apply IH.
Qed.

(** The first two steps of [applyLifecycle] call hooks: they add events and
    leave the registry alone. *)
Lemma applyLifecycle_registers instance rid bd be w w1 :
  onDestroy instance = Some bd → onRequestEnd instance = Some be →
  rid ≠ "" →
  applyLifecycle instance (Some request) (Some rid) w = (Return tt, w1) →
  ∃ refs,
    JsMap.get rid (reg_request (lifecycleRegistry w1)) = Some refs
    ∧ mkRequestRef instance bd (BoundRequestEnd be) ∈ refs.
Proof.
  intros Hd He Hrid. unfold applyLifecycle.
  rewrite (truthy_nonempty _ Hrid), Hd, He. cbn [default from_option id].
  unfold registerForCleanup, registerForRequestCleanup.
  rewrite (truthy_nonempty _ Hrid).
  set (ref := {| rref_instance := instance; rref_onDestroy := bd;
                 rref_onRequestEnd := boundRequestEnd instance |}).
  assert (boundRequestEnd instance = BoundRequestEnd be) as Hbound
    by (unfold boundRequestEnd; by rewrite He).
  assert (∀ m0, ∃ refs,
            JsMap.get rid (pushRequestRef rid ref m0) = Some refs ∧ ref ∈ refs)
    as Hpush.
  { intros m0. unfold pushRequestRef. eexists. split.
    - apply jsmap_get_set_eq.
    - apply elem_of_app. right. apply elem_of_cons. by left. }
  unfold mbind, M_bind, bind, invoke, catchAndLog, emit, update, modify, ret,
    throw.
  destruct (onInit instance) as [[]|];
    destruct (onRequestStart instance) as [[]|];
    simpl; try done; intros [= <-]; simpl;
    destruct (Hpush (reg_request (lifecycleRegistry w))) as (refs & Hm & Hin);
    (assert (JsMap.has rid (pushRequestRef rid ref
                              (reg_request (lifecycleRegistry w))) = true)
       as Hhas by (apply jsmap_has_get; by rewrite Hm));
    rewrite Hhas, Hm; simpl; eexists;
    (split; [apply jsmap_get_set_eq |
             rewrite <-Hbound; by apply updateFirst_keeps]).
Qed.

Lemma before_in_turns {A} (tr : A → list Event) x xs e1 e2 rest e0 :
  x ∈ xs → tr x = e1 :: e2 :: rest → before e1 e2 (e0 :: (xs ≫= tr)).
Proof.
  intros Hin Htr. apply list_elem_of_split in Hin as (l1 & l2 & ->).
  rewrite bind_app, bind_cons, Htr.
  exists (e0 :: (l1 ≫= tr)), [], (rest ++ (l2 ≫= tr)). done.
Qed.

Lemma first_hook_called rid ref :
  Called (first_hook ref) (inst_id (rref_instance ref))
  ∈ request_ref_trace rid ref.
Proof.
  unfold first_hook, request_ref_trace, destroy_trace.
  destruct (rref_onRequestEnd ref); apply elem_of_cons; by left.
Qed.

Lemma calls_request_ref_trace_destroy rid ref i :
  (inst_id (rref_instance ref) = i →
   ∃ b e, rref_onRequestEnd ref = BoundRequestEnd b ∧ failure b = Some e) →
  Called HDestroy i ∉ request_ref_trace rid ref.
Proof.
  intros Hfails. unfold request_ref_trace, destroy_trace.
  destruct (decide (inst_id (rref_instance ref) = i)) as [Hi|Hi].
  - destruct (Hfails Hi) as (b & e & -> & ->).
    rewrite !not_elem_of_cons. split_and!; [done..|apply not_elem_of_nil].
  - destruct (rref_onRequestEnd ref) as [b|]; [destruct (failure b)|];
      destruct (failure (rref_onDestroy ref));
      rewrite !not_elem_of_cons; split_and!;
      try apply not_elem_of_nil; try done; by intros [= ?].
Qed.

(** C5, as amended.  An instance that has [onDestroy] and [onRequestEnd],
    registered by [applyLifecycle] with request scope under a non-empty
    request id, has an entry in the bucket of that id.  [cleanupRequest] of
    that id never throws; it calls the [onRequestEnd] of the instance and,
    when that returns or resolves, its [onDestroy] after it; when the
    [onRequestEnd] throws or rejects, the error is logged and, the entries
    of the instance in the bucket having this [onRequestEnd], its
    [onDestroy] is not called.  Whatever the hooks of the entries do, the
    first hook of every entry of the bucket is called, and for every entry
    whose [onRequestEnd] succeeds the [onDestroy] follows it; the bucket is
    then deleted, the other buckets and lists are untouched, and a second
    [cleanupRequest] of the id changes nothing. *)
Theorem cleanupRequest_runs_hooks_in_order instance rid bd be w w1 :
  onDestroy instance = Some bd → onRequestEnd instance = Some be →
  rid ≠ "" →
  applyLifecycle instance (Some request) (Some rid) w = (Return tt, w1) →
  ∃ refs events w2,
    JsMap.get rid (reg_request (lifecycleRegistry w1)) = Some refs
    ∧ mkRequestRef instance bd (BoundRequestEnd be) ∈ refs
    ∧ cleanupRequest rid w1 = (Return tt, w2)
    ∧ trace w2 = trace w1 ++ events
    ∧ Called HRequestEnd (inst_id instance) ∈ events
    ∧ (failure be = None →
         before (Called HRequestEnd (inst_id instance))
                (Called HDestroy (inst_id instance)) events)
    ∧ (∀ e, failure be = Some e →
         ConsoleError ("Erro no cleanup da requisição " +:+ rid +:+ ":") e
           ∈ events
         ∧ ((∀ ref, ref ∈ refs →
               inst_id (rref_instance ref) = inst_id instance →
               rref_onRequestEnd ref = BoundRequestEnd be) →
            Called HDestroy (inst_id instance) ∉ events))
    ∧ (∀ ref, ref ∈ refs →
         Called (first_hook ref) (inst_id (rref_instance ref)) ∈ events)
    ∧ (∀ ref b, ref ∈ refs →
         rref_onRequestEnd ref = BoundRequestEnd b → failure b = None →
         before (Called HRequestEnd (inst_id (rref_instance ref)))
                (Called HDestroy (inst_id (rref_instance ref))) events)
    ∧ JsMap.get rid (reg_request (lifecycleRegistry w2)) = None
    ∧ (∀ r, r ≠ rid →
         JsMap.get r (reg_request (lifecycleRegistry w2))
         = JsMap.get r (reg_request (lifecycleRegistry w1)))
    ∧ reg_singleton (lifecycleRegistry w2) = reg_singleton (lifecycleRegistry w1)
    ∧ reg_transient (lifecycleRegistry w2) = reg_transient (lifecycleRegistry w1)
    ∧ cleanupRequest rid w2 = (Return tt, w2).
Proof.
  intros Hd He Hrid Happly.
  destruct (applyLifecycle_registers _ _ _ _ _ _ Hd He Hrid Happly)
    as (refs & Hget & Hin).
  assert (∀ ref b, ref ∈ refs →
            rref_onRequestEnd ref = BoundRequestEnd b → failure b = None →
            ∀ e0, before (Called HRequestEnd (inst_id (rref_instance ref)))
                    (Called HDestroy (inst_id (rref_instance ref)))
                    (e0 :: (refs ≫= request_ref_trace rid))) as Horder.
  { intros ref b Href Hb Hok e0.
    eapply (before_in_turns (request_ref_trace rid)); [exact Href|].
    unfold request_ref_trace, destroy_trace. by rewrite Hb, Hok. }
  eexists refs, _, _. split_and!.
  - exact Hget.
  - exact Hin.
  - rewrite cleanupRequest_run, Hget. reflexivity.
  - reflexivity.
  - apply elem_of_cons. right. apply list_elem_of_bind.
    eexists. split; [|exact Hin].
    apply (first_hook_called rid (mkRequestRef instance bd (BoundRequestEnd be))).
  - intros Hok.
    by apply (Horder (mkRequestRef instance bd (BoundRequestEnd be)) be).
  - intros e Hfail. split.
    + apply elem_of_cons. right. apply list_elem_of_bind.
      eexists. split; [|exact Hin].
      unfold request_ref_trace. cbn [rref_onRequestEnd]. rewrite Hfail.
      apply elem_of_cons. right. apply elem_of_cons. by left.
    + intros Hsame. apply not_elem_of_cons. split; [done|].
      intros Hcalled. apply list_elem_of_bind in Hcalled as (ref & Hc & Href).
      revert Hc. apply calls_request_ref_trace_destroy.
      intros Hi. exists be, e. split; [by apply Hsame|done].
  - intros ref Href. apply elem_of_cons. right. apply list_elem_of_bind.
    eexists. split; [|exact Href]. apply first_hook_called.
  - intros ref b Href Hb Hok. by apply (Horder _ b).
  - simpl. apply jsmap_get_delete_eq.
  - intros r Hr. simpl. by apply jsmap_get_delete_ne.
  - done.
  - done.
  - rewrite cleanupRequest_run. simpl. by rewrite jsmap_get_delete_eq.
Qed.

(** ** The lifecycle registry: shutdown *)

Lemma jsmap_get_Some_keys {K V} `{EqDecision K} (k : K) (m : list (K * V)) v :
  JsMap.get k m = Some v → k ∈ JsMap.keys m.
Proof.
  intros Hget. destruct (decide (k ∈ JsMap.keys m)) as [|Hnot]; [done|].
  apply jsmap_get_None_keys in Hnot. congruence.
Qed.

Lemma jsmap_keys_delete_elem {K V} `{EqDecision K} (k k' : K)
    (m : list (K * V)) :
  k' ∈ JsMap.keys (JsMap.delete k m) → k' ∈ JsMap.keys m ∧ k' ≠ k.
Proof.
  intros Hin. split.
  - destruct (decide (k' ∈ JsMap.keys m)) as [|Hnot]; [done|].
    apply jsmap_get_None_keys in Hnot.
    assert (JsMap.get k' (JsMap.delete k m) = None) as Hnone.
    { destruct (decide (k = k')) as [->|Hne].
      - apply jsmap_get_delete_eq.
      - by rewrite jsmap_get_delete_ne. }
    apply jsmap_get_None_keys in Hnone. done.
  - intros ->. by apply jsmap_keys_delete in Hin.
Qed.

Lemma jsmap_delete_all {K V} `{EqDecision K} (ks : list K) (m : list (K * V)) :
  (∀ k, k ∈ JsMap.keys m → k ∈ ks) →
  foldl (λ m k, JsMap.delete k m) m ks = [].
Proof.
  revert m. induction ks as [|k ks IH]; intros m Hsub; simpl.
  - destruct m as [|[k v] m]; [done|].
    exfalso. eapply not_elem_of_nil, (Hsub k). apply elem_of_cons. by left.
  - apply IH. intros k' Hk'.
    apply jsmap_keys_delete_elem in Hk' as [Hk' Hne].
    apply Hsub, elem_of_cons in Hk' as [->|Hk']; done.
Qed.

Lemma set_request_id reg : set_request (λ m, m) reg = reg.
Proof. by destruct reg. Qed.

(** The loop of [shutdown] over the request ids: every id is cleaned, and
    the first hook of every entry of every bucket is called. *)
Lemma forM_cleanupRequest ks w :
  ∃ events,
    forM_ cleanupRequest ks w
    = (Return tt,
       mkWorld (set_request (λ m, foldl (λ m k, JsMap.delete k m) m ks)
                  (lifecycleRegistry w))
         (trace w ++ events))
    ∧ (∀ rid refs ref,
         rid ∈ ks →
         JsMap.get rid (reg_request (lifecycleRegistry w)) = Some refs →
         ref ∈ refs →
         Called (first_hook ref) (inst_id (rref_instance ref)) ∈ events).
Proof.
  revert w. induction ks as [|k ks IH]; intros w.
  - exists []. split.
    + simpl. by rewrite app_nil_r, set_request_id, world_eta.
    + intros rid refs ref Hrid. by apply elem_of_nil in Hrid.
  - simpl. unfold mbind at 1, M_bind, bind. rewrite cleanupRequest_run.
    destruct (JsMap.get k (reg_request (lifecycleRegistry w)))
      as [refs0|] eqn:Hk.
    + destruct (IH (mkWorld (set_request (JsMap.delete k) (lifecycleRegistry w))
                      (trace w
                       ++ ConsoleLog ("🧹 Limpando " +:+ pretty (length refs0)
                                      +:+ " instâncias da requisição " +:+ k)
                       :: (refs0 ≫= request_ref_trace k))))
        as (events & -> & Hcalled).
      eexists. split.
      * simpl. rewrite <-app_assoc. reflexivity.
      * intros rid refs ref Hrid Hget Href.
        rewrite <-app_comm_cons. apply elem_of_cons. right.
        apply elem_of_app.
        destruct (decide (rid = k)) as [->|Hne].
        -- left. rewrite Hk in Hget. injection Hget as <-.
           apply list_elem_of_bind. eexists. split; [|exact Href].
           apply first_hook_called.
        -- right. apply (Hcalled rid refs ref); [|by simpl; rewrite jsmap_get_delete_ne|done].
           apply elem_of_cons in Hrid as [->|Hrid]; done.
    + destruct (IH w) as (events & -> & Hcalled).
      exists events. split.
      * do 2 f_equal. destruct (lifecycleRegistry w) as [sg tr rq]. simpl in *.
        unfold set_request. simpl. by rewrite jsmap_delete_absent.
      * intros rid refs ref Hrid Hget Href.
        apply (Hcalled rid refs ref); [|done..].
        apply elem_of_cons in Hrid as [->|Hrid]; [congruence|done].
Qed.

Lemma cleanupTransient_run w :
  cleanupTransient w
  = (Return tt,
     mkWorld (set_transient (λ _, []) (lifecycleRegistry w))
       (trace w
        ++ ConsoleLog ("🧹 Limpando "
                       +:+ pretty (length (reg_transient (lifecycleRegistry w)))
                       +:+ " instâncias transient")
        :: (reg_transient (lifecycleRegistry w)
            ≫= λ ref, destroy_trace "Erro no cleanup transient:"
                        (ref_instance ref) (ref_onDestroy ref)))).
Proof.
  unfold cleanupTransient, mbind at 1 2 3, M_bind, bind, gets, emit, update,
    modify.
  rewrite (forM_trace _ (λ ref, destroy_trace "Erro no cleanup transient:"
                                  (ref_instance ref) (ref_onDestroy ref)))
    by (intros; apply destroyRef_run).
  simpl. by rewrite <-app_assoc.
Qed.

Lemma cleanupSingletons_run w :
  cleanupSingletons w
  = (Return tt,
     mkWorld (set_singleton (λ _, []) (lifecycleRegistry w))
       (trace w
        ++ ConsoleLog ("🧹 Limpando "
                       +:+ pretty (length (reg_singleton (lifecycleRegistry w)))
                       +:+ " instâncias singleton")
        :: (reg_singleton (lifecycleRegistry w)
            ≫= λ ref, destroy_trace "Erro no cleanup singleton:"
                        (ref_instance ref) (ref_onDestroy ref)))).
Proof.
  unfold cleanupSingletons, mbind at 1 2 3, M_bind, bind, gets, emit, update,
    modify.
  rewrite (forM_trace _ (λ ref, destroy_trace "Erro no cleanup singleton:"
                                  (ref_instance ref) (ref_onDestroy ref)))
    by (intros; apply destroyRef_run).
  simpl. by rewrite <-app_assoc.
Qed.

Lemma destroy_called text ref (refs : list CleanupRef) :
  ref ∈ refs →
  Called HDestroy (inst_id (ref_instance ref))
  ∈ refs ≫= λ ref, destroy_trace text (ref_instance ref) (ref_onDestroy ref).
Proof.
  intros Hin. apply list_elem_of_bind. exists ref. split; [|done].
  apply elem_of_cons. by left.
Qed.

(** C6. [shutdown] never throws and runs three steps in order: the cleanup
    of every request bucket, in which the first hook of every entry of every
    bucket is called and after which no bucket is left; then the cleanup of
    the transient list, after which that list is empty; then the cleanup of
    the singleton list, which calls the [onDestroy] of every singleton entry
    in a registry with no request bucket and no transient entry, and after
    which the registry is empty.  The events of the three steps follow each
    other in the trace. *)
Theorem shutdown_order w :
  let reg := lifecycleRegistry w in
  let start := ConsoleLog "[INFO] [LIFECYCLE] Iniciando shutdown da aplicação..." in
  ∃ w1 w2 w3 ev1 ev2 ev3,
    (_ ← emit start; cleanupActiveRequests) w = (Return tt, w1)
    ∧ cleanupTransient w1 = (Return tt, w2)
    ∧ cleanupSingletons w2 = (Return tt, w3)
    ∧ shutdown w
      = (Return tt,
         mkWorld (lifecycleRegistry w3)
           (trace w3 ++ [ConsoleLog "✅ Shutdown completo"]))
    ∧ trace w1 = trace w ++ start :: ev1
    ∧ trace w2 = trace w1 ++ ev2
    ∧ trace w3 = trace w2 ++ ev3
    ∧ lifecycleRegistry w1 = mkRegistry (reg_singleton reg) (reg_transient reg) []
    ∧ lifecycleRegistry w2 = mkRegistry (reg_singleton reg) [] []
    ∧ lifecycleRegistry w3 = emptyRegistry
    ∧ (∀ rid refs ref,
         JsMap.get rid (reg_request reg) = Some refs → ref ∈ refs →
         Called (first_hook ref) (inst_id (rref_instance ref)) ∈ ev1)
    ∧ (∀ ref, ref ∈ reg_transient reg →
         Called HDestroy (inst_id (ref_instance ref)) ∈ ev2)
    ∧ (∀ ref, ref ∈ reg_singleton reg →
         Called HDestroy (inst_id (ref_instance ref)) ∈ ev3)
    ∧ ev3
      = ConsoleLog ("🧹 Limpando " +:+ pretty (length (reg_singleton reg))
                    +:+ " instâncias singleton")
        :: (reg_singleton reg
            ≫= λ ref, destroy_trace "Erro no cleanup singleton:"
                        (ref_instance ref) (ref_onDestroy ref)).
Proof.
  intros reg start.
  destruct (forM_cleanupRequest (JsMap.keys (reg_request reg))
              (mkWorld reg (trace w ++ [start])))
    as (ev1 & Hloop & Hcalled).
  assert (set_request
            (λ m, foldl (λ m k, JsMap.delete k m) m
                    (JsMap.keys (reg_request reg))) reg
          = mkRegistry (reg_singleton reg) (reg_transient reg) []) as Hreg.
  { unfold set_request. f_equal. by apply jsmap_delete_all. }
  cbn [lifecycleRegistry trace] in Hloop. rewrite Hreg in Hloop.
  set (w1 := mkWorld (mkRegistry (reg_singleton reg) (reg_transient reg) [])
               ((trace w ++ [start]) ++ ev1)).
  assert (cleanupActiveRequests (mkWorld reg (trace w ++ [start]))
          = (Return tt, w1)) as Hca.
  { unfold cleanupActiveRequests, mbind, M_bind, bind, gets.
    cbn [lifecycleRegistry]. by rewrite Hloop. }
  eexists w1, _, _, ev1, _, _. split_and!.
  - unfold mbind, M_bind, bind, emit, modify. fold reg start. by rewrite Hca.
  - apply cleanupTransient_run.
  - apply cleanupSingletons_run.
  - unfold shutdown, mbind, M_bind, bind, emit, modify. fold reg start.
    by rewrite Hca, cleanupTransient_run, cleanupSingletons_run.
  - simpl. by rewrite <-app_assoc.
  - reflexivity.
  - reflexivity.
  - done.
  - done.
  - done.
  - intros rid refs ref Hget Href. apply (Hcalled rid refs ref); [|done..].
    by eapply jsmap_get_Some_keys.
  - intros ref Href. apply elem_of_cons. right. by apply destroy_called.
  - intros ref Href. apply elem_of_cons. right. by apply destroy_called.
  - done.
Qed.

(** ** The lifecycle registry: hooks run by [applyLifecycle] *)

Lemma applyLifecycle_onInit_throws instance scope rid w msg :
  onInit instance = Some (ThrowsSync msg) →
  applyLifecycle instance scope rid w
  = (Throw (mkError msg),
     mkWorld (lifecycleRegistry w) (trace w ++ [Called HInit (inst_id instance)])).
Proof. intros Hinit. unfold applyLifecycle. by rewrite Hinit. Qed.

(** A hook that returns, or whose promise is fulfilled or rejected, lets
    [applyLifecycle] complete; a rejection of [onInit] is logged. *)
Lemma applyLifecycle_completes instance scope rid w :
  (∀ msg, onInit instance ≠ Some (ThrowsSync msg)) →
  (∀ msg, onRequestStart instance ≠ Some (ThrowsSync msg)) →
  (applyLifecycle instance scope rid w).1 = Return tt
  ∧ (∀ msg, onInit instance = Some (Rejects msg) →
       ConsoleError ("Erro no onInit de " +:+ inst_class instance +:+ ":")
         (mkError msg)
       ∈ trace (applyLifecycle instance scope rid w).2).
Proof.
  intros Hinit Hstart. unfold applyLifecycle.
  unfold mbind, M_bind, bind, invoke, catchAndLog, registerForCleanup,
    registerForRequestCleanup, emit, update, modify, ret, throw.
  destruct (onInit instance) as [[]|]; try (by edestruct Hinit);
    destruct (default singleton scope); destruct (truthy rid);
    destruct (onRequestStart instance) as [[]|]; try (by edestruct Hstart);
    destruct (onDestroy instance); destruct (onRequestEnd instance);
    simpl; (split; [done|]); intros msg' [= <-];
    rewrite ?elem_of_app, ?elem_of_cons; tauto.
Qed.
End LifeCycleFacts.

Lemma cleanupRequest_runs_hooks_in_order_witness :
  let w1 := (LifeCycle.applyLifecycle Scenario.userContext (Some request)
               (Some "req-1") Scenario.busyWorld).2 in
  ∃ events w2,
    LifeCycle.cleanupRequest "req-1" w1 = (Return tt, w2)
    ∧ LifeCycle.trace w2 = LifeCycle.trace w1 ++ events
    ∧ before (LifeCycle.Called LifeCycle.HRequestEnd 8)
             (LifeCycle.Called LifeCycle.HDestroy 8) events
    ∧ LifeCycle.cleanupRequest "req-1" w2 = (Return tt, w2).
Proof.
  intros w1.
  destruct (cleanupRequest_runs_hooks_in_order Scenario.userContext "req-1"
              LifeCycle.Resolves LifeCycle.Resolves Scenario.busyWorld w1)
    as (refs & events & w2 & _ & _ & Hrun & Htrace & _ & Horder & _ & _ & _
        & _ & _ & _ & _ & Hagain).
  - reflexivity.
  - reflexivity.
  - done.
  - vm_compute. reflexivity.
  - exists events, w2. split_and!; [done | done | by apply Horder | done].
Defined.

(** C5 as stated fails for an instance whose [onRequestEnd] throws: it has
    the four hooks and is registered by [applyLifecycle]; [cleanupRequest]
    calls its [onRequestEnd], logs the error and goes on without calling
    its [onDestroy]. *)
Lemma failed_onRequestEnd_leaves_instance_undestroyed :
  let w1 := (LifeCycle.applyLifecycle Scenario.uploadSession (Some request)
               (Some "req-1")
               (LifeCycle.mkWorld LifeCycle.emptyRegistry [])).2 in
  let events := LifeCycle.trace (LifeCycle.cleanupRequest "req-1" w1).2 in
  LifeCycle.cleanupRequest "req-1" w1
  = (Return tt, LifeCycle.mkWorld LifeCycle.emptyRegistry events)
  ∧ JsMap.get "req-1" (LifeCycle.reg_request (LifeCycle.lifecycleRegistry w1))
  = Some [LifeCycle.mkRequestRef Scenario.uploadSession LifeCycle.Returns
            (LifeCycle.BoundRequestEnd (LifeCycle.ThrowsSync "upload aborted"))]
  ∧ events
    = [LifeCycle.Called LifeCycle.HInit 13;
       LifeCycle.Called LifeCycle.HRequestStart 13;
       LifeCycle.ConsoleLog "🧹 Limpando 1 instâncias da requisição req-1";
       LifeCycle.Called LifeCycle.HRequestEnd 13;
       LifeCycle.ConsoleError "Erro no cleanup da requisição req-1:"
         (mkError "upload aborted")]
  ∧ (LifeCycle.Called LifeCycle.HDestroy 13 ∉ events)
  ∧ ¬ before (LifeCycle.Called LifeCycle.HRequestEnd 13)
             (LifeCycle.Called LifeCycle.HDestroy 13) events.
Proof.
  intros w1 events.
  assert (events
          = [LifeCycle.Called LifeCycle.HInit 13;
             LifeCycle.Called LifeCycle.HRequestStart 13;
             LifeCycle.ConsoleLog "🧹 Limpando 1 instâncias da requisição req-1";
             LifeCycle.Called LifeCycle.HRequestEnd 13;
             LifeCycle.ConsoleError "Erro no cleanup da requisição req-1:"
               (mkError "upload aborted")]) as Hevents
    by (vm_compute; reflexivity).
  assert (LifeCycle.Called LifeCycle.HDestroy 13 ∉ events) as Hnot.
  { rewrite Hevents, !not_elem_of_cons.
    split_and!; [done..|apply not_elem_of_nil]. }
  split_and!; [by vm_compute | by vm_compute | exact Hevents | exact Hnot |].
  intros (l1 & l2 & l3 & Hsplit). apply Hnot. rewrite Hsplit.
  apply elem_of_app. right. apply elem_of_cons. right.
  apply elem_of_app. right. apply elem_of_cons. by left.
Qed.

(** An instance that has [onRequestEnd] and no [onDestroy] gets no entry:
    [registerForRequestCleanup] opens the bucket and finds nothing to update,
    so [cleanupRequest] calls no hook of it. *)
Lemma requestEnd_without_onDestroy_is_not_registered :
  let w1 := (LifeCycle.applyLifecycle Scenario.auditTrail (Some request)
               (Some "req-1")
               (LifeCycle.mkWorld LifeCycle.emptyRegistry [])).2 in
  JsMap.get "req-1" (LifeCycle.reg_request (LifeCycle.lifecycleRegistry w1))
  = Some []
  ∧ LifeCycle.trace (LifeCycle.cleanupRequest "req-1" w1).2
    = [LifeCycle.ConsoleLog "🧹 Limpando 0 instâncias da requisição req-1"].
Proof. vm_compute. by split. Qed.

(** C7 fails on the code.  The [onInit] of this instance throws: the error
    leaves [applyLifecycle], nothing is logged, and the [onDestroy] of the
    instance is not registered. *)
Theorem applyLifecycle_sync_throw_escapes :
  LifeCycle.applyLifecycle Scenario.brokenCache (Some singleton) None
    (LifeCycle.mkWorld LifeCycle.emptyRegistry [])
  = (Throw (mkError "connection refused"),
     LifeCycle.mkWorld LifeCycle.emptyRegistry
       [LifeCycle.Called LifeCycle.HInit 7]).
Proof. reflexivity. Qed.

(** * Further properties *)

(** ** The steps of a resolution, for any relation *)

(** A relation on containers that every primitive step of a resolution
    respects is respected by the resolution.  [writable] names the tokens
    whose provider and cache entries the relation lets the resolution
    write. *)
Section Frame.
Variable env : Env.
Variable R : Container → Container → Prop.
Context `{!PreOrder R}.
Variable writable : Token → Prop.

Hypothesis R_cache_singleton : ∀ tok v c c1,
  writable tok → singletons c !! tok = None → R c c1 →
  R c (set_singletons (<[tok := v]>) c1).
Hypothesis R_cache_request : ∀ tok rid v c c1,
  writable tok → stored c rid tok = None → R c c1 →
  R c (set_requestInstances (λ ri,
         <[rid := <[tok := v]> (default ∅ (ri !! rid))]> ri) c1).
Hypothesis R_open_bucket : ∀ rid c,
  requestInstances c !! rid = None →
  R c (set_requestInstances (<[rid := ∅]>) c).
Hypothesis R_register : ∀ cl s c,
  writable (TClass cl) → providers c !! TClass cl = None →
  R c (register (TClass cl) (classProvider cl s) c).
Hypothesis R_allocate : ∀ o c, R c (set_heap (λ h, h ++ [o]) c).
Hypothesis R_draw_id : ∀ c, R c (set_generatedIds S c).

Lemma construct_frame target args : preserves R (construct env target args).
Proof.
  intros c r c'. unfold construct.
  destruct (cls_ctor_throws _); intros [= <- <-]; [reflexivity | apply R_allocate].
Qed.

Lemma callFactory_frame f : preserves R (callFactory env f).
Proof.
  destruct f; simpl;
    [apply construct_frame | apply preserves_ret, _ | apply preserves_throw, _].
Qed.

Lemma tryAutoRegister_frame cl c ok c' :
  writable (TClass cl) → providers c !! TClass cl = None →
  tryAutoRegister env cl c = (ok, c') → R c c'.
Proof.
  intros Hw Hnone. unfold tryAutoRegister.
  repeat case_bool_decide; intros [= <- <-];
    first [by apply R_register | reflexivity].
Qed.

Section Open.
Variable rec : Token → option string → M Container Value.
Hypothesis rec_frame : ∀ tok rid, preserves R (rec tok rid).

Lemma createInstance_frame target rid :
  preserves R (createInstance env rec target rid).
Proof.
  unfold createInstance. apply preserves_bind; [apply _| |].
  - apply preserves_mapM; [apply _|]. intros dep. apply rec_frame.
  - intros args. apply construct_frame.
Qed.

Lemma resolveSingleton_frame tok target :
  writable tok → preserves R (resolveSingleton env rec tok target).
Proof.
  intros Hw c r c'. unfold resolveSingleton.
  destruct (singletons c !! tok) as [v|] eqn:Hcached.
  { intros [= <- <-]. reflexivity. }
  unfold mbind, M_bind, bind.
  destruct (createInstance env rec target None c) as [[inst|e|] c1] eqn:Hnew;
    apply createInstance_frame in Hnew; intros [= <- <-]; try done.
  by apply R_cache_singleton.
Qed.

Lemma resolveRequest_frame tok target rid :
  writable tok → preserves R (resolveRequest env rec tok target rid).
Proof.
  intros Hw c r c'. unfold resolveRequest.
  set (c0 := match requestInstances c !! rid with
             | Some _ => c
             | None => set_requestInstances (<[rid := ∅]>) c
             end).
  assert (R c c0) as Hc0.
  { subst c0. destruct (requestInstances c !! rid) eqn:Hb; [reflexivity|].
    by apply R_open_bucket. }
  destruct (requestInstances c0 !! rid ≫= _) as [v|] eqn:Hcached.
  { intros [= <- <-]. done. }
  unfold mbind at 1, M_bind, bind.
  destruct (createInstance env rec target (Some rid) c0)
    as [[inst|e|] c1] eqn:Hnew;
    apply createInstance_frame in Hnew; intros [= <- <-];
    try (by etrans).
  etrans; [exact Hc0|]. by apply R_cache_request.
Qed.
End Open.

(** One more level of [resolveInternal], given the level below. *)
Lemma resolveInternal_frame fuel tok rid :
  writable tok →
  (∀ t r, preserves R (resolve env fuel t r)) →
  (∀ r, preserves R (resolveInternal env fuel tok r)) →
  preserves R (resolveInternal env (S fuel) tok rid).
Proof.
  intros Hw IHr IHi c r c'. simpl.
  destruct (providers c !! tok) as [provider|] eqn:Hp.
  - destruct (useValue provider). { intros [= <- <-]. reflexivity. }
    destruct (useFactory provider). { apply callFactory_frame. }
    destruct (useClass provider) as [target|];
      [|intros [= <- <-]; reflexivity].
    destruct (default singleton (scope provider)).
    + by apply resolveSingleton_frame.
    + by apply createInstance_frame.
    + destruct rid as [rid|].
      * by apply resolveRequest_frame.
      * intros Hr. etrans; [apply R_draw_id|].
        by eapply (resolveRequest_frame _ IHr).
    + intros [= <- <-]. reflexivity.
  - destruct tok as [cl| |]; try (intros [= <- <-]; reflexivity).
    destruct (tryAutoRegister env cl c) as [[] c1] eqn:Hauto.
    + intros Hr. etrans; [by eapply tryAutoRegister_frame|]. by eapply IHi.
    + intros [= <- <-]. by eapply tryAutoRegister_frame.
Qed.

Hypothesis R_pending : ∀ tok rec c,
  R c (set_pendingResolutions (JsMap.set tok rec) c).
Hypothesis R_promise : ∀ c, R c (set_promises (λ ps, ps ++ [PPending]) c).
Hypothesis R_timer : ∀ t c, R c (set_timers (λ ts, ts ++ [t]) c).

Lemma handleDeferredResolution_frame tok rid error :
  preserves R (handleDeferredResolution env tok rid error).
Proof.
  intros c r c'. unfold handleDeferredResolution, newPromise, setTimeout.
  assert (∀ rec t, R c (set_timers (λ ts, ts ++ [t])
                          (set_promises (λ ps, ps ++ [PPending])
                             (set_pendingResolutions (JsMap.set tok rec) c))))
    as Hdefer.
  { intros rec t. etrans; [apply R_pending|]. etrans; [apply R_promise|].
    apply R_timer. }
  destruct (JsMap.get tok (pendingResolutions c)) as [pd|];
    [destruct (3 <=? attempts pd)|]; intros [= <- <-];
    first [reflexivity | apply Hdefer].
Qed.

Hypothesis R_leave : ∀ tok c c1,
  tok ∉ resolutionStack c →
  R (set_resolutionStack (stack_add tok) c) c1 →
  R c (set_resolutionStack (stack_delete tok) c1).

(** One more level of [resolve], given [resolveInternal] at the level
    below for the token that enters the stack. *)
Lemma resolve_frame fuel tok rid c :
  (tok ∉ resolutionStack c →
   preserves R (resolveInternal env fuel tok rid)) →
  ∀ r c', resolve env (S fuel) tok rid c = (r, c') → R c c'.
Proof.
  intros IHi r c'. simpl.
  case_bool_decide as Hstack; [by intros [= <- <-]|].
  specialize (IHi Hstack).
  unfold try_finally, try_catch, mbind, M_bind, bind, modify.
  destruct (resolveInternal env fuel tok rid _) as [[v|e|] c1] eqn:Hint;
    apply IHi in Hint.
  - intros [= <- <-]. by apply R_leave.
  - destruct (_ && _).
    + destruct (handleDeferredResolution env tok rid e c1) as [r2 c2] eqn:Hd.
      apply handleDeferredResolution_frame in Hd.
      intros [= <- <-]. apply R_leave; [done|]. by etrans.
    + intros [= <- <-]. by apply R_leave.
  - intros [= <- <-]. by apply R_leave.
Qed.

(** The relation holds across every resolution when every token is
    writable. *)
Lemma resolve_frame_both fuel :
  (∀ tok, writable tok) →
  (∀ tok rid, preserves R (resolve env fuel tok rid))
  ∧ (∀ tok rid, preserves R (resolveInternal env fuel tok rid)).
Proof.
  intros Hw. induction fuel as [|fuel [IHr IHi]].
  { split; intros tok rid c r c' [= <- <-]; reflexivity. }
  assert (∀ tok rid, preserves R (resolveInternal env (S fuel) tok rid))
    as Hi.
  { intros tok rid. apply resolveInternal_frame; [apply Hw|done|done]. }
  split; [|exact Hi].
  intros tok rid c r c'. apply resolve_frame. intros _. apply IHi.
Qed.
End Frame.

(** ** What a resolution keeps *)

#[global] Instance same_stack_preorder : PreOrder same_stack.
Proof.
  split; [by intros c | intros c1 c2 c3 H12 H23].
  unfold same_stack in *. congruence.
Qed.

#[global] Instance undisturbed_preorder : PreOrder undisturbed.
Proof.
  split.
  - intros c. by split_and!.
  - intros c1 c2 c3 (Hf & Hn & Ht & Hp & Hh) (Hf' & Hn' & Ht' & Hp' & Hh').
    split_and!; [congruence | congruence | by etrans..].
Qed.

#[global] Instance keeps_caches_preorder : PreOrder keeps_caches.
Proof.
  split.
  - intros c. by split_and!.
  - intros c1 c2 c3 (Hp & Hs & Hr) (Hp' & Hs' & Hr').
    split_and!; [by etrans | by etrans | auto].
Qed.

#[global] Instance same_cached_equiv tok : Equivalence (same_cached tok).
Proof.
  split.
  - intros c. by split.
  - intros c c' [Hs Hr]. split; [done | intros rid; by rewrite Hr].
  - intros c1 c2 c3 [Hs Hr] [Hs' Hr'].
    split; [congruence | intros rid; by rewrite Hr', Hr].
Qed.

#[global] Instance same_entries_equiv tok : Equivalence (same_entries tok).
Proof.
  split.
  - intros c. split; [done | reflexivity].
  - intros c c' [Hp Hc]. split; [done | by symmetry].
  - intros c1 c2 c3 [Hp Hc] [Hp' Hc']. split; [congruence | by etrans].
Qed.

#[global] Instance guards_preorder tok : PreOrder (guards tok).
Proof.
  split.
  - intros c Hin. split; [done | reflexivity].
  - intros c1 c2 c3 H12 H23 Hin.
    destruct (H12 Hin) as [Hin2 He]. destruct (H23 Hin2) as [Hin3 He'].
    split; [done | by etrans].
Qed.

#[global] Instance nothing_deferred_preorder : PreOrder nothing_deferred.
Proof.
  split.
  - intros c Hoff. by split_and!.
  - intros c1 c2 c3 H12 H23 Hoff.
    destruct (H12 Hoff) as (Hoff2 & Hp & Ht & Hk).
    destruct (H23 Hoff2) as (Hoff3 & Hp' & Ht' & Hk').
    split_and!; [done | congruence | congruence | by etrans].
Qed.

Section Kept.
Variable env : Env.

Lemma register_stack tok p c :
  resolutionStack (register tok p c) = resolutionStack c.
Proof. unfold register. by destruct (JsMap.has _ _). Qed.

Lemma register_singletons tok p c :
  singletons (register tok p c) = singletons c.
Proof. unfold register. by destruct (JsMap.has _ _). Qed.

Lemma register_requestInstances tok p c :
  requestInstances (register tok p c) = requestInstances c.
Proof. unfold register. by destruct (JsMap.has _ _). Qed.

Lemma register_runtime tok p c :
  promises (register tok p c) = promises c
  ∧ timers (register tok p c) = timers c
  ∧ now (register tok p c) = now c
  ∧ heap (register tok p c) = heap c
  ∧ enableDeferredResolution (register tok p c) = enableDeferredResolution c.
Proof. unfold register. by destruct (JsMap.has _ _). Qed.

Lemma register_undisturbed tok p c : undisturbed c (register tok p c).
Proof. unfold register. destruct (JsMap.has _ _); by split_and!. Qed.

Lemma stored_same c c' rid tok :
  requestInstances c' = requestInstances c →
  stored c' rid tok = stored c rid tok.
Proof. unfold stored. by intros ->. Qed.

Lemma stack_delete_elem t t' st :
  t' ∈ st → t' ≠ t → t' ∈ stack_delete t st.
Proof. intros Hin Hne. unfold stack_delete. by apply list_elem_of_filter. Qed.

Lemma stack_add_elem t t' st : t' ∈ st → t' ∈ stack_add t st.
Proof.
  intros Hin. unfold stack_add. destruct (decide _); [done|].
  apply elem_of_app. by left.
Qed.

Lemma resolve_same_stack fuel tok rid :
  preserves same_stack (resolve env fuel tok rid).
Proof.
  apply (resolve_frame_both env same_stack (λ _, True)); try done.
  - intros cl s c _ _. apply register_stack.
  - intros t c c1 Hnotin Hc1. unfold same_stack in *. simpl in *.
    rewrite Hc1. by apply stack_delete_add.
Qed.

Lemma resolve_undisturbed fuel tok rid :
  preserves undisturbed (resolve env fuel tok rid).
Proof.
  apply (resolve_frame_both env undisturbed (λ _, True)); try done.
  - intros cl s c _ _. apply register_undisturbed.
  - intros o c. split_and!; try done. simpl. by apply prefix_app_r.
  - intros c. split_and!; try done. simpl. by apply prefix_app_r.
  - intros t c. split_and!; try done. simpl. by apply prefix_app_r.
Qed.

Lemma resolve_keeps_caches_both fuel :
  (∀ tok rid, preserves keeps_caches (resolve env fuel tok rid))
  ∧ (∀ tok rid, preserves keeps_caches (resolveInternal env fuel tok rid)).
Proof.
  apply (resolve_frame_both env keeps_caches (λ _, True)); try done.
  - intros tok v c c1 _ Hnone (Hp & Hs & Hr). split_and!; try done.
    simpl. by apply insert_subseteq_r.
  - intros tok rid v c c1 _ Hnone (Hp & Hs & Hr). split_and!; try done.
    intros r t v' Hv'. rewrite stored_insert.
    destruct (decide _) as [[-> ->]|]; [congruence | by apply Hr].
  - intros rid c Hnone. split_and!; try done.
    intros r t v Hv. by rewrite stored_new_bucket.
  - intros cl s c _ Hnone. split_and!.
    + rewrite register_providers. by apply insert_subseteq.
    + by rewrite register_singletons.
    + intros r t v Hv.
      by rewrite (stored_same c), Hv by apply register_requestInstances.
Qed.

Lemma guards_same t0 c c' :
  resolutionStack c' = resolutionStack c → providers c' = providers c →
  singletons c' = singletons c → requestInstances c' = requestInstances c →
  guards t0 c c'.
Proof.
  intros Hst Hp Hs Hr Hin. split; [by rewrite Hst|].
  split; [by rewrite Hp|]. split; [by rewrite Hs|].
  intros rid. by apply stored_same.
Qed.

Lemma resolve_guards_both t0 fuel :
  (∀ tok rid, preserves (guards t0) (resolve env fuel tok rid))
  ∧ (∀ tok rid, tok ≠ t0 →
       preserves (guards t0) (resolveInternal env fuel tok rid)).
Proof.
  induction fuel as [|fuel [IHr IHi]].
  { split; [intros tok rid|intros tok rid _]; intros c r c' [= <- <-];
      reflexivity. }
  assert (∀ tok rid, tok ≠ t0 →
            preserves (guards t0) (resolveInternal env (S fuel) tok rid))
    as Hi.
  { intros tok rid Hne.
    apply (resolveInternal_frame env (guards t0) (λ t, t ≠ t0)); try done.
    - intros t v c c1 Ht _ Hc1 Hin. destruct (Hc1 Hin) as [Hin1 (Hp & Hs & Hr)].
      split; [done|]. split; [done|]. split; [|done]. simpl.
      by rewrite lookup_insert_ne.
    - intros t rid' v c c1 Ht _ Hc1 Hin.
      destruct (Hc1 Hin) as [Hin1 (Hp & Hs & Hr)].
      split; [done|]. split; [done|]. split; [done|].
      intros r. rewrite stored_insert.
      destruct (decide _) as [[_ ?]|]; [congruence | apply Hr].
    - intros rid' c Hnone Hin. split; [done|]. split; [done|]. split; [done|].
      intros r. by apply stored_new_bucket.
    - intros cl s c Ht _ Hin. split; [by rewrite register_stack|].
      split; [|split].
      + rewrite register_providers. by rewrite lookup_insert_ne.
      + by rewrite register_singletons.
      + intros r. apply stored_same, register_requestInstances.
    - intros r. by apply IHi. }
  split; [|exact Hi].
  intros tok rid c r c' Hr Hin.
  destruct (decide (tok = t0)) as [->|Hne].
  { revert Hr. simpl. rewrite bool_decide_eq_true_2 by done.
    intros [= <- <-]. split; [done | reflexivity]. }
  revert Hin. revert r c' Hr.
  apply (resolve_frame env (guards t0)); try done.
  - intros t c0 c1 Hnotin Hc1 Hin.
    destruct Hc1 as [Hin1 (Hp & Hs & Hr)]; [by apply stack_add_elem|].
    split.
    + apply stack_delete_elem; [done|]. intros ->. done.
    + by split; [|split].
  - intros _. by apply IHi.
Qed.

Lemma register_nothing_deferred tok p c : nothing_deferred c (register tok p c).
Proof.
  intros Hoff. unfold register.
  destruct (JsMap.has _ _); split_and!; try done. simpl.
  intros k Hk. by apply jsmap_keys_delete_elem in Hk as [? _].
Qed.

Lemma resolve_nothing_deferred_both fuel :
  (∀ tok rid, preserves nothing_deferred (resolve env fuel tok rid))
  ∧ (∀ tok rid, preserves nothing_deferred (resolveInternal env fuel tok rid)).
Proof.
  induction fuel as [|fuel [IHr IHi]].
  { split; intros tok rid c r c' [= <- <-]; reflexivity. }
  assert (∀ tok rid,
            preserves nothing_deferred (resolveInternal env (S fuel) tok rid))
    as Hi.
  { intros tok rid.
    apply (resolveInternal_frame env nothing_deferred (λ _, True)); try done.
    intros cl s c _ _. apply register_nothing_deferred. }
  split; [|exact Hi].
  intros tok rid c r c'. simpl.
  case_bool_decide as Hstack; [by intros [= <- <-]|].
  unfold try_finally, try_catch, mbind, M_bind, bind, modify.
  destruct (resolveInternal env fuel tok rid _) as [[v|e|] c1] eqn:Hint;
    apply IHi in Hint; intros Hr Hoff;
    destruct (Hint Hoff) as (Hoff1 & Hp & Ht & Hk).
  - by injection Hr as <- <-.
  - rewrite Hoff1 in Hr. simpl in Hr. by injection Hr as <- <-.
  - by injection Hr as <- <-.
Qed.
End Kept.

Section KeptFacts.
Variable env : Env.

Lemma tryAutoRegister_false cl c c' :
  tryAutoRegister env cl c = (false, c') → c' = c.
Proof.
  unfold tryAutoRegister. repeat case_bool_decide; by intros [= <-].
Qed.

Lemma tryAutoRegister_true cl c c' :
  tryAutoRegister env cl c = (true, c') →
  ∃ s, c' = register (TClass cl) (classProvider cl s) c.
Proof.
  unfold tryAutoRegister.
  repeat case_bool_decide; intros [= <-]; by eexists.
Qed.

Lemma register_same_cached t tok p c : same_cached t c (register tok p c).
Proof.
  split; [by rewrite register_singletons|].
  intros rid. apply stored_same, register_requestInstances.
Qed.

Lemma createInstance_guards fuel tok target rid c r c' :
  tok ∈ resolutionStack c →
  createInstance env (resolve env fuel) target rid c = (r, c') →
  tok ∈ resolutionStack c' ∧ same_cached tok c c'.
Proof.
  intros Hin Hnew.
  eapply (createInstance_frame env (guards tok)) in Hnew.
  - destruct (Hnew Hin) as [Hin' [_ Hc]]. done.
  - intros o c0. by apply guards_same.
  - intros t r0. apply resolve_guards_both.
Qed.

(** A resolution of [tok] that does not return has cached nothing for
    [tok]. *)
Lemma resolveInternal_failed fuel tok rid c r c' :
  tok ∈ resolutionStack c →
  resolveInternal env fuel tok rid c = (r, c') →
  (∀ v, r ≠ Return v) → same_cached tok c c'.
Proof.
  revert c. induction fuel as [|fuel IH]; intros c Hin.
  { intros [= <- <-] _. reflexivity. }
  simpl. destruct (providers c !! tok) as [provider|] eqn:Hp.
  - destruct (useValue provider). { intros [= <- <-] Hr. by destruct (Hr v). }
    destruct (useFactory provider) as [f|].
    { intros Hf _. destruct f; simpl in Hf.
      - unfold construct in Hf. destruct (cls_ctor_throws _);
          injection Hf as <- <-; by split.
      - injection Hf as <- <-. reflexivity.
      - injection Hf as <- <-. reflexivity. }
    destruct (useClass provider) as [target|];
      [|intros [= <- <-] _; reflexivity].
    destruct (default singleton (scope provider)).
    + unfold resolveSingleton. destruct (singletons c !! tok) as [v|].
      { intros [= <- <-] Hr. by destruct (Hr v). }
      unfold mbind, M_bind, bind.
      destruct (createInstance _ _ _ _ c) as [[inst|e|] c1] eqn:Hnew;
        apply (createInstance_guards _ tok) in Hnew as [_ Hc]; try done;
        intros [= <- <-] Hr; [by destruct (Hr inst) | done | done].
    + unfold resolveTransient. intros Hnew _.
      by apply (createInstance_guards _ tok) in Hnew as [_ Hc].
    + assert (∀ rid' c0,
        tok ∈ resolutionStack c0 →
        resolveRequest env (resolve env fuel) tok target rid' c0 = (r, c') →
        (∀ v, r ≠ Return v) → same_cached tok c0 c') as Hreq.
      { intros rid' c0 Hin0. unfold resolveRequest.
        set (c1 := match requestInstances c0 !! rid' with
                   | Some _ => c0
                   | None => set_requestInstances (<[rid' := ∅]>) c0
                   end).
        assert (same_cached tok c0 c1 ∧ tok ∈ resolutionStack c1) as [Hc1 Hin1].
        { subst c1. destruct (requestInstances c0 !! rid') eqn:Hb;
            [by split|]. split; [|done]. split; [done|].
          intros r0. by apply stored_new_bucket. }
        destruct (requestInstances c1 !! rid' ≫= _) as [v|].
        { intros [= <- <-] Hr. by destruct (Hr v). }
        unfold mbind at 1, M_bind, bind.
        destruct (createInstance _ _ _ _ c1) as [[inst|e|] c2] eqn:Hnew;
          apply (createInstance_guards _ tok) in Hnew as [_ Hc]; try done;
          intros [= <- <-] Hr; [by destruct (Hr inst) | by etrans..]. }
      destruct rid as [rid|]; [by apply Hreq|].
      intros Hr Hnot. apply Hreq in Hr; [|done|done].
      destruct Hr as [Hs Hst]. by split.
    + intros [= <- <-] _. reflexivity.
  - destruct tok as [cl| |]; try (intros [= <- <-] _; reflexivity).
    destruct (tryAutoRegister env cl c) as [[] c1] eqn:Hauto.
    + apply tryAutoRegister_true in Hauto as [s ->]. intros Hr Hnot.
      etrans; [apply register_same_cached|].
      eapply IH; [|exact Hr|exact Hnot]. by rewrite register_stack.
    + apply tryAutoRegister_false in Hauto as ->.
      intros [= <- <-] _. reflexivity.
Qed.

Lemma handleDeferredResolution_same_cached t tok rid error c r c' :
  handleDeferredResolution env tok rid error c = (r, c') →
  same_cached t c c'.
Proof.
  unfold handleDeferredResolution, newPromise, setTimeout.
  destruct (JsMap.get tok (pendingResolutions c)) as [pd|];
    [destruct (3 <=? attempts pd)|]; intros [= <- <-]; by split.
Qed.
End KeptFacts.

Section Transient.
Variable env : Env.

Lemma stack_add_in t st : t ∈ stack_add t st.
Proof.
  unfold stack_add. destruct (decide _); [done|].
  apply elem_of_app. right. by apply list_elem_of_singleton.
Qed.

Lemma createInstance_undisturbed fuel target rid :
  preserves undisturbed (createInstance env (resolve env fuel) target rid).
Proof.
  apply (createInstance_frame env undisturbed).
  - intros o c. split_and!; try done. simpl. by apply prefix_app_r.
  - intros t r. apply resolve_undisturbed.
Qed.

Lemma construct_returns target args c v c' :
  construct env target args c = (Return v, c') →
  v = VObj (length (heap c)) ∧ heap c' = heap c ++ [mkObj target args]
  ∧ c' = set_heap (λ h, h ++ [mkObj target args]) c.
Proof.
  unfold construct. destruct (cls_ctor_throws _); [done|].
  by intros [= <- <-].
Qed.

Lemma mapM_length {St A B} (f : A → M St B) xs c ys c' :
  mapM f xs c = (Return ys, c') → length ys = length xs.
Proof.
  revert c ys c'. induction xs as [|x xs IH]; intros c ys c'; simpl.
  - intros Hnil. by injection Hnil as <- _.
  - unfold mbind, M_bind, bind.
    destruct (f x c) as [[y|e|] c1]; [|done..].
    destruct (mapM f xs c1) as [[ys'|e|] c2] eqn:Hrest; [|done..].
    intros Hcons. injection Hcons as <- _. simpl. f_equal. by eapply IH.
Qed.

Lemma createInstance_returns fuel target rid c v c' :
  createInstance env (resolve env fuel) target rid c = (Return v, c') →
  ∃ a args, v = VObj a ∧ length (heap c) ≤ a
            ∧ heap c' !! a = Some (mkObj target args)
            ∧ length args = length (cls_paramtypes (classes env target)).
Proof.
  unfold createInstance, mbind, M_bind, bind.
  destruct (mapM _ _ c) as [[args|e|] cm] eqn:Hargs; [|done..].
  intros Hnew. apply construct_returns in Hnew as (-> & Hheap & _).
  exists (length (heap cm)), args. split_and!; [done| | |].
  - eapply (preserves_mapM undisturbed) in Hargs;
      [|intros dep; apply resolve_undisturbed].
    destruct Hargs as (_ & _ & _ & _ & Hpre). by apply prefix_length.
  - rewrite Hheap. by apply list_lookup_middle.
  - by eapply mapM_length.
Qed.

Lemma handleDeferredResolution_returns tok rid error c v c' :
  handleDeferredResolution env tok rid error c = (Return v, c') →
  v = VPromise (length (promises c))
  ∧ promises c' = promises c ++ [PPending].
Proof.
  unfold handleDeferredResolution, newPromise, setTimeout.
  destruct (JsMap.get tok (pendingResolutions c)) as [pd|];
    [destruct (3 <=? attempts pd)|]; intros [= <- <-]; done.
Qed.

(** What a transient resolution returns: an object built by this call, or
    the promise of a deferred resolution made by this call. *)
Lemma resolve_transient_result fuel tok rid c p target v c' :
  providers c !! tok = Some p → class_provider_of p target transient →
  resolve env fuel tok rid c = (Return v, c') →
  same_cached tok c c'
  ∧ ((∃ a args, v = VObj a ∧ length (heap c) ≤ a
                ∧ heap c' !! a = Some (mkObj target args))
     ∨ (∃ q, v = VPromise q ∧ length (promises c) ≤ q
             ∧ promises c' !! q = Some PPending)).
Proof.
  intros Hp (Hv & Hf & Hc & Hs).
  destruct fuel as [|fuel]; [done|]. simpl.
  case_bool_decide as Hstack; [done|].
  unfold try_finally, try_catch, mbind, M_bind, bind, modify.
  set (c0 := set_resolutionStack (stack_add tok) c).
  destruct (resolveInternal env fuel tok rid c0) as [[v1|e|] c1] eqn:Hint;
    [| |done].
  - intros [= <- <-]. destruct fuel as [|fuel]; [done|].
    simpl in Hint. subst c0. simpl in Hint.
    rewrite Hp, Hv, Hf, Hc, Hs in Hint. unfold resolveTransient in Hint.
    split.
    + apply (createInstance_guards env _ tok) in Hint as [_ [Hsg Hst]];
        [by split | apply stack_add_in].
    + left. apply createInstance_returns in Hint as (a & args & -> & Hle & Hat & _).
      by exists a, args.
  - assert (same_cached tok c c1 ∧ promises c `prefix_of` promises c1)
      as [Hc1 Hpre].
    { destruct fuel as [|fuel]; [done|].
      simpl in Hint. subst c0. simpl in Hint.
      rewrite Hp, Hv, Hf, Hc, Hs in Hint. unfold resolveTransient in Hint.
      split.
      - apply (createInstance_guards env _ tok) in Hint as [_ [Hsg Hst]];
          [by split | apply stack_add_in].
      - apply createInstance_undisturbed in Hint.
        by destruct Hint as (_ & _ & _ & Hpre & _). }
    destruct (_ && _); [|done].
    destruct (handleDeferredResolution env tok rid e c1) as [[v2|e2|] c2] eqn:Hd;
      [|done..].
    intros [= <- <-].
    pose proof (handleDeferredResolution_same_cached env tok _ _ _ _ _ _ Hd) as Hc2.
    apply handleDeferredResolution_returns in Hd as [-> Hps].
    split.
    + destruct Hc1 as [Hs1 Hr1], Hc2 as [Hs2 Hr2].
      split; [simpl; congruence|]. intros r. by rewrite <- Hr1, <- Hr2.
    + right. exists (length (promises c1)). split_and!; [done| |].
      * by apply prefix_length.
      * simpl. rewrite Hps. by apply list_lookup_middle.
Qed.
End Transient.

Section ResolutionKeeps.
Variable env : Env.

(** X1. [resolve] leaves the resolution stack as it found it, on every
    way out: a value returned, an error thrown (also by a nested
    resolution), a resolution deferred. *)
Theorem resolve_restores_stack fuel tok rid c :
  resolutionStack (resolve env fuel tok rid c).2 = resolutionStack c.
Proof.
  destruct (resolve env fuel tok rid c) as [r c'] eqn:Hr.
  by apply resolve_same_stack in Hr.
Qed.

(** X2. [resolve] never switches deferred resolution on or off, never
    moves the clock, never cancels a timer that is scheduled, never settles
    or drops a promise, and never changes an object that exists: timers,
    promises and objects are only added at the end. *)
Theorem resolve_leaves_runtime_alone fuel tok rid c :
  let c' := (resolve env fuel tok rid c).2 in
  enableDeferredResolution c' = enableDeferredResolution c
  ∧ now c' = now c
  ∧ timers c `prefix_of` timers c'
  ∧ promises c `prefix_of` promises c'
  ∧ heap c `prefix_of` heap c'.
Proof.
  intros c'. subst c'. destruct (resolve env fuel tok rid c) as [r c'] eqn:Hr.
  by apply resolve_undisturbed in Hr.
Qed.

(** X3. [resolve] never removes or replaces a registered provider, a
    cached singleton or an instance cached for a request, whatever token it
    resolves and however it ends; so the counts of [getStats] never go
    down. *)
Theorem resolve_keeps_cached_instances fuel tok rid c :
  let c' := (resolve env fuel tok rid c).2 in
  providers c ⊆ providers c'
  ∧ singletons c ⊆ singletons c'
  ∧ (∀ r t v, stored c r t = Some v → stored c' r t = Some v)
  ∧ stat_providers (getStats c) ≤ stat_providers (getStats c')
  ∧ stat_singletons (getStats c) ≤ stat_singletons (getStats c')
  ∧ stat_activeRequests (getStats c) ≤ stat_activeRequests (getStats c').
Proof.
  intros c'. subst c'. destruct (resolve env fuel tok rid c) as [r c'] eqn:Hr.
  pose proof Hr as Hgrows. apply resolve_grows in Hgrows as (_ & _ & _ & Hdom & _).
  apply resolve_keeps_caches_both in Hr as (Hp & Hs & Hst).
  split_and!; try done; simpl.
  - by apply map_subseteq_size.
  - by apply map_subseteq_size.
  - rewrite <- !size_dom. by apply subseteq_size.
Qed.

(** X4. A resolution that throws leaves no instance cached for its token:
    the singleton entry and the request entries of the token are as they
    were before the call, also when dependencies were built and cached on
    the way. *)
Theorem failed_resolve_caches_nothing fuel tok rid c e c' :
  resolve env fuel tok rid c = (Throw e, c') →
  singletons c' !! tok = singletons c !! tok
  ∧ ∀ r, stored c' r tok = stored c r tok.
Proof.
  destruct fuel as [|fuel]; [done|]. simpl.
  case_bool_decide as Hstack; [by intros [= <- <-]|].
  unfold try_finally, try_catch, mbind, M_bind, bind, modify.
  set (c0 := set_resolutionStack (stack_add tok) c).
  destruct (resolveInternal env fuel tok rid c0) as [[v|e1|] c1] eqn:Hint;
    [done| |done].
  apply resolveInternal_failed in Hint as [Hs Hr];
    [|apply stack_add_in|done].
  assert (∀ r, stored c1 r tok = stored c r tok) as Hr1.
  { intros r. rewrite Hr. apply stored_stack. }
  subst c0. simpl in Hs. clear Hr.
  destruct (_ && _).
  - destruct (handleDeferredResolution env tok rid e1 c1) as [r2 c2] eqn:Hd.
    apply (handleDeferredResolution_same_cached env tok) in Hd as [Hs2 Hr2].
    intros [= _ <-]. split; [simpl; congruence|].
    intros r. rewrite <- Hr1, <- Hr2. apply stored_stack.
  - intros [= _ <-]. split; [done|]. intros r. rewrite <- Hr1. apply stored_stack.
Qed.

(** X5. A token registered as a class provider of transient scope is
    built anew by every resolution: two resolutions that return, one after
    the other, return different values, and nothing is cached for the
    token. *)
Theorem transient_resolved_anew fuel1 fuel2 tok rid1 rid2 c p target
    v1 c1 v2 c2 :
  providers c !! tok = Some p → class_provider_of p target transient →
  resolve env fuel1 tok rid1 c = (Return v1, c1) →
  resolve env fuel2 tok rid2 c1 = (Return v2, c2) →
  v1 ≠ v2
  ∧ singletons c2 !! tok = singletons c !! tok
  ∧ ∀ r, stored c2 r tok = stored c r tok.
Proof.
  intros Hp Hclass H1 H2.
  assert (providers c1 !! tok = Some p) as Hp1.
  { pose proof H1 as Hk. apply resolve_keeps_caches_both in Hk as (Hsub & _).
    by eapply lookup_weaken. }
  eapply resolve_transient_result in H1 as [[Hs1 Hr1] Hv1]; [|done..].
  eapply resolve_transient_result in H2 as [[Hs2 Hr2] Hv2]; [|done..].
  split; [|split; [congruence | intros r; by rewrite Hr2, Hr1]].
  destruct Hv1 as [(a1 & args1 & -> & _ & Hat1)|(q1 & -> & _ & Hat1)],
           Hv2 as [(a2 & args2 & -> & Hle2 & _)|(q2 & -> & Hle2 & _)];
    try done.
  - apply lookup_lt_Some in Hat1. intros [= ->]. lia.
  - apply lookup_lt_Some in Hat1. intros [= ->]. lia.
Qed.

(** X8. With deferred resolution switched off, [resolve] creates no
    promise, schedules no timer and adds no pending record, whatever it
    resolves and however nested resolutions end. *)
Theorem no_deferral_when_disabled fuel tok rid c :
  enableDeferredResolution c = false →
  let c' := (resolve env fuel tok rid c).2 in
  enableDeferredResolution c' = false
  ∧ promises c' = promises c
  ∧ timers c' = timers c
  ∧ JsMap.keys (pendingResolutions c') ⊆ JsMap.keys (pendingResolutions c).
Proof.
  intros Hoff c'. subst c'.
  destruct (resolve env fuel tok rid c) as [r c'] eqn:Hr.
  apply resolve_nothing_deferred_both in Hr. by apply Hr.
Qed.
End ResolutionKeeps.

Section Registration.
Variable env : Env.

Lemma handleDeferredResolution_providers tok rid error c r c' :
  handleDeferredResolution env tok rid error c = (r, c') →
  providers c' = providers c.
Proof.
  unfold handleDeferredResolution, newPromise, setTimeout.
  destruct (JsMap.get tok (pendingResolutions c)) as [pd|];
    [destruct (3 <=? attempts pd)|]; by intros [= <- <-].
Qed.

(** The provider that auto-registration stores is there when [resolve]
    ends. *)
Lemma resolve_unregistered_class fuel cl rid c s :
  providers c !! TClass cl = None → TClass cl ∉ resolutionStack c →
  (∀ c0, tryAutoRegister env cl c0
         = (true, register (TClass cl) (classProvider cl s) c0)) →
  providers (resolve env (2 + fuel) (TClass cl) rid c).2 !! TClass cl
  = Some (classProvider cl s).
Proof.
  intros Hp Hstack Hauto. change (2 + fuel) with (S (S fuel)).
  rewrite resolve_enter by done.
  unfold try_finally, try_catch, mbind, M_bind, bind, modify.
  set (c0 := set_resolutionStack (stack_add (TClass cl)) c).
  cbn [resolveInternal].
  change (providers c0) with (providers c). rewrite Hp, Hauto.
  destruct (resolveInternal env fuel (TClass cl) rid _) as [r1 c1] eqn:Hint.
  assert (providers c1 !! TClass cl = Some (classProvider cl s)) as Hp1.
  { apply resolveInternal_grows in Hint as (Hsub & _).
    eapply lookup_weaken; [|exact Hsub].
    rewrite register_providers. apply lookup_insert_eq. }
  destruct r1 as [v|e|]; simpl; try done.
  destruct (_ && _); [|done].
  destruct (handleDeferredResolution env (TClass cl) rid e c1) as [r2 c2] eqn:Hd.
  apply handleDeferredResolution_providers in Hd. simpl. by rewrite Hd.
Qed.

(** X6. Resolving a class that has no provider registers it from its
    decorator, whatever the resolution then returns or throws: as a class
    provider whose scope is the one of [@Service]; failing that, the scope
    stored by [@Controller] or singleton; failing that, the scope of
    [@Processor]; and singleton for a [@Configuration] or the
    [@Application] class.  A class without decorator gets no provider. *)
Theorem resolve_registers_decorated_class fuel cl rid c :
  providers c !! TClass cl = None → TClass cl ∉ resolutionStack c →
  let c' := (resolve env (2 + fuel) (TClass cl) rid c).2 in
  (cl ∈ services env →
   providers c' !! TClass cl
   = Some (classProvider cl (getServiceScope env cl)))
  ∧ (cl ∉ services env → cl ∈ controllers env →
     providers c' !! TClass cl
     = Some (classProvider cl (default singleton (getControllerScope env cl))))
  ∧ (cl ∉ services env → cl ∉ controllers env → cl ∈ processors env →
     providers c' !! TClass cl
     = Some (classProvider cl (getProcessorScope env cl)))
  ∧ (cl ∉ services env → cl ∉ controllers env → cl ∉ processors env →
     cl ∈ configurations env ∨ application env = Some cl →
     providers c' !! TClass cl = Some (classProvider cl singleton))
  ∧ (undecorated env (TClass cl) → providers c' = providers c).
Proof.
  intros Hp Hstack c'. subst c'. split_and!.
  - intros Hs. apply resolve_unregistered_class; [done..|].
    intros c0. unfold tryAutoRegister. by rewrite bool_decide_eq_true_2.
  - intros Hs Hc. apply resolve_unregistered_class; [done..|].
    intros c0. unfold tryAutoRegister.
    rewrite bool_decide_eq_false_2 by done. by rewrite bool_decide_eq_true_2.
  - intros Hs Hc Hpr. apply resolve_unregistered_class; [done..|].
    intros c0. unfold tryAutoRegister.
    rewrite !bool_decide_eq_false_2 by done. by rewrite bool_decide_eq_true_2.
  - intros Hs Hc Hpr Hca. apply resolve_unregistered_class; [done..|].
    intros c0. unfold tryAutoRegister.
    rewrite (bool_decide_eq_false_2 (cl ∈ services env)) by done.
    rewrite (bool_decide_eq_false_2 (cl ∈ controllers env)) by done.
    rewrite (bool_decide_eq_false_2 (cl ∈ processors env)) by done.
    destruct Hca as [Hconf|Happ].
    + by rewrite bool_decide_eq_true_2.
    + case_bool_decide; [done|]. by rewrite bool_decide_eq_true_2.
  - intros Hun. change (2 + fuel) with (S (S fuel)).
    rewrite resolve_unresolved by done.
    destruct (_ && _); [|done].
    destruct (handleDeferredResolution _ _ _ _ c) as [r2 c2] eqn:Hd.
    by apply handleDeferredResolution_providers in Hd.
Qed.

(** X7. Registering a token again does not touch the singleton cache: when
    the new provider is a singleton class, [resolve] goes on returning the
    instance cached before and the new class is never constructed; when it
    is a value, [resolve] returns the value at once. *)
Theorem reregistered_class_keeps_cached_singleton fuel tok rid c v p' :
  singletons c !! tok = Some v → tok ∉ resolutionStack c →
  let c' := register tok p' c in
  (∀ target, class_provider_of p' target singleton →
     resolve env (2 + fuel) tok rid c' = (Return v, c'))
  ∧ (∀ v', useValue p' = Some v' →
       resolve env (2 + fuel) tok rid c' = (Return v', c')).
Proof.
  intros Hs Hstack c'.
  assert (providers c' !! tok = Some p') as Hp'.
  { subst c'. rewrite register_providers. apply lookup_insert_eq. }
  assert (singletons c' !! tok = Some v) as Hs'.
  { subst c'. by rewrite register_singletons. }
  assert (tok ∉ resolutionStack c') as Hstack'.
  { subst c'. by rewrite register_stack. }
  split.
  - intros target Hclass. by eapply resolve_cached_singleton.
  - intros v' Hv'. by eapply resolve_value_provider.
Qed.
End Registration.

Section Rescue.
Variable env : Env.

Lemma settle_pending p st c :
  promises c !! p = Some PPending →
  promises (settle p st c) !! p = Some st.
Proof.
  intros Hp. unfold settle. rewrite Hp. cbn [promises set_promises].
  apply list_lookup_insert_eq. by eapply lookup_lt_Some.
Qed.

Lemma resolvePromise_runtime p v c :
  providers (resolvePromise p v c) = providers c
  ∧ resolutionStack (resolvePromise p v c) = resolutionStack c
  ∧ timers (resolvePromise p v c) = timers c
  ∧ now (resolvePromise p v c) = now c
  ∧ pendingResolutions (resolvePromise p v c) = pendingResolutions c.
Proof.
  unfold resolvePromise, settle. by repeat case_match.
Qed.

(** X9. A resolution deferred for a token without provider is rescued by
    a later [register]: when the token is registered with a value before
    the first retry, the retry 50 ms later resolves the promise that
    [resolve] returned with that value, no second retry is scheduled, no
    pending record is left, and [resolve] now returns the value.  A value
    that is not a promise fulfils the promise; when the value is that
    promise itself, the promise is rejected with the [TypeError] of a
    chaining cycle; when it is another promise, the promise follows it. *)
Theorem late_registration_fulfils_promise fuel tok rid c p' v :
  providers c !! tok = None → undecorated env tok →
  isInitializationError (unresolvedProviderError env tok c) = true →
  tok ∉ resolutionStack c →
  enableDeferredResolution c = true →
  JsMap.get tok (pendingResolutions c) = None → timers c = [] →
  useValue p' = Some v →
  let p := length (promises c) in
  let r1 := resolve env (2 + fuel) tok rid c in
  let c2 := register tok p' r1.2 in
  let r3 := runNextTimer env (1 + fuel) c2 in
  r1.1 = Return (VPromise p)
  ∧ promises r1.2 !! p = Some PPending
  ∧ JsMap.has tok (pendingResolutions r1.2) = true
  ∧ r3.1 = Return tt
  ∧ ((∀ q, v ≠ VPromise q) → promises r3.2 !! p = Some (PFulfilled v))
  ∧ (v = VPromise p →
       promises r3.2 !! p = Some (PRejected selfResolutionError))
  ∧ (∀ q, v = VPromise q → q ≠ p → promises r3.2 !! p = Some (PLocked q))
  ∧ timers r3.2 = []
  ∧ now r3.2 = now c + 50
  ∧ JsMap.has tok (pendingResolutions r3.2) = false
  ∧ resolve env (2 + fuel) tok rid r3.2 = (Return v, r3.2).
Proof.
  intros Hp Hun Hinit Hstack Hon Hpending Htimers Hv p r1 c2 r3.
  assert (r1 = handleDeferredResolution env tok rid
                 (unresolvedProviderError env tok c) c) as Hr1.
  { subst r1. change (2 + fuel) with (S (S fuel)).
    rewrite resolve_unresolved by done. by rewrite Hon, Hinit. }
  unfold handleDeferredResolution, newPromise, setTimeout in Hr1.
  rewrite Hpending in Hr1. cbn [promises set_pendingResolutions] in Hr1.
  fold p in Hr1.
  set (record := {| token := tok; attempts := default 0 (attempts <$> None) + 1;
                    lastError := unresolvedProviderError env tok c;
                    dependencies := extractDependencies env tok |}) in Hr1.
  assert (JsMap.has tok (JsMap.set tok record (pendingResolutions c)) = true)
    as Hhas.
  { apply jsmap_has_get. rewrite jsmap_get_set_eq. by eexists. }
  assert (promises r1.2 = promises c ++ [PPending]) as Hps.
  { by rewrite Hr1. }
  set (c3 := set_pendingResolutions (JsMap.delete tok)
               (set_now (Nat.max (now c2) (now c + 50))
                  (set_timers (λ _, []) c2))).
  assert (r3 = (Return tt, resolvePromise p v c3)) as Hr3.
  { subst r3 c3. unfold runNextTimer.
    assert (timers c2 = [mkTimer (now c + 50) (RetryFirst tok rid None p)])
      as ->.
    { subst c2. rewrite (proj1 (proj2 (register_runtime _ _ _))).
      rewrite Hr1. cbn. by rewrite Htimers. }
    cbn [pop_earliest due task]. unfold runTask. cbn [Nat.add resolveInternal].
    assert (providers c2 !! tok = Some p') as Hp2.
    { subst c2. rewrite register_providers. apply lookup_insert_eq. }
    cbn [providers set_now set_timers]. by rewrite Hp2, Hv. }
  assert (promises c2 = promises c ++ [PPending]) as Hps2.
  { subst c2. rewrite <- Hps. apply register_runtime. }
  assert (now c2 = now c) as Hnow.
  { subst c2. rewrite (proj1 (proj2 (proj2 (register_runtime _ _ _)))).
    by rewrite Hr1. }
  assert (promises c3 !! p = Some PPending) as Hp3.
  { subst c3. cbn [promises set_pendingResolutions set_now set_timers].
    rewrite Hps2. subst p. by apply list_lookup_middle. }
  destruct (resolvePromise_runtime p v c3)
    as (Hprov & Hstk & Htim & Hclock & Hpend).
  split_and!.
  - by rewrite Hr1.
  - rewrite Hps. subst p. by apply list_lookup_middle.
  - by rewrite Hr1.
  - by rewrite Hr3.
  - intros Hvalue. rewrite Hr3. cbn [snd].
    assert (resolvePromise p v c3 = settle p (PFulfilled v) c3) as ->
      by (destruct v; try done; by edestruct Hvalue).
    by apply settle_pending.
  - intros ->. rewrite Hr3. cbn [snd]. unfold resolvePromise.
    rewrite decide_True by done. by apply settle_pending.
  - intros q -> Hq. rewrite Hr3. cbn [snd]. unfold resolvePromise.
    rewrite decide_False by done. by apply settle_pending.
  - rewrite Hr3. cbn [snd]. by rewrite Htim.
  - rewrite Hr3. cbn [snd]. rewrite Hclock. subst c3. cbn. lia.
  - rewrite Hr3. cbn [snd]. rewrite Hpend. subst c3.
    cbn [pendingResolutions set_pendingResolutions set_now set_timers].
    apply not_true_is_false. intros Hstill.
    apply jsmap_has_get in Hstill as [x Hx].
    by rewrite jsmap_get_delete_eq in Hx.
  - rewrite Hr3. cbn [snd]. change (2 + fuel) with (S (S fuel)).
    eapply resolve_value_provider; [|exact Hv|].
    + rewrite Hprov. subst c3. cbn.
      subst c2. rewrite register_providers. apply lookup_insert_eq.
    + rewrite Hstk. subst c3. cbn.
      subst c2. rewrite register_stack, Hr1. cbn. done.
Qed.
End Rescue.

(** ** Termination *)

Section Termination.
Variable env : Env.
Variable U : list nat.
Hypothesis U_closed : closed_classes env U.

Lemma closed_classes_dep cl dep :
  cl ∈ U → dep ∈ cls_paramtypes (classes env cl) → dep ∈ U.
Proof.
  intros Hcl Hdep. unfold closed_classes in U_closed.
  rewrite Forall_forall in U_closed. specialize (U_closed cl Hcl).
  rewrite Forall_forall in U_closed. by apply U_closed.
Qed.

Lemma filter_length_mono {A} (P Q : A → Prop)
    `{∀ x, Decision (P x)} `{∀ x, Decision (Q x)} (l : list A) :
  (∀ x, P x → Q x) → length (filter P l) ≤ length (filter Q l).
Proof.
  intros HPQ. induction l as [|x l IH]; [done|].
  rewrite !filter_cons. destruct (decide (P x)) as [HP|HP].
  - rewrite decide_True by auto. simpl. lia.
  - destruct (decide (Q x)); simpl; lia.
Qed.

Lemma filter_length_lt {A} (P Q : A → Prop)
    `{∀ x, Decision (P x)} `{∀ x, Decision (Q x)} (l : list A) x0 :
  (∀ x, P x → Q x) → x0 ∈ l → Q x0 → ¬ P x0 →
  length (filter P l) < length (filter Q l).
Proof.
  intros HPQ Hin HQ HP. induction l as [|x l IH]; [by apply elem_of_nil in Hin|].
  rewrite !filter_cons. apply elem_of_cons in Hin as [<-|Hin].
  - rewrite decide_False by done. rewrite decide_True by done. simpl.
    pose proof (filter_length_mono P Q l HPQ). lia.
  - specialize (IH Hin). destruct (decide (P x)) as [HPx|HPx].
    + rewrite decide_True by auto. simpl. lia.
    + destruct (decide (Q x)); simpl; lia.
Qed.

Lemma free_classes_length st : length (free_classes U st) ≤ length U.
Proof. apply length_filter. Qed.

Lemma free_classes_enter tok st :
  length (free_classes U (stack_add tok st)) ≤ length (free_classes U st).
Proof.
  apply filter_length_mono. intros d Hd Hin. apply Hd.
  by apply stack_add_elem.
Qed.

Lemma free_classes_enter_class d st :
  d ∈ U → TClass d ∉ st →
  length (free_classes U (stack_add (TClass d) st))
  < length (free_classes U st).
Proof.
  intros Hd Hnotin. apply (filter_length_lt _ _ _ d); [|done|done|].
  - intros d' Hd' Hin. apply Hd'. by apply stack_add_elem.
  - intros Hfree. apply Hfree, stack_add_in.
Qed.

Lemma targets_in_same c c' :
  providers c' = providers c → targets_in U c → targets_in U c'.
Proof. unfold targets_in. by intros ->. Qed.

Lemma targets_in_register cl s c :
  cl ∈ U → targets_in U c →
  targets_in U (register (TClass cl) (classProvider cl s) c).
Proof.
  intros Hcl Hc. unfold targets_in. rewrite register_providers.
  apply map_Forall_insert_2; [|done].
  intros target [= <-]. done.
Qed.

Lemma finished_throw {A} (e : Error) c :
  targets_in U c → finished (A := A) U (Throw e, c).
Proof. by split. Qed.

Lemma finished_return {A} (a : A) c :
  targets_in U c → finished U (Return a, c).
Proof. by split. Qed.

Lemma construct_finished target args c :
  targets_in U c → finished U (construct env target args c).
Proof.
  intros Hc. unfold construct. by destruct (cls_ctor_throws _); split.
Qed.

Section Level.
(** The resolutions of the level below return, from any container with the
    stack [st]. *)
Variable fuel : nat.
Variable st : list Token.
Hypothesis rec_finished : ∀ d rid c,
  d ∈ U → targets_in U c → resolutionStack c = st →
  finished U (resolve env fuel (TClass d) rid c).

Lemma mapM_finished deps rid c :
  Forall (λ d, d ∈ U) deps → targets_in U c → resolutionStack c = st →
  finished U (mapM (λ dep, resolve env fuel (TClass dep) rid) deps c).
Proof.
  intros Hdeps. revert c. induction Hdeps as [|d deps Hd Hdeps IH];
    intros c Hc Hst; simpl.
  { by apply finished_return. }
  unfold mbind, M_bind, bind.
  pose proof (rec_finished d rid c Hd Hc Hst) as [Hr Hc1].
  destruct (resolve env fuel (TClass d) rid c) as [[y|e|] c1] eqn:Hdep;
    simpl in *; [|by split|done].
  apply resolve_same_stack in Hdep. unfold same_stack in Hdep.
  specialize (IH c1 Hc1 ltac:(congruence)) as [Hr2 Hc2].
  destruct (mapM _ deps c1) as [[ys|e|] c2]; simpl in *; by split.
Qed.

Lemma createInstance_finished target rid c :
  target ∈ U → targets_in U c → resolutionStack c = st →
  finished U (createInstance env (resolve env fuel) target rid c).
Proof.
  intros Ht Hc Hst. unfold createInstance, mbind, M_bind, bind.
  pose proof (mapM_finished (cls_paramtypes (classes env target)) rid c)
    as [Hr Hc1]; [|done|done|].
  { apply Forall_forall. intros dep. by apply closed_classes_dep. }
  destruct (mapM _ _ c) as [[args|e|] c1]; simpl in *; [|by split|done].
  by apply construct_finished.
Qed.

Lemma resolveRequest_finished tok target rid c :
  target ∈ U → targets_in U c → resolutionStack c = st →
  finished U (resolveRequest env (resolve env fuel) tok target rid c).
Proof.
  intros Ht Hc Hst. unfold resolveRequest.
  set (c1 := match requestInstances c !! rid with
             | Some _ => c
             | None => set_requestInstances (<[rid := ∅]>) c
             end).
  assert (targets_in U c1 ∧ resolutionStack c1 = st) as [Hc1 Hst1].
  { subst c1. by destruct (requestInstances c !! rid). }
  destruct (requestInstances c1 !! rid ≫= _) as [v|]; [by split|].
  unfold mbind at 1, M_bind, bind.
  pose proof (createInstance_finished target (Some rid) c1 Ht Hc1 Hst1)
    as [Hr Hc2].
  destruct (createInstance _ _ _ _ c1) as [[inst|e|] c2]; simpl in *;
    by split.
Qed.

(** [resolveInternal] for a token that has a provider. *)
Lemma resolveInternal_provided tok rid c p :
  providers c !! tok = Some p →
  targets_in U c → resolutionStack c = st →
  finished U (resolveInternal env (S fuel) tok rid c).
Proof.
  intros Hp Hc Hst. simpl. rewrite Hp.
  destruct (useValue p); [by split|].
  destruct (useFactory p) as [f|].
  { destruct f; simpl; [by apply construct_finished | by split..]. }
  destruct (useClass p) as [target|] eqn:Htarget; [|by split].
  assert (target ∈ U) as Ht by (by eapply Hc).
  destruct (default singleton (scope p)).
  - unfold resolveSingleton. destruct (singletons c !! tok); [by split|].
    unfold mbind, M_bind, bind.
    pose proof (createInstance_finished target None c Ht Hc Hst) as [Hr Hc1].
    destruct (createInstance _ _ _ _ c) as [[inst|e|] c1]; simpl in *;
      by split.
  - by apply createInstance_finished.
  - destruct rid as [rid|]; by apply resolveRequest_finished.
  - by split.
Qed.
End Level.

(** [resolveInternal] with two levels of fuel to spare. *)
Lemma resolveInternal_finished fuel tok rid c :
  (∀ f d r c0,
     fuel ≤ f → d ∈ U → targets_in U c0 →
     resolutionStack c0 = resolutionStack c →
     finished U (resolve env f (TClass d) r c0)) →
  (∀ cl, tok = TClass cl → cl ∈ U) →
  targets_in U c →
  finished U (resolveInternal env (S (S fuel)) tok rid c).
Proof.
  intros Hrec Htok Hc.
  destruct (providers c !! tok) as [p|] eqn:Hp.
  { eapply resolveInternal_provided; [|exact Hp|done|done].
    intros d r c0 Hd Hc0 Hst. apply Hrec; [lia|done..]. }
  generalize (eq_refl (S fuel)). generalize (S fuel) at 1 3. intros g Hg.
  cbn [resolveInternal]. rewrite Hp.
  destruct tok as [cl| |]; [|by split..].
  destruct (tryAutoRegister env cl c) as [[] c1] eqn:Hauto.
  - apply tryAutoRegister_true in Hauto as [s ->]. subst g.
    eapply resolveInternal_provided.
    + intros d r c0 Hd Hc0 Hst. apply Hrec; [lia|done|done|].
      rewrite Hst. apply register_stack.
    + rewrite register_providers. apply lookup_insert_eq.
    + apply targets_in_register; [by apply Htok | done].
    + done.
  - apply tryAutoRegister_false in Hauto as ->. by split.
Qed.

(** One level of [resolve], given the levels below. *)
Lemma resolve_finished_step m fuel tok rid c :
  (∀ f d r c0,
     3 * m + 1 ≤ f → d ∈ U → targets_in U c0 →
     length (free_classes U (resolutionStack c0)) ≤ m →
     finished U (resolve env f (TClass d) r c0)) →
  3 * m + 4 ≤ fuel →
  (∀ cl, tok = TClass cl → cl ∈ U) →
  targets_in U c →
  (tok ∉ resolutionStack c →
   length (free_classes U (stack_add tok (resolutionStack c))) ≤ m) →
  finished U (resolve env fuel tok rid c).
Proof.
  intros Hrec Hfuel Htok Hc Hfree.
  destruct fuel as [|fuel]; [lia|].
  cbn [resolve]. case_bool_decide as Hstack; [by split|].
  unfold try_finally, try_catch, mbind, M_bind, bind, modify.
  set (c0 := set_resolutionStack (stack_add tok) c).
  assert (finished U (resolveInternal env fuel tok rid c0)) as [Hr Hc1].
  { destruct fuel as [|[|fuel]]; [lia..|].
    apply resolveInternal_finished; [|done|done].
    intros f d r c1 Hf Hd Hc1 Hst. apply Hrec; [lia|done|done|].
    rewrite Hst. by apply Hfree. }
  destruct (resolveInternal env fuel tok rid c0) as [[v|e|] c1];
    cbn [fst snd] in Hr, Hc1; [by split| |done].
  destruct (_ && _); [|by split].
  destruct (handleDeferredResolution env tok rid e c1) as [r2 c2] eqn:Hd.
  assert (r2 ≠ OutOfFuel ∧ providers c2 = providers c1) as [Hr2 Hp2].
  { revert Hd. unfold handleDeferredResolution, newPromise, setTimeout.
    destruct (JsMap.get tok (pendingResolutions c1)) as [pd|];
      [destruct (3 <=? attempts pd)|]; by intros [= <- <-]. }
  split; [done|]. by apply (targets_in_same c1).
Qed.

Lemma resolve_finished_class m :
  ∀ fuel d rid c,
    3 * m + 1 ≤ fuel → d ∈ U → targets_in U c →
    length (free_classes U (resolutionStack c)) ≤ m →
    finished U (resolve env fuel (TClass d) rid c).
Proof.
  induction m as [|m IH]; intros fuel d rid c Hfuel Hd Hc Hfree.
  - destruct fuel as [|fuel]; [lia|]. cbn [resolve].
    case_bool_decide as Hstack; [by split|]. exfalso.
    assert (d ∈ free_classes U (resolutionStack c)) as Hin
      by (by apply list_elem_of_filter).
    destruct (free_classes U (resolutionStack c)); [|simpl in Hfree; lia].
    by apply elem_of_nil in Hin.
  - apply (resolve_finished_step m); [|lia| |done|].
    + intros f d' r c0 Hf Hd' Hc0 Hfree0. by apply IH.
    + by intros cl [= <-].
    + intros Hstack.
      pose proof (free_classes_enter_class d (resolutionStack c) Hd Hstack).
      lia.
Qed.

(** Enough fuel for any stack. *)
Lemma resolve_finished fuel tok rid c :
  targets_in U c → (∀ cl, tok = TClass cl → cl ∈ U) →
  3 * length U + 4 ≤ fuel →
  finished U (resolve env fuel tok rid c).
Proof.
  intros Hc Htok Hfuel.
  apply (resolve_finished_step (length U)); try done.
  - intros f d r c0 Hf Hd Hc0 _.
    apply (resolve_finished_class (length U)); try done.
    apply free_classes_length.
  - intros _. apply free_classes_length.
Qed.
End Termination.

(** ** The fuel of the model *)

Section Fuel.
Variable env : Env.

Lemma resolve_S fuel tok rid c :
  resolve env (S fuel) tok rid c
  = if bool_decide (tok ∈ resolutionStack c)
    then (Throw (circularDependencyError env tok c), c)
    else
      try_finally
        (try_catch
           (_ ← modify (set_resolutionStack (stack_add tok));
            resolveInternal env fuel tok rid)
           (λ error c',
              if enableDeferredResolution c' && isInitializationError error
              then handleDeferredResolution env tok rid error c'
              else (Throw error, c')))
        (set_resolutionStack (stack_delete tok)) c.
Proof. reflexivity. Qed.

Lemma resolveInternal_S fuel tok rid c :
  resolveInternal env (S fuel) tok rid c
  = match providers c !! tok with
    | None =>
        match tok with
        | TClass cl =>
            let '(autoRegistered, c1) := tryAutoRegister env cl c in
            if autoRegistered
            then resolveInternal env fuel tok rid c1
            else (Throw (unresolvedProviderError env tok c1), c1)
        | _ => (Throw (unresolvedProviderError env tok c), c)
        end
    | Some provider =>
        match useValue provider with
        | Some v => (Return v, c)
        | None =>
        match useFactory provider with
        | Some f => callFactory env f c
        | None =>
        match useClass provider with
        | None =>
            (Throw (mkError ("Provider for token " +:+ tokenToString env tok
                      +:+ " does not specify a class or factory.")), c)
        | Some target =>
            match default singleton (scope provider) with
            | singleton =>
                resolveSingleton env (resolve env fuel) tok target c
            | transient =>
                resolveTransient env (resolve env fuel) target rid c
            | request =>
                match rid with
                | Some rid =>
                    resolveRequest env (resolve env fuel) tok target rid c
                | None =>
                    resolveRequest env (resolve env fuel) tok target
                      (generateRequestId env (generatedIds c))
                      (set_generatedIds S c)
                end
            | unsupported s =>
                (Throw (mkError ("Unsupported scope: " +:+ s)), c)
            end
        end end end
    end.
Proof. reflexivity. Qed.

Section Two.
(** Two resolvers, the second doing what the first does whenever the
    first has fuel enough. *)
Variable rec1 rec2 : Token → option string → M Container Value.
Hypothesis rec_more : ∀ tok rid c r c',
  rec1 tok rid c = (r, c') → r ≠ OutOfFuel → rec2 tok rid c = (r, c').

Lemma mapM_more_fuel rid deps c (r : Outcome (list Value)) c' :
  mapM (λ dep, rec1 (TClass dep) rid) deps c = (r, c') → r ≠ OutOfFuel →
  mapM (λ dep, rec2 (TClass dep) rid) deps c = (r, c').
Proof.
  revert c r c'. induction deps as [|d deps IH]; intros c r c'; [done|].
  simpl. unfold mbind, M_bind, bind.
  destruct (rec1 (TClass d) rid c) as [[y|e|] c1] eqn:Hd.
  - rewrite (rec_more _ _ _ _ _ Hd) by done.
    destruct (mapM _ deps c1) as [[ys|e|] c2] eqn:Hrest.
    + rewrite (IH _ _ _ Hrest) by done. done.
    + rewrite (IH _ _ _ Hrest) by done. done.
    + by intros [= <- <-] [].
  - rewrite (rec_more _ _ _ _ _ Hd) by done. done.
  - by intros [= <- <-] [].
Qed.

Lemma createInstance_more_fuel target rid c r c' :
  createInstance env rec1 target rid c = (r, c') → r ≠ OutOfFuel →
  createInstance env rec2 target rid c = (r, c').
Proof.
  unfold createInstance, mbind, M_bind, bind.
  destruct (mapM (λ dep, rec1 _ _) _ c) as [[args|e|] c1] eqn:Hargs.
  - by rewrite (mapM_more_fuel _ _ _ _ _ Hargs).
  - by rewrite (mapM_more_fuel _ _ _ _ _ Hargs).
  - by intros [= <- <-] [].
Qed.

Lemma resolveSingleton_more_fuel tok target c r c' :
  resolveSingleton env rec1 tok target c = (r, c') → r ≠ OutOfFuel →
  resolveSingleton env rec2 tok target c = (r, c').
Proof.
  unfold resolveSingleton. destruct (singletons c !! tok); [done|].
  unfold mbind, M_bind, bind.
  destruct (createInstance env rec1 target None c) as [[inst|e|] c1] eqn:Hnew.
  - by rewrite (createInstance_more_fuel _ _ _ _ _ Hnew).
  - by rewrite (createInstance_more_fuel _ _ _ _ _ Hnew).
  - by intros [= <- <-] [].
Qed.

Lemma resolveRequest_more_fuel tok target rid c r c' :
  resolveRequest env rec1 tok target rid c = (r, c') → r ≠ OutOfFuel →
  resolveRequest env rec2 tok target rid c = (r, c').
Proof.
  unfold resolveRequest.
  set (c1 := match requestInstances c !! rid with
             | Some _ => c
             | None => set_requestInstances (<[rid := ∅]>) c
             end).
  destruct (requestInstances c1 !! rid ≫= _); [done|].
  unfold mbind at 1 3, M_bind, bind.
  destruct (createInstance env rec1 target (Some rid) c1)
    as [[inst|e|] c2] eqn:Hnew.
  - by rewrite (createInstance_more_fuel _ _ _ _ _ Hnew).
  - by rewrite (createInstance_more_fuel _ _ _ _ _ Hnew).
  - by intros [= <- <-] [].
Qed.
End Two.

Lemma resolve_more_fuel_both fuel :
  (∀ tok rid c r c',
     resolve env fuel tok rid c = (r, c') → r ≠ OutOfFuel →
     resolve env (S fuel) tok rid c = (r, c'))
  ∧ (∀ tok rid c r c',
       resolveInternal env fuel tok rid c = (r, c') → r ≠ OutOfFuel →
       resolveInternal env (S fuel) tok rid c = (r, c')).
Proof.
  induction fuel as [|fuel [IHr IHi]].
  { split; by intros tok rid c r c' [= <- <-] []. }
  split.
  - intros tok rid c r c'. rewrite (resolve_S (S fuel)), (resolve_S fuel).
    case_bool_decide; [done|].
    unfold try_finally, try_catch, mbind, M_bind, bind, modify.
    destruct (resolveInternal env fuel tok rid _) as [[v|e|] c1] eqn:Hint.
    + by rewrite (IHi _ _ _ _ _ Hint).
    + by rewrite (IHi _ _ _ _ _ Hint).
    + by intros [= <- <-] [].
  - intros tok rid c r c'.
    rewrite (resolveInternal_S (S fuel)), (resolveInternal_S fuel).
    destruct (providers c !! tok) as [p|].
    + destruct (useValue p); [done|]. destruct (useFactory p); [done|].
      destruct (useClass p) as [target|]; [|done].
      destruct (default singleton (scope p)); [| | |done].
      * by apply resolveSingleton_more_fuel.
      * by apply createInstance_more_fuel.
      * destruct rid; by apply resolveRequest_more_fuel.
    + destruct tok as [cl| |]; [|done..].
      destruct (tryAutoRegister env cl c) as [[] c1]; [|done].
      apply IHi.
Qed.

Lemma resolve_more_fuel fuel fuel' tok rid c r c' :
  resolve env fuel tok rid c = (r, c') → r ≠ OutOfFuel → fuel ≤ fuel' →
  resolve env fuel' tok rid c = (r, c').
Proof.
  intros Hr Hne Hle. induction Hle as [|fuel' Hle IH]; [done|].
  by apply resolve_more_fuel_both.
Qed.
End Fuel.

Section TerminationTheorem.
Variable env : Env.

(** X10. [resolve] terminates: when the classes that providers name and
    the class resolved belong to a finite set of classes closed under
    constructor dependencies, the call returns a value or throws an error;
    the check of the resolution stack is what bounds the depth of the
    recursion.  Three levels of fuel for each class are enough for the
    model, and more fuel changes neither the result nor the container. *)
Theorem resolve_terminates U fuel tok rid c :
  closed_classes env U → targets_in U c →
  (∀ cl, tok = TClass cl → cl ∈ U) →
  3 * length U + 4 ≤ fuel →
  ∃ c', ((∃ v, resolve env fuel tok rid c = (Return v, c'))
         ∨ (∃ e, resolve env fuel tok rid c = (Throw e, c')))
        ∧ ∀ fuel', fuel ≤ fuel' →
            resolve env fuel' tok rid c = resolve env fuel tok rid c.
Proof.
  intros Hclosed Hc Htok Hfuel.
  destruct (resolve_finished env U Hclosed fuel tok rid c) as [Hr _];
    try done.
  destruct (resolve env fuel tok rid c) as [r c'] eqn:Hres.
  exists c'. split.
  - destruct r as [v|e|]; [left; by exists v | right; by exists e | done].
  - intros fuel' Hle. by eapply resolve_more_fuel.
Qed.
End TerminationTheorem.

Lemma resolve_terminates_witness :
  ∃ c', ((∃ v, resolve Decorated.env 31 (TClass 5) None newContainer
               = (Return v, c'))
         ∨ (∃ e, resolve Decorated.env 31 (TClass 5) None newContainer
                 = (Throw e, c')))
        ∧ ∀ fuel', 31 ≤ fuel' →
            resolve Decorated.env fuel' (TClass 5) None newContainer
            = resolve Decorated.env 31 (TClass 5) None newContainer.
Proof.
  apply (resolve_terminates Decorated.env Decorated.universe).
  - unfold closed_classes. apply (bool_decide_unpack _). by vm_compute.
  - apply map_Forall_empty.
  - intros cl [= <-]. apply (bool_decide_unpack _). by vm_compute.
  - simpl. lia.
Defined.

(** ** The lifecycle registry: what is registered, what is called *)

Section LifeCycleMore.
Import LifeCycle.

Lemma calls_app tr1 tr2 : calls (tr1 ++ tr2) = calls tr1 ++ calls tr2.
Proof. unfold calls. apply omap_app. Qed.

Lemma calls_destroy_trace text instance b :
  calls (destroy_trace text instance b) = [(HDestroy, inst_id instance)].
Proof. unfold destroy_trace. by destruct (failure b). Qed.

Lemma calls_destroy_refs text (refs : list CleanupRef) :
  calls (refs ≫= λ ref, destroy_trace text (ref_instance ref) (ref_onDestroy ref))
  = (λ ref, (HDestroy, inst_id (ref_instance ref))) <$> refs.
Proof.
  induction refs as [|ref refs IH]; [done|].
  rewrite bind_cons, calls_app, calls_destroy_trace, IH. done.
Qed.

(** X12. [cleanupTransient] never throws, whatever the hooks do; it calls
    the [onDestroy] of every entry of the transient array exactly once, in
    the order of registration, and no other hook; it empties the transient
    array and leaves the singleton array and the request buckets alone; a
    second call calls no hook. *)
Theorem cleanupTransient_destroys_each_once w :
  let r := cleanupTransient w in
  let reg := lifecycleRegistry w in
  r.1 = Return tt
  ∧ (∃ events,
       trace r.2 = trace w ++ events
       ∧ calls events
         = (λ ref, (HDestroy, inst_id (ref_instance ref))) <$> reg_transient reg)
  ∧ lifecycleRegistry r.2
    = mkRegistry (reg_singleton reg) [] (reg_request reg)
  ∧ calls (trace (cleanupTransient r.2).2) = calls (trace r.2).
Proof.
  intros r reg. subst r. rewrite !cleanupTransient_run. cbn [fst snd].
  split_and!.
  - done.
  - eexists. split; [reflexivity|]. cbn [lifecycleRegistry].
    change (calls (?e :: ?l)) with (calls l) at 1.
    by rewrite calls_destroy_refs.
  - done.
  - cbn [lifecycleRegistry trace set_transient reg_transient].
    by rewrite calls_app, app_nil_r.
Qed.



(** Applying the lifecycle with transient scope, or with singleton
    scope. *)
Lemma applyLifecycle_appends instance scope rid d w :
  onDestroy instance = Some d →
  (∀ msg, onInit instance ≠ Some (ThrowsSync msg)) →
  let reg := lifecycleRegistry w in
  let entry := mkRef instance d in
  (default singleton scope = singleton →
   applyLifecycle instance scope rid w
   = (Return tt,
      mkWorld (mkRegistry (reg_singleton reg ++ [entry]) (reg_transient reg)
                 (reg_request reg))
        (trace w ++ init_trace instance)))
  ∧ (scope = Some transient →
     applyLifecycle instance scope rid w
     = (Return tt,
        mkWorld (mkRegistry (reg_singleton reg) (reg_transient reg ++ [entry])
                   (reg_request reg))
          (trace w ++ init_trace instance))).
Proof.
  intros Hd Hinit reg entry. subst reg entry.
  split; intros Hscope; unfold applyLifecycle, init_trace;
    [rewrite Hscope | subst scope; cbn [default from_option id]];
    rewrite Hd; unfold registerForCleanup;
    unfold mbind, M_bind, bind, invoke, catchAndLog, emit, update, modify,
      ret, throw;
    destruct (onInit instance) as [[]|]; try (by edestruct Hinit);
    destruct (truthy rid); simpl; rewrite ?app_nil_r, <- ?app_assoc; done.
Qed.

End LifeCycleMore.

(** ** Route paths *)

Section RoutePaths.
Import Routes.

Lemma string_app_cons a (s t : string) :
  String a s +:+ t = String a (s +:+ t).
Proof. reflexivity. Qed.


Lemma string_app_assoc (s t u : string) : (s +:+ t) +:+ u = s +:+ (t +:+ u).
Proof.
  induction s as [|a s IH]; [done|]. by rewrite !string_app_cons, IH.
Qed.


Lemma removeTrailingSlashes_empty s :
  removeTrailingSlashes s = "" ↔ only_slashes s = true.
Proof.
  induction s as [|a s IH]; [done|]. simpl.
  destruct (removeTrailingSlashes s) as [|b kept].
  - destruct (Ascii.eqb a "/") eqn:Ha; simpl.
    + split; [intros _; by apply IH | done].
    + done.
  - split; [done|]. intros [_ Hs]%andb_true_iff. by apply IH in Hs.
Qed.

Lemma removeTrailingSlashes_cons a s :
  removeTrailingSlashes (String a s)
  = if only_slashes (String a s) then ""
    else String a (removeTrailingSlashes s).
Proof.
  simpl. destruct (removeTrailingSlashes s) as [|b kept] eqn:Hs.
  - apply removeTrailingSlashes_empty in Hs. rewrite Hs, andb_true_r.
    by destruct (Ascii.eqb a "/").
  - destruct (only_slashes s) eqn:Hos.
    + apply removeTrailingSlashes_empty in Hos. congruence.
    + by rewrite andb_false_r.
Qed.

Lemma removeTrailingSlashes_no_slash_at_end s t :
  removeTrailingSlashes s ≠ t +:+ "/".
Proof.
  revert t. induction s as [|a s IH]; intros t.
  { by destruct t. }
  rewrite removeTrailingSlashes_cons.
  destruct (only_slashes (String a s)) eqn:Hos; [by destruct t|].
  destruct t as [|b t]; simpl.
  - intros [= -> Hs]. apply removeTrailingSlashes_empty in Hs.
    simpl in Hos. by rewrite Hs in Hos.
  - intros [= _ Hs]. by apply IH in Hs.
Qed.

Lemma removeTrailingSlashes_fixed s :
  (∀ t, s ≠ t +:+ "/") → removeTrailingSlashes s = s.
Proof.
  induction s as [|a s IH]; [done|]. intros Hend.
  rewrite removeTrailingSlashes_cons.
  destruct (only_slashes (String a s)) eqn:Hos.
  - exfalso. clear IH. revert a Hend Hos.
    induction s as [|b s IH]; intros a Hend Hos.
    + simpl in Hos. rewrite andb_true_r in Hos.
      apply Ascii.eqb_eq in Hos as ->. by apply (Hend "").
    + simpl in Hos. apply andb_true_iff in Hos as [_ Hos].
      apply (IH b); [|done]. intros t Heq.
      apply (Hend (String a t)). by rewrite Heq.
  - f_equal. apply IH. intros t Heq.
    apply (Hend (String a t)). by rewrite Heq.
Qed.

Lemma removeTrailingSlashes_prefix s :
  ∃ t, s = removeTrailingSlashes s +:+ t ∧ only_slashes t = true.
Proof.
  induction s as [|a s (t & Hs & Ht)]; [by exists ""|].
  rewrite removeTrailingSlashes_cons.
  destruct (only_slashes (String a s)) eqn:Hos.
  - by exists (String a s).
  - exists t. split; [|done]. by rewrite string_app_cons, <- Hs.
Qed.

Lemma removeTrailingSlashes_starts s :
  removeTrailingSlashes s = ""
  ∨ startsWithSlash (removeTrailingSlashes s) = startsWithSlash s.
Proof.
  destruct s as [|a s]; [by left|]. rewrite removeTrailingSlashes_cons.
  destruct (only_slashes _); [by left|]. right.
  done.
Qed.

Lemma startsWithSlash_normalized path :
  startsWithSlash (if startsWithSlash path then path else "/" +:+ path)
  = true.
Proof. by destruct (startsWithSlash path) eqn:Hs. Qed.

Lemma only_slashes_cons_slash path :
  only_slashes ("/" +:+ path) = only_slashes path.
Proof. done. Qed.

Lemma only_slashes_starts path :
  only_slashes path = true → path = "" ∨ startsWithSlash path = true.
Proof.
  destruct path as [|a s]; [by left|]. simpl.
  intros [Ha _]%andb_true_iff. apply Ascii.eqb_eq in Ha as ->. by right.
Qed.


Lemma well_formed_path_normalizePath path :
  well_formed_path (normalizePath path).
Proof.
  unfold normalizePath.
  set (p := if startsWithSlash path then path else "/" +:+ path).
  split; [|apply removeTrailingSlashes_no_slash_at_end].
  destruct (removeTrailingSlashes_starts p) as [|Hs]; [by left|].
  right. rewrite Hs. apply startsWithSlash_normalized.
Qed.

(** X15. [normalizePath] returns the empty string or a path that starts
    with a slash, never a path that ends with a slash (so never ["/"]: the
    test [basePath === "/"] of [@Controller] is never true); it returns
    the empty string exactly for a path made of slashes only, it keeps the
    path up to the slashes that end it, and applying it twice changes
    nothing. *)
Theorem normalizePath_well_formed path :
  let result := normalizePath path in
  well_formed_path result
  ∧ result ≠ "/"
  ∧ (result = "" ↔ only_slashes path = true)
  ∧ (∃ t, (if startsWithSlash path then path else "/" +:+ path)
          = result +:+ t
          ∧ only_slashes t = true)
  ∧ normalizePath result = result.
Proof.
  intros result. subst result. unfold normalizePath.
  set (p := if startsWithSlash path then path else "/" +:+ path).
  assert (startsWithSlash p = true) as Hp by apply startsWithSlash_normalized.
  assert (removeTrailingSlashes p = ""
          ∨ startsWithSlash (removeTrailingSlashes p) = true) as Hstart.
  { destruct (removeTrailingSlashes_starts p) as [|Hs]; [by left|].
    right. by rewrite Hs. }
  split_and!.
  - apply well_formed_path_normalizePath.
  - apply (removeTrailingSlashes_no_slash_at_end p "").
  - rewrite removeTrailingSlashes_empty. subst p.
    destruct (startsWithSlash path) eqn:Hs; [done|].
    by rewrite only_slashes_cons_slash.
  - apply removeTrailingSlashes_prefix.
  - destruct Hstart as [Hempty | Hs]; [by rewrite Hempty|].
    rewrite Hs. apply removeTrailingSlashes_fixed.
    apply removeTrailingSlashes_no_slash_at_end.
Qed.








End RoutePaths.


(** ** The request handler *)

Section RequestHandler.
Import Boot.
Variable env : Env.
Variable program : Program.

Lemma cleanupAfterRequest_run rid s :
  cleanupAfterRequest rid s
  = (Return tt,
     mkState (clearRequestInstances rid (container s))
       (LifeCycle.cleanupRequest rid (world s)).2).
Proof.
  unfold cleanupAfterRequest, try_catch, mbind, M_bind, bind, inWorld,
    inContainer, modify.
  rewrite cleanupRequest_run.
  by destruct (JsMap.get rid _).
Qed.


Lemma cleanupRequest_keeps_arrays rid w :
  LifeCycle.reg_singleton
    (LifeCycle.lifecycleRegistry (LifeCycle.cleanupRequest rid w).2)
  = LifeCycle.reg_singleton (LifeCycle.lifecycleRegistry w)
  ∧ LifeCycle.reg_transient
      (LifeCycle.lifecycleRegistry (LifeCycle.cleanupRequest rid w).2)
    = LifeCycle.reg_transient (LifeCycle.lifecycleRegistry w).
Proof. rewrite cleanupRequest_run. by destruct (JsMap.get rid _). Qed.

Lemma try_finally_with_state {A} (m : M State A) rid s :
  (try_finally_with m (cleanupAfterRequest rid) s).1 = (m s).1
  ∧ (try_finally_with m (cleanupAfterRequest rid) s).2
    = mkState (clearRequestInstances rid (container (m s).2))
        (LifeCycle.cleanupRequest rid (world (m s).2)).2.
Proof.
  unfold try_finally_with. destruct (m s) as [r s1].
  by rewrite cleanupAfterRequest_run.
Qed.

End RequestHandler.

(** ** Controllers resolved for a request, components registered by the
    scanner *)

Section Components.
Import Boot.
Variable env : Env.
Variable program : Program.

Lemma callHandler_state v name s :
  (callHandler program v name s).2 = s.
Proof.
  unfold callHandler.
  destruct v as [a| | |]; try done;
    repeat (match goal with
            | |- context [match ?x with _ => _ end] => destruct x
            end; try done).
Qed.

Lemma consoleError_registry text e s :
  container (consoleError text e s).2 = container s
  ∧ LifeCycle.lifecycleRegistry (world (consoleError text e s).2)
    = LifeCycle.lifecycleRegistry (world s).
Proof. done. Qed.

(** X18. A controller of transient scope that has [onDestroy] stays in
    the transient array after each request it serves: the handler resolves
    a new controller, registers it, and the cleanup of the request does not
    remove it, so the array grows by one entry with every request until
    [cleanupTransient] or [shutdown] runs. *)
Theorem transient_controller_stays_registered fuel cl method fullPath
    handlerName res rid s a c1 o d :
  getControllerScope env cl = Some transient →
  resolve env fuel (TClass cl) (Some rid) (container s)
  = (Return (VObj a), c1) →
  heap c1 !! a = Some o →
  hook_onDestroy (hooks program (obj_class o)) = Some d →
  (∀ msg, hook_onInit (hooks program (obj_class o))
          ≠ Some (LifeCycle.ThrowsSync msg)) →
  let r := routeHandler env program fuel cl method fullPath handlerName res
             rid s in
  ∃ instance,
    instanceOf env program c1 (VObj a) = Some instance
    ∧ LifeCycle.inst_id instance = a
    ∧ LifeCycle.reg_transient (LifeCycle.lifecycleRegistry (world r.2))
      = LifeCycle.reg_transient (LifeCycle.lifecycleRegistry (world s))
        ++ [LifeCycle.mkRef instance d].
Proof.
  intros Hscope Hres Ha Hd Hinit r. subst r. unfold routeHandler.
  match goal with
  | |- context [try_finally_with ?m _ _] =>
      destruct (try_finally_with_state m rid s) as [_ ->]; set (body := m)
  end.
  cbn [world]. rewrite (proj2 (cleanupRequest_keeps_arrays _ _)).
  set (instance :=
         {| LifeCycle.inst_id := a;
            LifeCycle.inst_class := cls_name (classes env (obj_class o));
            LifeCycle.onInit := hook_onInit (hooks program (obj_class o));
            LifeCycle.onDestroy := hook_onDestroy (hooks program (obj_class o));
            LifeCycle.onRequestStart :=
              hook_onRequestStart (hooks program (obj_class o));
            LifeCycle.onRequestEnd :=
              hook_onRequestEnd (hooks program (obj_class o)) |}).
  assert (instanceOf env program c1 (VObj a) = Some instance) as Hinst.
  { unfold instanceOf. by rewrite Ha. }
  exists instance. split; [exact Hinst|]. split; [done|].
  subst body. unfold try_catch, mbind at 1, M_bind, bind.
  assert (∃ w1,
    resolveControllerWithLifecycle env program fuel cl rid s
    = (Return (VObj a), mkState c1 w1)
    ∧ LifeCycle.reg_transient (LifeCycle.lifecycleRegistry w1)
      = LifeCycle.reg_transient (LifeCycle.lifecycleRegistry (world s))
        ++ [LifeCycle.mkRef instance d])
    as (w1 & -> & Hw1).
  { unfold resolveControllerWithLifecycle. rewrite Hscope.
    cbn [default from_option id].
    unfold mbind, M_bind, bind, inContainer. rewrite Hres.
    unfold applyLifecycle. cbn [container]. rewrite Hinst.
    unfold inWorld. cbn [world container].
    destruct (applyLifecycle_appends instance (Some transient) None d
                (world s) Hd Hinit) as [_ Happ].
    rewrite (Happ eq_refl). eexists. split; [reflexivity|]. done. }
  unfold mbind, M_bind, bind.
  pose proof (callHandler_state (VObj a) handlerName (mkState c1 w1)) as Hcall.
  destruct (callHandler program (VObj a) handlerName (mkState c1 w1))
    as [[result|e|] s2]; cbn [snd] in Hcall; subst s2.
  - by destruct (res_send res), (res_json res).
  - destruct (res_status res); done.
  - done.
Qed.



Section Scan.
Variable U : list nat.
Hypothesis U_closed : closed_classes env U.
Variable fuel : nat.
Hypothesis fuel_enough : 3 * length U + 4 ≤ fuel.


End Scan.

End Components.

(** ** The further properties on concrete inputs *)

Lemma failed_resolve_caches_nothing_witness :
  let r := resolve Decorated.env 6 Decorated.Ledger None newContainer in
  singletons r.2 !! Decorated.Ledger
  = singletons newContainer !! Decorated.Ledger
  ∧ ∀ rid, stored r.2 rid Decorated.Ledger
           = stored newContainer rid Decorated.Ledger.
Proof.
  intros r.
  apply (failed_resolve_caches_nothing Decorated.env 6 Decorated.Ledger None
           newContainer (mkError "disk full") r.2).
  vm_compute. reflexivity.
Defined.

Lemma transient_resolved_anew_witness :
  let c := register Decorated.Mailer (classProvider 0 transient) newContainer in
  let r1 := resolve Decorated.env 2 Decorated.Mailer None c in
  let r2 := resolve Decorated.env 2 Decorated.Mailer (Some "r") r1.2 in
  VObj 0 ≠ VObj 1
  ∧ singletons r2.2 !! Decorated.Mailer = singletons c !! Decorated.Mailer
  ∧ ∀ r, stored r2.2 r Decorated.Mailer = stored c r Decorated.Mailer.
Proof.
  intros c r1 r2.
  apply (transient_resolved_anew Decorated.env 2 2 Decorated.Mailer None
           (Some "r") c (classProvider 0 transient) 0 (VObj 0) r1.2
           (VObj 1) r2.2).
  - reflexivity.
  - by repeat split.
  - vm_compute. reflexivity.
  - vm_compute. reflexivity.
Defined.

Lemma resolve_registers_decorated_class_witness :
  providers (resolve Decorated.env (2 + 0) Decorated.Mailer None
               newContainer).2 !! Decorated.Mailer
  = Some (classProvider 0 transient).
Proof.
  apply (proj1 (resolve_registers_decorated_class Decorated.env 0 0 None
                  newContainer eq_refl (not_elem_of_nil _))).
  apply (bool_decide_unpack _). by vm_compute.
Defined.

Lemma reregistered_class_keeps_cached_singleton_witness :
  let c := (resolve Scenario.env 3 Scenario.Logger None
              Scenario.withClasses).2 in
  let c' := register Scenario.Logger (classProvider 3 singleton) c in
  resolve Scenario.env (2 + 0) Scenario.Logger None c' = (Return (VObj 0), c').
Proof.
  intros c c'.
  apply (proj1 (reregistered_class_keeps_cached_singleton Scenario.env 0
                  Scenario.Logger None c (VObj 0)
                  (classProvider 3 singleton) eq_refl (not_elem_of_nil _)) 3).
  by repeat split.
Defined.

Lemma no_deferral_when_disabled_witness :
  let c := setDeferredResolution false newContainer in
  let c' := (resolve Scenario.env 2 Scenario.lateToken None c).2 in
  enableDeferredResolution c' = false
  ∧ promises c' = promises c
  ∧ timers c' = timers c
  ∧ JsMap.keys (pendingResolutions c') ⊆ JsMap.keys (pendingResolutions c).
Proof.
  intros c.
  apply (no_deferral_when_disabled Scenario.env 2 Scenario.lateToken None c).
  reflexivity.
Defined.

Lemma late_registration_fulfils_promise_witness :
  let ready := {| useClass := None; useValue := Some (VData "ready");
                  useFactory := None; scope := None |} in
  let r1 := resolve Scenario.env (2 + 0) Scenario.lateToken None newContainer in
  let c2 := register Scenario.lateToken ready r1.2 in
  let r3 := runNextTimer Scenario.env (1 + 0) c2 in
  r1.1 = Return (VPromise 0)
  ∧ promises r1.2 !! 0 = Some PPending
  ∧ JsMap.has Scenario.lateToken (pendingResolutions r1.2) = true
  ∧ r3.1 = Return tt
  ∧ promises r3.2 !! 0 = Some (PFulfilled (VData "ready"))
  ∧ timers r3.2 = []
  ∧ now r3.2 = now newContainer + 50
  ∧ JsMap.has Scenario.lateToken (pendingResolutions r3.2) = false
  ∧ resolve Scenario.env (2 + 0) Scenario.lateToken None r3.2
    = (Return (VData "ready"), r3.2).
Proof.
  intros ready.
  destruct (late_registration_fulfils_promise Scenario.env 0
              Scenario.lateToken None newContainer ready (VData "ready"))
    as (H1 & H2 & H3 & H4 & H5 & _ & _ & H6 & H7 & H8 & H9);
    first [ exact (conj H1 (conj H2 (conj H3 (conj H4
                    (conj (H5 ltac:(done)) (conj H6 (conj H7 (conj H8 H9))))))))
          | by intros cl
          | apply not_elem_of_nil
          | vm_compute; reflexivity ].
Defined.

(** The promise that [resolve] returned, registered as the value of its own
    token: the retry resolves the promise with itself, which rejects it. *)
Lemma promise_registered_for_its_own_token :
  let r1 := resolve Scenario.env 2 Scenario.lateToken None newContainer in
  let own := {| useClass := None; useValue := Some (VPromise 0);
                useFactory := None; scope := None |} in
  let r3 := runNextTimer Scenario.env 1 (register Scenario.lateToken own r1.2) in
  r1.1 = Return (VPromise 0)
  ∧ promises r3.2 = [PRejected selfResolutionError].
Proof. vm_compute. by split. Qed.




Lemma transient_controller_stays_registered_witness :
  let r := Boot.routeHandler Decorated.env Decorated.program 6 8 "GET"
             "/reports" "list" (Boot.mkRes true false true) "req-7"
             Decorated.start in
  ∃ instance,
    Boot.instanceOf Decorated.env Decorated.program
      (resolve Decorated.env 6 Decorated.Reports (Some "req-7")
         newContainer).2 (VObj 1)
    = Some instance
    ∧ LifeCycle.inst_id instance = 1
    ∧ LifeCycle.reg_transient
        (LifeCycle.lifecycleRegistry (Boot.world r.2))
      = [] ++ [LifeCycle.mkRef instance LifeCycle.Resolves].
Proof.
  intros r.
  eapply (transient_controller_stays_registered Decorated.env
            Decorated.program 6 8 "GET" "/reports" "list"
            (Boot.mkRes true false true) "req-7" Decorated.start 1 _
            (mkObj 8 [VObj 0]) LifeCycle.Resolves).
  - reflexivity.
  - vm_compute. reflexivity.
  - vm_compute. reflexivity.
  - reflexivity.
  - done.
Defined.


(** ** A cycle whose error matches the heuristic *)

Section DeferredCycle.
Variable env : Env.

Lemma resolveInternal_cached_singleton fuel tok rid c p target v :
  providers c !! tok = Some p → class_provider_of p target singleton →
  singletons c !! tok = Some v →
  resolveInternal env (S fuel) tok rid c = (Return v, c).
Proof.
  intros Hp (Hv & Hf & Hc & Hs) Hcached. cbn [resolveInternal].
  rewrite Hp, Hv, Hf, Hc, Hs. unfold resolveSingleton. by rewrite Hcached.
Qed.

(** X20. The circular-dependency error is an error like any other for the
    initialization-order heuristic.  Two singleton classes [a] and [b] take
    each other, and the message of their circular error matches the
    heuristic (a class name contains [ReferenceError], say): with deferred
    resolution on, the cycle is not reported.  [resolve] of [a] defers
    [b], builds [a] on the pending promise, caches it and returns it; the
    retry 50 ms later builds [b] on the cached [a], caches it, fulfils the
    promise and leaves no pending entry. *)
Theorem matching_circular_error_is_deferred a b na nb pa pb c fuel rid :
  a ≠ b →
  cls_name (classes env a) = na → cls_paramtypes (classes env a) = [b] →
  cls_name (classes env b) = nb → cls_paramtypes (classes env b) = [a] →
  cls_ctor_throws (classes env a) = None →
  cls_ctor_throws (classes env b) = None →
  providers c !! TClass a = Some pa → class_provider_of pa a singleton →
  providers c !! TClass b = Some pb → class_provider_of pb b singleton →
  singletons c !! TClass a = None → singletons c !! TClass b = None →
  resolutionStack c = [] →
  enableDeferredResolution c = true →
  JsMap.get (TClass b) (pendingResolutions c) = None → timers c = [] →
  let error :=
    mkError ("Dependência circular detectada: " +:+ join " -> " [na; nb]
             +:+ " -> " +:+ na) in
  isInitializationError error = true →
  let p := length (promises c) in
  let o := length (heap c) in
  let r1 := resolve env (5 + fuel) (TClass a) rid c in
  let r2 := runNextTimer env (3 + fuel) r1.2 in
  (r1.1 = Return (VObj o)
   ∧ heap r1.2 = heap c ++ [mkObj a [VPromise p]]
   ∧ singletons r1.2 !! TClass a = Some (VObj o)
   ∧ singletons r1.2 !! TClass b = None
   ∧ (attempts <$> JsMap.get (TClass b) (pendingResolutions r1.2)) = Some 1
   ∧ (lastError <$> JsMap.get (TClass b) (pendingResolutions r1.2))
     = Some error
   ∧ promises r1.2 !! p = Some PPending
   ∧ resolutionStack r1.2 = [])
  ∧ (r2.1 = Return tt
     ∧ heap r2.2 = heap c ++ [mkObj a [VPromise p]; mkObj b [VObj o]]
     ∧ singletons r2.2 !! TClass b = Some (VObj (S o))
     ∧ promises r2.2 !! p = Some (PFulfilled (VObj (S o)))
     ∧ JsMap.get (TClass b) (pendingResolutions r2.2) = None
     ∧ timers r2.2 = []).
Proof.
  intros Hab Hna Hpa Hnb Hpb Hta Htb Hproa Hca Hprob Hcb Hsa Hsb Hstack Hon
    Hpend Htimers error Hmatch p o r1 r2.
  assert (TClass a ∉ resolutionStack c) as Hout
    by (rewrite Hstack; apply not_elem_of_nil).
  set (c0 := set_resolutionStack (stack_add (TClass a)) c).
  assert (resolutionStack c0 = [TClass a]) as Hin1.
  { subst c0. cbn [resolutionStack set_resolutionStack]. rewrite Hstack.
    unfold stack_add. by rewrite decide_False by apply not_elem_of_nil. }
  assert (TClass b ∉ resolutionStack c0) as Hout2.
  { rewrite Hin1, not_elem_of_cons.
    split; [congruence | apply not_elem_of_nil]. }
  set (c1 := set_resolutionStack (stack_add (TClass b)) c0).
  assert (resolutionStack c1 = [TClass a; TClass b]) as Hin2.
  { change (stack_add (TClass b) (resolutionStack c0) = [TClass a; TClass b]).
    unfold stack_add at 1. rewrite decide_False by done. by rewrite Hin1. }
  set (record := {| token := TClass b; attempts := 1; lastError := error;
                    dependencies := [a] |}).
  set (timer := mkTimer (now c + 50) (RetryFirst (TClass b) None None p)).
  (* the resolution of [b], inside the one of [a] *)
  assert (resolve env (S (S (S fuel))) (TClass b) None c0
          = (Return (VPromise p),
             set_timers (λ ts, ts ++ [timer])
               (set_promises (λ ps, ps ++ [PPending])
                  (set_pendingResolutions (JsMap.set (TClass b) record) c0))))
    as Hb.
  { rewrite resolve_enter by done.
    unfold try_finally, try_catch, mbind, M_bind, bind, modify. fold c1.
    rewrite (resolveInternal_new_singleton _ _ _ _ _ pb b) by done.
    unfold createInstance, mbind, M_bind, bind. rewrite Hpb, mapM_one.
    cbn [resolve].
    rewrite bool_decide_eq_true_2
      by (rewrite Hin2; apply elem_of_cons; by left).
    assert (circularDependencyError env (TClass a) c1 = error) as ->.
    { subst error. unfold circularDependencyError. rewrite Hin2.
      cbn [fmap list_fmap getTokenName]. by rewrite Hna, Hnb. }
    change (enableDeferredResolution c1) with (enableDeferredResolution c).
    rewrite Hon, Hmatch. cbn [andb].
    unfold handleDeferredResolution, newPromise, setTimeout.
    change (pendingResolutions c1) with (pendingResolutions c).
    rewrite Hpend. cbn [extractDependencies]. rewrite Hpb.
    f_equal. destruct c. subst c0 c1. unfold set_timers, set_promises,
      set_pendingResolutions, set_resolutionStack. cbn. f_equal.
    cbn in Hout2. by apply stack_delete_add. }
  set (c3 := set_timers (λ ts, ts ++ [timer])
               (set_promises (λ ps, ps ++ [PPending])
                  (set_pendingResolutions (JsMap.set (TClass b) record) c0)))
    in Hb.
  set (c6 := set_resolutionStack (stack_delete (TClass a))
               (set_singletons (<[TClass a := VObj o]>)
                  (set_heap (λ h, h ++ [mkObj a [VPromise p]]) c3))).
  assert (r1 = (Return (VObj o), c6)) as Hr1.
  { subst r1. change (5 + fuel) with (S (S (S (S (S fuel))))).
    rewrite resolve_enter by done.
    unfold try_finally, try_catch, mbind, M_bind, bind, modify. fold c0.
    rewrite (resolveInternal_new_singleton _ _ _ _ _ pa a) by done.
    unfold createInstance, mbind, M_bind, bind. rewrite Hpa, mapM_one, Hb.
    unfold construct. rewrite Hta. done. }
  assert (resolutionStack c6 = []) as Hstack6.
  { subst c6 c3.
    cbn [resolutionStack set_resolutionStack set_singletons set_heap
         set_timers set_promises set_pendingResolutions].
    rewrite Hin1. unfold stack_delete.
    rewrite filter_cons, decide_False by (by intros []). done. }
  assert (timers c6 = [timer]) as Htimers6.
  { subst c6 c3 c0. cbn. by rewrite Htimers. }
  assert (providers c6 = providers c) as Hprov6 by done.
  assert (singletons c6 = <[TClass a := VObj o]> (singletons c)) as Hsing6
    by done.
  assert (heap c6 = heap c ++ [mkObj a [VPromise p]]) as Hheap6 by done.
  assert (promises c6 = promises c ++ [PPending]) as Hprom6 by done.
  assert (pendingResolutions c6
          = JsMap.set (TClass b) record (pendingResolutions c)) as Hpend6
    by done.
  split.
  - rewrite Hr1. cbn [fst snd]. split_and!; try done.
    + rewrite Hsing6. apply lookup_insert_eq.
    + rewrite Hsing6, lookup_insert_ne by congruence. done.
    + by rewrite Hpend6, jsmap_get_set_eq.
    + by rewrite Hpend6, jsmap_get_set_eq.
    + rewrite Hprom6. subst p. by apply list_lookup_middle.
  - subst r2. rewrite Hr1. cbn [snd]. unfold runNextTimer.
    rewrite Htimers6. cbn [pop_earliest due task timer].
    set (c7 := set_now _ (set_timers (λ _, []) c6)).
    assert (resolutionStack c7 = []) as Hstack7 by done.
    assert (providers c7 = providers c) as Hprov7 by done.
    assert (singletons c7 = <[TClass a := VObj o]> (singletons c)) as Hsing7
      by done.
    assert (heap c7 = heap c ++ [mkObj a [VPromise p]]) as Hheap7 by done.
    assert (promises c7 = promises c ++ [PPending]) as Hprom7 by done.
    assert (pendingResolutions c7
            = JsMap.set (TClass b) record (pendingResolutions c)) as Hpend7
      by done.
    assert (timers c7 = []) as Htimers7 by done.
    clearbody c7. clear Hr1 Hb.
    unfold runTask. change (3 + fuel) with (S (S (S fuel))).
    rewrite (resolveInternal_new_singleton _ _ _ _ _ pb b);
      [|by rewrite Hprov7|done|by rewrite Hsing7, lookup_insert_ne by congruence].
    unfold createInstance, mbind, M_bind, bind. rewrite Hpb, mapM_one.
    rewrite resolve_enter by (rewrite Hstack7; apply not_elem_of_nil).
    unfold try_finally, try_catch, mbind, M_bind, bind, modify.
    rewrite (resolveInternal_cached_singleton _ _ _ _ pa a (VObj o));
      [|cbn [providers set_resolutionStack]; by rewrite Hprov7|done
       |cbn [singletons set_resolutionStack]; rewrite Hsing7;
        apply lookup_insert_eq].
    rewrite leave_enter_stack by (rewrite Hstack7; apply not_elem_of_nil).
    unfold construct. rewrite Htb.
    assert (length (heap c7) = S o) as Hlen.
    { rewrite Hheap7, length_app. simpl. lia. }
    rewrite Hlen. unfold ret. cbv beta iota. cbn [fst snd].
    unfold resolvePromise.
    assert (∀ c0, promises c0 !! p = Some PPending →
              promises (settle p (PFulfilled (VObj (S o))) c0) !! p
              = Some (PFulfilled (VObj (S o)))
              ∧ heap (settle p (PFulfilled (VObj (S o))) c0) = heap c0
              ∧ singletons (settle p (PFulfilled (VObj (S o))) c0)
                = singletons c0
              ∧ pendingResolutions (settle p (PFulfilled (VObj (S o))) c0)
                = pendingResolutions c0
              ∧ timers (settle p (PFulfilled (VObj (S o))) c0) = timers c0)
      as Hsettle.
    { intros c' Hp'. unfold settle. rewrite Hp'. split_and!; try done.
      cbn. apply list_lookup_insert_eq. by eapply lookup_lt_Some. }
    match goal with
    | |- context [settle p _ ?c'] =>
        destruct (Hsettle c') as (H1 & H2 & H3 & H4 & H5)
    end.
    { cbn [promises set_pendingResolutions set_singletons set_heap].
      rewrite Hprom7. subst p. by apply list_lookup_middle. }
    split_and!.
    + done.
    + rewrite H2. cbn [heap set_pendingResolutions set_singletons set_heap].
      rewrite Hheap7, <- app_assoc. done.
    + rewrite H3.
      cbn [singletons set_pendingResolutions set_singletons set_heap].
      apply lookup_insert_eq.
    + exact H1.
    + rewrite H4.
      cbn [pendingResolutions set_pendingResolutions set_singletons set_heap].
      apply jsmap_get_delete_eq.
    + rewrite H5.
      by cbn [timers set_pendingResolutions set_singletons set_heap].
Qed.
End DeferredCycle.

Lemma matching_circular_error_is_deferred_witness :
  let r1 := resolve Scenario.env (5 + 0) Scenario.ReferenceErrorHandler None
              Scenario.circularMatching in
  let r2 := runNextTimer Scenario.env (3 + 0) r1.2 in
  r1.1 = Return (VObj 0)
  ∧ heap r2.2 = [mkObj 10 [VPromise 0]; mkObj 11 [VObj 0]]
  ∧ promises r2.2 !! 0 = Some (PFulfilled (VObj 1)).
Proof.
  destruct (matching_circular_error_is_deferred Scenario.env 10 11
              "ReferenceErrorHandler" "ReferenceErrorReporter"
              (classProvider 10 singleton) (classProvider 11 singleton)
              Scenario.circularMatching 0 None)
    as [(Hr1 & _) (_ & Hheap & _ & Hpromise & _)];
    first [exact (conj Hr1 (conj Hheap Hpromise))
          | reflexivity | by repeat split].
Defined.

(** ** A request-scoped controller *)

Section JsMapMore.
Context {K V : Type} `{EqDecision K}.

Lemma jsmap_set_set (k : K) (v v' : V) m :
  JsMap.set k v' (JsMap.set k v m) = JsMap.set k v' m.
Proof.
  induction m as [|[k0 v0] m IH]; simpl.
  - by rewrite decide_True.
  - destruct (decide (k = k0)) as [<-|Hne]; simpl.
    + by rewrite decide_True.
    + rewrite decide_False by done. by rewrite IH.
Qed.

Lemma jsmap_delete_set_absent (k : K) (v : V) m :
  JsMap.get k m = None → JsMap.delete k (JsMap.set k v m) = m.
Proof.
  induction m as [|[k0 v0] m IH]; simpl.
  - intros _. by rewrite decide_True.
  - destruct (decide (k = k0)) as [<-|Hne]; [done|]. intros Hget. simpl.
    rewrite decide_False by done. by rewrite IH.
Qed.

Lemma jsmap_has_set (k : K) (v : V) m : JsMap.has k (JsMap.set k v m) = true.
Proof. apply jsmap_has_get. rewrite jsmap_get_set_eq. by eexists. Qed.

Lemma jsmap_has_absent (k : K) (m : list (K * V)) :
  JsMap.get k m = None → JsMap.has k m = false.
Proof.
  intros Hget. apply not_true_is_false. intros [x Hx]%jsmap_has_get.
  congruence.
Qed.
End JsMapMore.

Section RequestController.
Import Boot.
Variable env : Env.
Variable program : Program.

(** [applyLifecycle] of an instance with the four hooks, none failing,
    under a request that has no bucket yet. *)
Lemma applyLifecycle_request_run instance rid bi bs be bd w :
  LifeCycle.onInit instance = Some bi →
  LifeCycle.onRequestStart instance = Some bs →
  LifeCycle.onRequestEnd instance = Some be →
  LifeCycle.onDestroy instance = Some bd →
  failure bi = None → failure bs = None →
  rid ≠ "" →
  JsMap.get rid (LifeCycle.reg_request (LifeCycle.lifecycleRegistry w))
  = None →
  LifeCycle.applyLifecycle instance (Some request) (Some rid) w
  = (Return tt,
     LifeCycle.mkWorld
       (LifeCycle.set_request
          (JsMap.set rid
             [LifeCycle.mkRequestRef instance bd
                (LifeCycle.BoundRequestEnd be)])
          (LifeCycle.lifecycleRegistry w))
       (LifeCycle.trace w
        ++ [LifeCycle.Called LifeCycle.HInit (LifeCycle.inst_id instance);
            LifeCycle.Called LifeCycle.HRequestStart
              (LifeCycle.inst_id instance)])).
Proof.
  intros Hi Hs He Hd Hfi Hfs Hrid Hget. unfold LifeCycle.applyLifecycle.
  rewrite Hi, Hs, He, Hd, (truthy_nonempty _ Hrid).
  cbn [default from_option id].
  unfold LifeCycle.registerForCleanup, LifeCycle.registerForRequestCleanup.
  rewrite (truthy_nonempty _ Hrid).
  unfold LifeCycle.boundRequestEnd. rewrite He.
  unfold mbind, M_bind, bind, LifeCycle.invoke, LifeCycle.catchAndLog,
    LifeCycle.emit, LifeCycle.update, modify, ret, throw.
  set (ref := LifeCycle.mkRequestRef instance bd (LifeCycle.BoundRequestEnd be)).
  assert (∀ m, JsMap.get rid m = None →
               LifeCycle.pushRequestRef rid ref m = JsMap.set rid [ref] m)
    as Hpush.
  { intros m Hm. unfold LifeCycle.pushRequestRef.
    by rewrite (jsmap_has_absent _ _ Hm), jsmap_get_set_eq, jsmap_set_set. }
  assert (∀ m, JsMap.set rid
                 (LifeCycle.updateFirst instance
                    (default []
                       (JsMap.get rid
                          (if JsMap.has rid (JsMap.set rid [ref] m)
                           then JsMap.set rid [ref] m
                           else JsMap.set rid [] (JsMap.set rid [ref] m)))))
                 (if JsMap.has rid (JsMap.set rid [ref] m)
                  then JsMap.set rid [ref] m
                  else JsMap.set rid [] (JsMap.set rid [ref] m))
               = JsMap.set rid [ref] m) as Hupdate.
  { intros m. rewrite jsmap_has_set, jsmap_get_set_eq, jsmap_set_set.
    cbn [default from_option id LifeCycle.updateFirst LifeCycle.rref_instance
         ref].
    rewrite decide_True by done. unfold LifeCycle.boundRequestEnd.
    by rewrite He. }
  destruct bi; try done; destruct bs; try done; simpl;
    unfold LifeCycle.set_request; simpl;
    fold ref; rewrite (Hpush _ Hget), Hupdate, <- ?app_assoc; done.
Qed.

(** X21. A controller of request scope with the four hooks, none of them
    failing, lives for one request: the handler of a route calls
    [onInit], [onRequestStart], then after the handler method
    [onRequestEnd] and [onDestroy], each once and in this order, whatever
    the handler method does; afterwards the lifecycle registry is as it
    was before the request. *)
Theorem request_controller_lives_for_one_request fuel cl method fullPath
    handlerName res rid s a c1 o bi bs be bd :
  getControllerScope env cl = Some request →
  rid ≠ "" →
  JsMap.get rid
    (LifeCycle.reg_request (LifeCycle.lifecycleRegistry (world s))) = None →
  resolve env fuel (TClass cl) (Some rid) (container s)
  = (Return (VObj a), c1) →
  heap c1 !! a = Some o →
  hooks program (obj_class o)
  = mkHooks (Some bi) (Some bd) (Some bs) (Some be) →
  failure bi = None → failure bs = None →
  failure be = None → failure bd = None →
  let r := routeHandler env program fuel cl method fullPath handlerName res
             rid s in
  ∃ events,
    LifeCycle.trace (world r.2) = LifeCycle.trace (world s) ++ events
    ∧ calls events
      = [(LifeCycle.HInit, a); (LifeCycle.HRequestStart, a);
         (LifeCycle.HRequestEnd, a); (LifeCycle.HDestroy, a)]
    ∧ LifeCycle.lifecycleRegistry (world r.2)
      = LifeCycle.lifecycleRegistry (world s).
Proof.
  intros Hscope Hrid Hfresh Hres Ha Hhooks Hfi Hfs Hfe Hfd r. subst r.
  unfold routeHandler.
  match goal with
  | |- context [try_finally_with ?m _ _] =>
      destruct (try_finally_with_state m rid s) as [_ ->]; set (body := m)
  end.
  cbn [world].
  set (instance :=
         {| LifeCycle.inst_id := a;
            LifeCycle.inst_class := cls_name (classes env (obj_class o));
            LifeCycle.onInit := hook_onInit (hooks program (obj_class o));
            LifeCycle.onDestroy := hook_onDestroy (hooks program (obj_class o));
            LifeCycle.onRequestStart :=
              hook_onRequestStart (hooks program (obj_class o));
            LifeCycle.onRequestEnd :=
              hook_onRequestEnd (hooks program (obj_class o)) |}).
  assert (instanceOf env program c1 (VObj a) = Some instance) as Hinst.
  { unfold instanceOf. by rewrite Ha. }
  set (ref := LifeCycle.mkRequestRef instance bd (LifeCycle.BoundRequestEnd be)).
  set (w1 := LifeCycle.mkWorld
               (LifeCycle.set_request (JsMap.set rid [ref])
                  (LifeCycle.lifecycleRegistry (world s)))
               (LifeCycle.trace (world s)
                ++ [LifeCycle.Called LifeCycle.HInit a;
                    LifeCycle.Called LifeCycle.HRequestStart a])).
  assert (resolveControllerWithLifecycle env program fuel cl rid s
          = (Return (VObj a), mkState c1 w1)) as Hctl.
  { unfold resolveControllerWithLifecycle. rewrite Hscope.
    cbn [default from_option id].
    unfold mbind, M_bind, bind, inContainer. rewrite Hres.
    unfold applyLifecycle. cbn [container]. rewrite Hinst.
    unfold inWorld. cbn [world container].
    rewrite (applyLifecycle_request_run instance rid bi bs be bd);
      [reflexivity
      | try done; unfold instance; cbn; rewrite Hhooks; done ..]. }
  assert (∃ extra,
            LifeCycle.lifecycleRegistry (world (body s).2)
            = LifeCycle.lifecycleRegistry w1
            ∧ LifeCycle.trace (world (body s).2)
              = LifeCycle.trace w1 ++ extra
            ∧ calls extra = []) as (extra & Hreg & Htrace & Hextra).
  { subst body. unfold try_catch, mbind, M_bind, bind. rewrite Hctl.
    pose proof (callHandler_state program (VObj a) handlerName
                  (mkState c1 w1)) as Hcall.
    destruct (callHandler program (VObj a) handlerName (mkState c1 w1))
      as [[result|e|] s2]; cbn [snd] in Hcall; subst s2.
    - exists []. rewrite app_nil_r.
      by destruct (res_send res), (res_json res).
    - eexists [_]. by destruct (res_status res); cbv.
    - exists []. by rewrite app_nil_r. }
  rewrite cleanupRequest_run, Hreg.
  cbn [LifeCycle.lifecycleRegistry LifeCycle.reg_request
       LifeCycle.set_request w1].
  rewrite jsmap_get_set_eq. cbn [snd LifeCycle.trace LifeCycle.lifecycleRegistry].
  rewrite Htrace. cbn [LifeCycle.trace w1].
  eexists. split; [by rewrite <- !app_assoc|]. split.
  - rewrite !calls_app, Hextra. cbn [app].
    change (calls (?e :: ?l)) with (calls l) at 2.
    change ([ref] ≫= request_ref_trace rid)
      with (request_ref_trace rid ref ++ []).
    rewrite app_nil_r.
    unfold request_ref_trace, destroy_trace.
    cbn [LifeCycle.rref_onRequestEnd LifeCycle.rref_onDestroy
         LifeCycle.rref_instance ref].
    by rewrite Hfe, Hfd.
  - cbn [LifeCycle.lifecycleRegistry w1].
    unfold LifeCycle.set_request.
    cbn [LifeCycle.reg_request LifeCycle.reg_singleton LifeCycle.reg_transient].
    rewrite jsmap_delete_set_absent by done.
    by destruct (LifeCycle.lifecycleRegistry (world s)).
Qed.
End RequestController.

Lemma request_controller_lives_for_one_request_witness :
  let r := Boot.routeHandler Checkout.env Checkout.program 3 0 "GET" "/cart"
             "show" (Boot.mkRes true false true) "req-3" Checkout.start in
  ∃ events,
    LifeCycle.trace (Boot.world r.2)
    = LifeCycle.trace (Boot.world Checkout.start) ++ events
    ∧ calls events
      = [(LifeCycle.HInit, 0); (LifeCycle.HRequestStart, 0);
         (LifeCycle.HRequestEnd, 0); (LifeCycle.HDestroy, 0)]
    ∧ LifeCycle.lifecycleRegistry (Boot.world r.2)
      = LifeCycle.lifecycleRegistry (Boot.world Checkout.start).
Proof.
  eapply (request_controller_lives_for_one_request Checkout.env
            Checkout.program 3 0 "GET" "/cart" "show"
            (Boot.mkRes true false true) "req-3" Checkout.start 0 _
            (mkObj 0 []) LifeCycle.Returns LifeCycle.Returns
            LifeCycle.Resolves LifeCycle.Resolves).
  - reflexivity.
  - done.
  - reflexivity.
  - vm_compute. reflexivity.
  - vm_compute. reflexivity.
  - reflexivity.
  - reflexivity.
  - reflexivity.
  - reflexivity.
  - reflexivity.
Defined.
